(** * rigging.completion: the completion pipeline engine

    A shallow embedding of [src/rigging/completion.py]: the [Completion]
    record, the callback registry of [CompletionPipeline] (kept in a heap
    of Python objects, because the builder methods mutate lists that
    [clone] may share), the [_process] generator that validates one
    request round by round, the lockstep loops of [run_many] and
    [run_batch], and [_post_run]. *)

From Stdlib Require Import ZArith String.
From stdpp Require Import gmap strings list fin_maps.


(** ** What lives outside the module

    [rigging.generator], [rigging.parsing] and the callbacks' closures are
    collaborators.  Their types are abstract; everything they may read or
    change is one [World] value that is threaded through every call.

    A callback answers or raises.  What it raises is a value of
    [UserError]: any exception of its own.  (A validator that raises the
    module's [CompletionExhaustedMaxRoundsError] itself, which the loops
    would take for an exhausted processor, is not considered.)  A
    callback that is a coroutine runs without suspending, so the
    coroutines handed to one [asyncio.gather] run one after the other
    in list order. *)

Class ExternalTypes := {
  World : Type;
  GenerateParams : Type;
  Generator : Type;
  Model : Type;
  Usage : Type;
  Any : Type;
  BackendError : Type;
  UserError : Type;
}.

(** [StopReason] of [rigging.generator.base]. *)
Inductive StopReason := stop | length_ | content_filter | tool_calls | unknown.

Section Data.
Context `{ExternalTypes}.

(** [GeneratedText], one element of what [generate_texts] returns. *)
Record GeneratedText := {
  g_text : string;
  g_stop_reason : StopReason;
  g_usage : option Usage;
  g_extra : gmap string Any;
}.

(** [class Completion(BaseModel)].  [uuid] and [timestamp] are filled by
    their default factories and are read nowhere in the module; they are
    left out. *)
Record Completion := {
  c_text : string;
  c_generated : string;
  c_metadata : gmap string Any;
  c_stop_reason : StopReason;
  c_usage : option Usage;
  c_extra : gmap string Any;
  c_generator : option Generator;
  c_params : option GenerateParams;
  c_failed : bool;
}.

(** [Completion.__len__]; it also decides the truth value of a
    [Completion], since the class defines no [__bool__]. *)
Definition Completion_len (c : Completion) : nat :=
  String.length (c_text c) + String.length (c_generated c).

Definition Completion_bool (c : Completion) : bool :=
  negb (Completion_len c =? 0)%nat.

(** [Completion.all]. *)
Definition Completion_all (c : Completion) : string :=
  c_text c +:+ c_generated c.

(** Heap addresses; the address of an object is its identity. *)
Definition loc := nat.

(** The callable handed to [until]: a user function, or the bound method
    [owner._until_parse_callback].  Two bound methods are equal when they
    are bound to the same object. *)
Inductive UntilCompletionCallback :=
| UserUntil (call : string -> World -> (UserError + bool) * World)
| UntilParseMethod (owner : loc).

(** [(callback, all_text, max_rounds)]. *)
Definition UntilEntry : Type := UntilCompletionCallback * bool * Z.

Definition ThenCompletionCallback : Type :=
  Completion -> World -> (UserError + option Completion) * World.

Definition MapCompletionCallback : Type :=
  list Completion -> World -> (UserError + list Completion) * World.

(** [watch] compares callbacks with [in]; [watch_id] is the identity that
    comparison sees. *)
Record WatchCompletionCallback := {
  watch_id : nat;
  watch_call : list Completion -> World -> option UserError * World;
}.

(** The attributes of a [CompletionPipeline]; the five lists are
    references to list objects. *)
Record CompletionPipeline := {
  p_generator : Generator;
  p_text : string;
  p_params : option GenerateParams;
  p_metadata : gmap string Any;
  p_until_callbacks : loc;
  p_until_types : loc;
  p_then_callbacks : loc;
  p_map_callbacks : loc;
  p_watch_callbacks : loc;
}.

Inductive Obj :=
| ObjPipeline (p : CompletionPipeline)
| ObjUntilList (l : list UntilEntry)
| ObjTypeList (l : list Model)
| ObjThenList (l : list ThenCompletionCallback)
| ObjMapList (l : list MapCompletionCallback)
| ObjWatchList (l : list WatchCompletionCallback).

Inductive ConfigProblem :=
| BothSkipAndInclude
| ParamsCount (count : Z).

Inductive Exn :=
| ValueError (what : ConfigProblem)
| CompletionExhaustedMaxRoundsError (max_rounds : Z) (completion : string)
| UnboundLocalError (name : string)
| TypeError
| ValidationError
| IndexError
| GeneratorError (e : BackendError)
| CallbackError (e : UserError).

End Data.

(** The operations of the collaborators. *)
Class External `{ExternalTypes} := {
  (** [GenerateParams()] *)
  default_params : GenerateParams;
  (** [base.merge_with(override)] *)
  merge_with : GenerateParams -> option GenerateParams -> GenerateParams;
  (** [generator.generate_texts(texts, params)]: the texts, or the error
      it raises. *)
  generate_texts :
    Generator -> list string -> list GenerateParams -> World ->
    (BackendError + list GeneratedText) * World;
  (** whether [parse_many(text, *types)] raises *)
  parse_many_raises : string -> list Model -> bool;
}.

(** ** The heap and the callback registry *)

Section Registry.
Context `{External}.

Implicit Types (h : gmap loc Obj) (l self : loc).

Definition alloc h (o : Obj) : loc * gmap loc Obj :=
  let l := fresh (dom h) in (l, <[l:=o]> h).

Definition until_list h l : list UntilEntry :=
  match h !! l with Some (ObjUntilList x) => x | _ => [] end.
Definition type_list h l : list Model :=
  match h !! l with Some (ObjTypeList x) => x | _ => [] end.
Definition then_list h l : list ThenCompletionCallback :=
  match h !! l with Some (ObjThenList x) => x | _ => [] end.
Definition map_list h l : list MapCompletionCallback :=
  match h !! l with Some (ObjMapList x) => x | _ => [] end.
Definition watch_list h l : list WatchCompletionCallback :=
  match h !! l with Some (ObjWatchList x) => x | _ => [] end.
Definition pipeline h self : option CompletionPipeline :=
  match h !! self with Some (ObjPipeline p) => Some p | _ => None end.

(** [CompletionPipeline.__init__].  [watch_callbacks or []] keeps the
    caller's list object when it is given and not empty, and makes a new
    list otherwise. *)
Definition CompletionPipeline_init h (generator : Generator) (text : string)
    (params : option GenerateParams) (watch_callbacks : option loc)
  : loc * gmap loc Obj :=
  let '(lu, h) := alloc h (ObjUntilList []) in
  let '(lt, h) := alloc h (ObjTypeList []) in
  let '(lth, h) := alloc h (ObjThenList []) in
  let '(lm, h) := alloc h (ObjMapList []) in
  let '(lw, h) :=
    match watch_callbacks with
    | Some l =>
        match watch_list h l with
        | [] => alloc h (ObjWatchList [])
        | _ :: _ => (l, h)
        end
    | None => alloc h (ObjWatchList [])
    end in
  alloc h (ObjPipeline {|
    p_generator := generator; p_text := text; p_params := params;
    p_metadata := ∅;
    p_until_callbacks := lu; p_until_types := lt;
    p_then_callbacks := lth; p_map_callbacks := lm;
    p_watch_callbacks := lw |}).

Definition watch_mem (cb : WatchCompletionCallback)
    (cbs : list WatchCompletionCallback) : bool :=
  existsb (λ c, (watch_id c =? watch_id cb)%nat) cbs.

(** [watch]: the callbacks given, in order *)
Fixpoint watch h self (callbacks : list WatchCompletionCallback)
    (allow_duplicates : bool) : gmap loc Obj :=
  match callbacks with
  | [] => h
  | cb :: rest =>
      match pipeline h self with
      | None => h
      | Some p =>
          let lw := p_watch_callbacks p in
          let cur := watch_list h lw in
          let h' :=
            if allow_duplicates || negb (watch_mem cb cur)
            then <[lw := ObjWatchList (cur ++ [cb])]> h else h in
          watch h' self rest allow_duplicates
      end
  end.

(** [then(callback)] *)
Definition then_ h self (callback : ThenCompletionCallback) : gmap loc Obj :=
  match pipeline h self with
  | None => h
  | Some p =>
      let l := p_then_callbacks p in
      <[l := ObjThenList (then_list h l ++ [callback])]> h
  end.

(** [map(callback)] *)
Definition map_ h self (callback : MapCompletionCallback) : gmap loc Obj :=
  match pipeline h self with
  | None => h
  | Some p =>
      let l := p_map_callbacks p in
      <[l := ObjMapList (map_list h l ++ [callback])]> h
  end.

(** [until(callback, use_all_text, max_rounds)] *)
Definition until h self (callback : UntilCompletionCallback)
    (use_all_text : bool) (max_rounds : Z) : gmap loc Obj :=
  match pipeline h self with
  | None => h
  | Some p =>
      let l := p_until_callbacks p in
      <[l := ObjUntilList (until_list h l ++ [(callback, use_all_text, max_rounds)])]> h
  end.

(** [c[0] == self._until_parse_callback] *)
Definition is_parse_method_of self (e : UntilEntry) : bool :=
  match e.1.1 with
  | UntilParseMethod owner => bool_decide (owner = self)
  | UserUntil _ => false
  end.

(** [until_parsed_as] with its [types], [use_all_text] and [max_rounds] *)
Definition until_parsed_as h self (types : list Model)
    (use_all_text : bool) (max_rounds : Z) : gmap loc Obj :=
  match pipeline h self with
  | None => h
  | Some p =>
      let lt := p_until_types p in
      let h := <[lt := ObjTypeList (type_list h lt ++ types)]> h in
      let lu := p_until_callbacks p in
      match find (is_parse_method_of self) (until_list h lu) with
      | None =>
          <[lu := ObjUntilList
                    (until_list h lu ++ [(UntilParseMethod self, use_all_text, max_rounds)])]> h
      | Some _ => h
      end
  end.

(** [add(text)] *)
Definition add h self (text : string) : gmap loc Obj :=
  match pipeline h self with
  | None => h
  | Some p =>
      <[self := ObjPipeline {|
         p_generator := p_generator p; p_text := p_text p +:+ text;
         p_params := p_params p; p_metadata := p_metadata p;
         p_until_callbacks := p_until_callbacks p;
         p_until_types := p_until_types p;
         p_then_callbacks := p_then_callbacks p;
         p_map_callbacks := p_map_callbacks p;
         p_watch_callbacks := p_watch_callbacks p |}]> h
  end.

(** [clone(only_text)].  [model_copy] and [deepcopy] of values are the
    identity here; the [.copy()] of a list is a new list object. *)
Definition clone h self (only_text : bool) : option loc * gmap loc Obj :=
  match pipeline h self with
  | None => (None, h)
  | Some p =>
      let '(new, h) :=
        CompletionPipeline_init h (p_generator p) (p_text p) (p_params p)
          (Some (p_watch_callbacks p)) in
      if only_text then (Some new, h)
      else
        match pipeline h new with
        | None => (Some new, h)
        | Some q =>
            let '(lu, h) := alloc h (ObjUntilList (until_list h (p_until_callbacks p))) in
            let '(lt, h) := alloc h (ObjTypeList (type_list h (p_until_types p))) in
            let '(lth, h) := alloc h (ObjThenList (then_list h (p_then_callbacks p))) in
            let '(lm, h) := alloc h (ObjMapList (map_list h (p_map_callbacks p))) in
            (Some new,
             <[new := ObjPipeline {|
                p_generator := p_generator q; p_text := p_text q;
                p_params := p_params q; p_metadata := p_metadata p;
                p_until_callbacks := lu; p_until_types := lt;
                p_then_callbacks := lth; p_map_callbacks := lm;
                p_watch_callbacks := p_watch_callbacks q |}]> h)
        end
  end.

End Registry.

(** ** The engine *)

(** The generator object made by [_process()]: not started, suspended at
    one of its two [yield]s (in the loop with the locals
    [lowest_max_rounds] and [current_round]; [should_retry] is [True] at
    every suspension), or finished. *)
Inductive Processor :=
| Created
| AtFirstYield
| AtLoopYield (lowest_max_rounds current_round : Z)
| Closed.

Section Engine.
Context `{External}.

Implicit Types (h : gmap loc Obj) (self : CompletionPipeline) (w : World).

(** What [processor.send(chunk)] does: suspend again, raise
    [StopIteration(value)], or raise something else. *)
Inductive Resumed :=
| Yield (g : Processor)
| StopIteration (value : option string)
| Raise (e : Exn).

(** [@dataclass RunState] *)
Record RunState := {
  s_text : string;
  s_params : GenerateParams;
  s_processor : Processor;
  s_completion : option Completion;
  s_watched : bool;
}.

(** The calls the engine makes, in the order they happen: a backend
    call with its answer; a chunk sent into the processor of the state at position [i] of
    [states], with what the processor did and the [Completion] that was
    assigned to [state.completion], if any; a call of [_watch_callback],
    with the position of the state each delivered record belongs to;
    the call of one Watch callback inside [_watch_callback], with the
    records it was given and what it raised, if anything. *)
Inductive Event :=
| EvGenerate (texts : list string) (params : list GenerateParams)
    (answer : BackendError + list GeneratedText)
| EvSend (i : nat) (chunk : string) (r : Resumed) (assigned : option Completion)
| EvWatch (delivered : list (nat * Completion))
| EvWatchCall (id : nat) (completions : list Completion)
    (raised : option UserError).

(** [min((c[2] for c in self.until_callbacks), default=1)] *)
Definition lowest_max_rounds (cbs : list UntilEntry) : Z :=
  match cbs with
  | [] => 1
  | e :: rest => foldl (λ m c, Z.min m c.2) e.2 rest
  end.

(** One call [callback(text)]: its answer, or what it raises.
    [_until_parse_callback] answers [True] exactly when [parse_many]
    raises on the owner's [until_types], and raises nothing itself. *)
Definition call_until h (cb : UntilCompletionCallback) (text : string) w
  : (Exn + bool) * World :=
  match cb with
  | UserUntil call =>
      match call text w with
      | (inl e, w) => (inl (CallbackError e), w)
      | (inr should_retry, w) => (inr should_retry, w)
      end
  | UntilParseMethod owner =>
      match pipeline h owner with
      | Some o => (inr (parse_many_raises text (type_list h (p_until_types o))), w)
      | None => (inr (parse_many_raises text []), w)
      end
  end.

(** The [for callback, use_all_text, _ in self.until_callbacks] loop of
    [_process]: every callback runs and overwrites [should_retry]; the
    [continue] under [if should_retry] only moves on to the next
    callback.  What a callback raises leaves the loop. *)
Fixpoint for_until_callbacks h self (generated : string)
    (cbs : list UntilEntry) (should_retry : bool) w : (Exn + bool) * World :=
  match cbs with
  | [] => (inr should_retry, w)
  | (callback, use_all_text, _) :: rest =>
      match call_until h callback
              (if use_all_text then p_text self +:+ generated else generated) w with
      | (inl e, w) => (inl e, w)
      | (inr should_retry, w) =>
          for_until_callbacks h self generated rest should_retry w
      end
  end.

(** [_process], first part: [next(processor)] on the new generator runs
    it to its first [yield].  When the loop is not entered the generator
    falls to the [raise] with [generated] never assigned. *)
Definition _process_next h self : Exn + Processor :=
  match until_list h (p_until_callbacks self) with
  | [] => inr AtFirstYield
  | cbs =>
      let lowest := lowest_max_rounds cbs in
      if (0 <? lowest)%Z then inr (AtLoopYield lowest 1)
      else inl (UnboundLocalError "generated"%string)
  end.

(** [_process], second part: [processor.send(generated)].  What a
    validator raises leaves the generator, and [send] with it. *)
Definition _process_send h self (g : Processor) (generated : string) w
  : Resumed * World :=
  match g with
  | Created => (Raise TypeError, w)
  | AtFirstYield => (StopIteration (Some generated), w)
  | AtLoopYield lowest current_round =>
      match for_until_callbacks h self generated
              (until_list h (p_until_callbacks self)) true w with
      | (inl e, w) => (Raise e, w)
      | (inr should_retry, w) =>
          if should_retry && (current_round <? lowest)%Z
          then (Yield (AtLoopYield lowest (current_round + 1)), w)
          else if should_retry
          then (Raise (CompletionExhaustedMaxRoundsError lowest generated), w)
          else (StopIteration (Some generated), w)
      end
  | Closed => (StopIteration None, w)
  end.

(** [_fit_params(count, params)] *)
Definition _fit_params self (count : Z)
    (params : option (list (option GenerateParams)))
  : Exn + list GenerateParams :=
  let params :=
    match params with
    | None => replicate (Z.to_nat count) None
    | Some ps => ps
    end in
  if bool_decide (Z.of_nat (length params) = count) then
    let params :=
      match p_params self with
      | Some base => map (λ p, Some (merge_with base p)) params
      | None => params
      end in
    inr (map (λ p, default default_params p) params)
  else inl (ValueError (ParamsCount count)).

(** [await asyncio.gather] over [callback(completions) for callback in
    self.watch_callbacks]: every coroutine runs, in list order, and the
    first exception that was raised, if any, is raised once all have
    run. *)
Fixpoint gather_watch (cbs : list WatchCompletionCallback)
    (completions : list Completion) w : option Exn * list Event * World :=
  match cbs with
  | [] => (None, [], w)
  | callback :: rest =>
      let '(raised, w) := watch_call callback completions w in
      let '(later, calls, w) := gather_watch rest completions w in
      (match raised with
       | Some e => Some (CallbackError e)
       | None => later
       end,
       EvWatchCall (watch_id callback) completions raised :: calls, w)
  end.

(** [_watch_callback(completions)]: what it raises, if anything, and
    the calls of the Watch callbacks. *)
Definition _watch_callback h self (completions : list Completion) w
  : option Exn * list Event * World :=
  gather_watch (watch_list h (p_watch_callbacks self)) completions w.

(** [new or chat]: the truth value of a [Completion] is [len(...) != 0]. *)
Definition new_or_chat (new : option Completion) (chat : Completion)
  : Completion :=
  match new with
  | Some n => if Completion_bool n then n else chat
  | None => chat
  end.

(** [await asyncio.gather] over [then_callback(chat) for chat in
    completions]: every coroutine runs, in list order; the answers, or
    the first exception that was raised. *)
Fixpoint gather_then (then_callback : ThenCompletionCallback)
    (completions : list Completion) w
  : (Exn + list (option Completion)) * World :=
  match completions with
  | [] => (inr [], w)
  | chat :: rest =>
      let '(new, w) := then_callback chat w in
      let '(news, w) := gather_then then_callback rest w in
      (match new, news with
       | inl e, _ => inl (CallbackError e)
       | inr _, inl e => inl e
       | inr new, inr news => inr (new :: news)
       end, w)
  end.

(** [for map_callback in self.map_callbacks] *)
Fixpoint for_map_callbacks (cbs : list MapCompletionCallback)
    (completions : list Completion) w : (Exn + list Completion) * World :=
  match cbs with
  | [] => (inr completions, w)
  | map_callback :: rest =>
      match map_callback completions w with
      | (inl e, w) => (inl (CallbackError e), w)
      | (inr completions, w) => for_map_callbacks rest completions w
      end
  end.

(** [for then_callback in self.then_callbacks] *)
Fixpoint for_then_callbacks (cbs : list ThenCompletionCallback)
    (completions : list Completion) w : (Exn + list Completion) * World :=
  match cbs with
  | [] => (inr completions, w)
  | then_callback :: rest =>
      match gather_then then_callback completions w with
      | (inl e, w) => (inl e, w)
      | (inr new_completions, w) =>
          for_then_callbacks rest
            (zip_with new_or_chat new_completions completions) w
      end
  end.

(** [_post_run(completions)] *)
Definition _post_run h self (completions : list Completion) w
  : (Exn + list Completion) * World :=
  match for_map_callbacks (map_list h (p_map_callbacks self)) completions w with
  | (inl e, w) => (inl e, w)
  | (inr completions, w) =>
      for_then_callbacks (then_list h (p_then_callbacks self)) completions w
  end.

(** [Completion(self.text, generated, generator=self.generator,
    params=state.params, metadata=self.metadata, stop_reason=...,
    usage=..., extra=..., failed=...)] *)
Definition new_completion self (state : RunState) (generated : string)
    (inbound : GeneratedText) (failed : bool) : Completion := {|
  c_text := p_text self;
  c_generated := generated;
  c_metadata := p_metadata self;
  c_stop_reason := g_stop_reason inbound;
  c_usage := g_usage inbound;
  c_extra := g_extra inbound;
  c_generator := Some (p_generator self);
  c_params := Some (s_params state);
  c_failed := failed |}.

Definition set_processor (g : Processor) (s : RunState) : RunState :=
  {| s_text := s_text s; s_params := s_params s; s_processor := g;
     s_completion := s_completion s; s_watched := s_watched s |}.

(** [state.completion = c]; the generator has finished by then. *)
Definition set_completion (c : Completion) (s : RunState) : RunState :=
  {| s_text := s_text s; s_params := s_params s; s_processor := Closed;
     s_completion := Some c; s_watched := s_watched s |}.

(** [state.watched = True] *)
Definition set_watched (s : RunState) : RunState :=
  {| s_text := s_text s; s_params := s_params s;
     s_processor := s_processor s;
     s_completion := s_completion s; s_watched := true |}.

(** What a piece of the run leaves behind: its value or the exception
    that escapes, the events so far, and the world. *)
Definition Ran (A : Type) : Type := (Exn + A) * list Event * World.

(** [_ = [next(state.processor) for state in states]] *)
Fixpoint prime h self (states : list RunState) : Exn + list RunState :=
  match states with
  | [] => inr []
  | s :: rest =>
      match _process_next h self with
      | inl e => inl e
      | inr g =>
          match prime h self rest with
          | inl e => inl e
          | inr rest => inr (set_processor g s :: rest)
          end
      end
  end.

(** The body of [for inbound, state in zip(inbounds, pending_states)]
    for one pair: the [send], and the two [except] clauses. *)
Definition deliver h self (skip_failed include_failed : bool)
    (inbound : GeneratedText) (i : nat) (state : RunState) w
  : (Exn + RunState) * Event * World :=
  let '(r, w) := _process_send h self (s_processor state) (g_text inbound) w in
  match r with
  | Yield g =>
      (inr (set_processor g state), EvSend i (g_text inbound) r None, w)
  | StopIteration (Some value) =>
      let c := new_completion self state value inbound false in
      (inr (set_completion c state), EvSend i (g_text inbound) r (Some c), w)
  | StopIteration None =>
      (inl ValidationError, EvSend i (g_text inbound) r None, w)
  | Raise (CompletionExhaustedMaxRoundsError m completion) =>
      if negb skip_failed && negb include_failed
      then (inl (CompletionExhaustedMaxRoundsError m completion),
            EvSend i (g_text inbound) r None, w)
      else
        let c := new_completion self state completion inbound true in
        (inr (set_completion c state), EvSend i (g_text inbound) r (Some c), w)
  | Raise e => (inl e, EvSend i (g_text inbound) r None, w)
  end.

(** [for inbound, state in zip(inbounds, pending_states)]: [pending]
    holds the positions in [states] of the pending states, so that an
    assignment to [state.completion] is seen through [states] too. *)
Fixpoint route h self (skip_failed include_failed : bool)
    (pairs : list (GeneratedText * nat)) (states : list RunState)
    (tr : list Event) w : Ran (list RunState) :=
  match pairs with
  | [] => (inr states, tr, w)
  | (inbound, i) :: rest =>
      match states !! i with
      | None => route h self skip_failed include_failed rest states tr w
      | Some state =>
          match deliver h self skip_failed include_failed inbound i state w with
          | (inl e, ev, w) => (inl e, tr ++ [ev], w)
          | (inr state, ev, w) =>
              route h self skip_failed include_failed rest
                (<[i := state]> states) (tr ++ [ev]) w
          end
      end
  end.

(** [s.completion is None], for the state at position [i] *)
Definition still_pending (states : list RunState) (i : nat) : bool :=
  match states !! i with
  | Some s => match s_completion s with None => true | Some _ => false end
  | None => false
  end.

(** [[s for s in states if s.completion is not None and not s.watched]] *)
Definition to_watch_states (states : list RunState) : list (nat * RunState) :=
  List.filter
    (λ '(_, s), match s_completion s with
                | Some _ => negb (s_watched s)
                | None => false
                end)
    (imap pair states).

(** One turn of the [while pending_states] loop: the backend call, the
    routing of its answers, the new pending list, and the Watch
    delivery.  [request] is the text sent for a state. *)
Definition one_round h self (request : RunState -> string)
    (skip_failed include_failed : bool) (states : list RunState)
    (pending : list nat) (tr : list Event) w
  : Ran (list RunState * list nat) :=
  let pending_states := omap (λ i, states !! i) pending in
  let texts := map request pending_states in
  let params := map s_params pending_states in
  let '(r, w) := generate_texts (p_generator self) texts params w in
  let tr := tr ++ [EvGenerate texts params r] in
  match r with
  | inl e => (inl (GeneratorError e), tr, w)
  | inr inbounds =>
      match route h self skip_failed include_failed
              (zip inbounds pending) states tr w with
      | (inl e, tr, w) => (inl e, tr, w)
      | (inr states, tr, w) =>
          let pending := List.filter (still_pending states) pending in
          let to_watch := to_watch_states states in
          let delivered :=
            omap (λ '(i, s), pair i <$> s_completion s) to_watch in
          let '(raised, calls, w) :=
            _watch_callback h self (map snd delivered) w in
          let tr := tr ++ EvWatch delivered :: calls in
          match raised with
          | Some e => (inl e, tr, w)
          | None =>
              let states :=
                foldl (λ sts i, alter set_watched i sts) states
                  (map fst to_watch) in
              (inr (states, pending), tr, w)
          end
      end
  end.

(** The [while pending_states] loop shared by [run_many] and
    [run_batch] ([request] is [s.text] in the first and
    [self.text + s.text] in the second).  [None] when [fuel] turns were
    not enough. *)
Fixpoint while_pending (fuel : nat) h self (request : RunState -> string)
    (skip_failed include_failed : bool) (states : list RunState)
    (pending : list nat) (tr : list Event) w
  : option (Ran (list RunState)) :=
  match pending with
  | [] => Some (inr states, tr, w)
  | _ :: _ =>
      match fuel with
      | O => None
      | S fuel =>
          match one_round h self request skip_failed include_failed
                  states pending tr w with
          | (inl e, tr, w) => Some (inl e, tr, w)
          | (inr (states, pending), tr, w) =>
              while_pending fuel h self request skip_failed include_failed
                states pending tr w
          end
      end
  end.

(** The selection of the completions after the loop, and [_post_run]. *)
Definition collect h self (skip_failed : bool) (states : list RunState)
    (tr : list Event) w : Ran (list Completion) :=
  let completions :=
    if skip_failed
    then List.filter (λ c, negb (c_failed c)) (omap s_completion states)
    else omap s_completion states in
  let '(completions, w) := _post_run h self completions w in
  (completions, tr, w).

(** Priming, the loop and the collection: the body that [run_many] and
    [run_batch] share once their states are built. *)
Definition execute (fuel : nat) h self (request : RunState -> string)
    (skip_failed include_failed : bool) (states : list RunState) w
  : option (Ran (list Completion)) :=
  match prime h self states with
  | inl e => Some (inl e, [], w)
  | inr states =>
      match while_pending fuel h self request skip_failed include_failed
              states (seq 0 (length states)) [] w with
      | None => None
      | Some (inl e, tr, w) => Some (inl e, tr, w)
      | Some (inr states, tr, w) => Some (collect h self skip_failed states tr w)
      end
  end.

(** [run_many(count, params, skip_failed, include_failed)] *)
Definition run_many (fuel : nat) h self (count : Z)
    (params : option (list (option GenerateParams)))
    (skip_failed include_failed : bool) w
  : option (Ran (list Completion)) :=
  if skip_failed && include_failed
  then Some (inl (ValueError BothSkipAndInclude), [], w)
  else
    match _fit_params self count params with
    | inl e => Some (inl e, [], w)
    | inr params =>
        let states :=
          map (λ p, {| s_text := p_text self; s_params := p;
                       s_processor := Created; s_completion := None;
                       s_watched := false |}) params in
        execute fuel h self s_text skip_failed include_failed states w
    end.

(** [run_batch(many, params, skip_failed, include_failed)] *)
Definition run_batch (fuel : nat) h self (many : list string)
    (params : option (list (option GenerateParams)))
    (skip_failed include_failed : bool) w
  : option (Ran (list Completion)) :=
  if skip_failed && include_failed
  then Some (inl (ValueError BothSkipAndInclude), [], w)
  else
    match _fit_params self (Z.of_nat (length many)) params with
    | inl e => Some (inl e, [], w)
    | inr params =>
        let states :=
          zip_with (λ m p, {| s_text := m; s_params := p;
                              s_processor := Created; s_completion := None;
                              s_watched := false |}) many params in
        execute fuel h self (λ s, p_text self +:+ s_text s)
          skip_failed include_failed states w
    end.

(** [run(allow_failed)] *)
Definition run (fuel : nat) h self (allow_failed : bool) w
  : option (Ran Completion) :=
  match run_many fuel h self 1 None false allow_failed w with
  | None => None
  | Some (inl e, tr, w) => Some (inl e, tr, w)
  | Some (inr [], tr, w) => Some (inl IndexError, tr, w)
  | Some (inr (chat :: _), tr, w) => Some (inr chat, tr, w)
  end.

End Engine.

(** ** Vocabulary of the statements *)

Section Vocabulary.
Context `{External}.

Implicit Types (h : gmap loc Obj) (l self : loc).

(** Is any bound [_until_parse_callback], whatever its owner. *)
Definition is_parse_method (e : UntilEntry) : bool :=
  match e.1.1 with UntilParseMethod _ => true | UserUntil _ => false end.

(** A pipeline object whose until list and type list are separate
    objects. *)
Definition separate h self (p : CompletionPipeline) : Prop :=
  pipeline h self = Some p ∧
  p_until_types p ≠ p_until_callbacks p ∧
  p_until_types p ≠ self ∧ p_until_callbacks p ≠ self.

(** A call of one of the methods that register a callback. *)
Inductive Registration :=
| RegUntil (callback : UntilCompletionCallback) (use_all_text : bool)
    (max_rounds : Z)
| RegUntilParsedAs (types : list Model) (use_all_text : bool) (max_rounds : Z)
| RegThen (callback : ThenCompletionCallback)
| RegMap (callback : MapCompletionCallback)
| RegWatch (callbacks : list WatchCompletionCallback) (allow_duplicates : bool).

Definition register h self (r : Registration) : gmap loc Obj :=
  match r with
  | RegUntil callback use_all_text max_rounds =>
      until h self callback use_all_text max_rounds
  | RegUntilParsedAs types use_all_text max_rounds =>
      until_parsed_as h self types use_all_text max_rounds
  | RegThen callback => then_ h self callback
  | RegMap callback => map_ h self callback
  | RegWatch callbacks allow_duplicates =>
      watch h self callbacks allow_duplicates
  end.

Definition is_watch (r : Registration) : bool :=
  match r with RegWatch _ _ => true | _ => false end.

(** A pipeline object whose lists are objects of the heap, distinct
    from each other and from the pipeline. *)
Definition well_formed h self (p : CompletionPipeline) : Prop :=
  pipeline h self = Some p ∧
  is_Some (h !! p_until_callbacks p) ∧ is_Some (h !! p_until_types p) ∧
  is_Some (h !! p_then_callbacks p) ∧ is_Some (h !! p_map_callbacks p) ∧
  is_Some (h !! p_watch_callbacks p) ∧
  NoDup [self; p_until_callbacks p; p_until_types p; p_then_callbacks p;
         p_map_callbacks p; p_watch_callbacks p].

(** A sequence of [until_parsed_as] calls on one pipeline, each with its
    types, [use_all_text] and [max_rounds]. *)
Definition until_parsed_as_calls h self (calls : list (list Model * bool * Z))
  : gmap loc Obj :=
  foldl (λ h c, until_parsed_as h self c.1.1 c.1.2 c.2) h calls.

(** The records delivered to the Watch callbacks, each with the
    position of its state, in delivery order. *)
Definition delivered (tr : list Event) : list (nat * Completion) :=
  tr ≫= λ ev, match ev with EvWatch d => d | _ => [] end.

(** The records assigned to [state.completion], each with the position
    of its state. *)
Definition assigned (tr : list Event) : list (nat * Completion) :=
  omap (λ ev, match ev with
              | EvSend i _ _ (Some c) => Some (i, c)
              | _ => None
              end) tr.

(** The chunks sent to the state at position [i]: the backend rounds
    that request took part in. *)
Definition sent (i : nat) (tr : list Event) : list string :=
  omap (λ ev, match ev with
              | EvSend j chunk _ _ => if decide (j = i) then Some chunk else None
              | _ => None
              end) tr.

(** The texts of the backend calls. *)
Definition generate_calls (tr : list Event) : list (list string) :=
  omap (λ ev, match ev with EvGenerate texts _ _ => Some texts | _ => None end) tr.

(** Each request text of a backend call that was answered, with the
    text of the answer at the same position. *)
Definition answered (tr : list Event) : list (string * string) :=
  tr ≫= λ ev, match ev with
              | EvGenerate texts _ (inr inbounds) =>
                  zip texts (g_text <$> inbounds)
              | _ => []
              end.

(** The calls of the Watch callbacks: the identity of the callback and
    the records it was given. *)
Definition watch_calls (tr : list Event) : list (nat * list Completion) :=
  omap (λ ev, match ev with
              | EvWatchCall id completions _ => Some (id, completions)
              | _ => None
              end) tr.

Definition is_watch_call (ev : Event) : Prop :=
  match ev with EvWatchCall _ _ _ => True | _ => False end.

(** The records of [l] that belong to the state at position [i]. *)
Definition records_at (i : nat) (l : list (nat * Completion))
  : list Completion :=
  omap (λ d, if decide (d.1 = i) then Some d.2 else None) l.

(** What the [send] events of a run must look like: a record is assigned
    only when the processor stopped, with the chunk just sent as its
    generated text and the seed text as its text; it is a failed record
    exactly when the processor raised the exhaustion error, which only
    happens under [skip_failed] or [include_failed]. *)
Definition send_ok (self : CompletionPipeline) (skip_failed include_failed : bool)
    (ev : Event) : Prop :=
  match ev with
  | EvSend i chunk r (Some c) =>
      c_text c = p_text self ∧ c_generated c = chunk ∧
      c_generator c = Some (p_generator self) ∧
      c_metadata c = p_metadata self ∧
      ((c_failed c = false ∧ r = StopIteration (Some chunk)) ∨
       (c_failed c = true ∧ skip_failed || include_failed = true ∧
        ∃ m, r = Raise (CompletionExhaustedMaxRoundsError m chunk)))
  | _ => True
  end.

(** What holds of the events of every run, finished or interrupted.
    [requests] are the texts of all the states, in order: records are
    assigned and delivered at most once per state, only assigned records
    are delivered, every backend call carries some of the requests in
    their order, no state is sent more chunks than the round budget, a
    record holds the last chunk its state was sent, and every chunk
    sent to a state is an answer of the backend to that state's
    request. *)
Definition trace_ok h (self : CompletionPipeline)
    (skip_failed include_failed : bool) (requests : list string)
    (tr : list Event) : Prop :=
  Forall (send_ok self skip_failed include_failed) tr ∧
  Forall (λ d, d.1 < length requests) (assigned tr) ∧
  NoDup (assigned tr).*1 ∧
  NoDup (delivered tr).*1 ∧
  (∀ d, d ∈ delivered tr → d ∈ assigned tr) ∧
  Forall (λ texts, texts `sublist_of` requests) (generate_calls tr) ∧
  (∀ i, (Z.of_nat (length (sent i tr)) ≤
         Z.max 0 (lowest_max_rounds (until_list h (p_until_callbacks self))))%Z) ∧
  (∀ i c, (i, c) ∈ assigned tr → last (sent i tr) = Some (c_generated c)) ∧
  (∀ i chunk, chunk ∈ sent i tr →
     ∃ t, requests !! i = Some t ∧ (t, chunk) ∈ answered tr).

(** A processor that waits for a chunk, given how many chunks it has
    received. *)
Definition live h (self : CompletionPipeline) (g : Processor) (n : nat) : Prop :=
  match g with
  | AtFirstYield => until_list h (p_until_callbacks self) = [] ∧ n = 0
  | AtLoopYield lowest current_round =>
      until_list h (p_until_callbacks self) ≠ [] ∧
      lowest = lowest_max_rounds (until_list h (p_until_callbacks self)) ∧
      (1 ≤ current_round ≤ lowest)%Z ∧
      Z.of_nat n = (current_round - 1)%Z
  | Created | Closed => False
  end.

(** How the state at position [i] agrees with the events so far; [init]
    are the states as they were built. *)
Definition state_ok h (self : CompletionPipeline) (init : list RunState)
    (tr : list Event) (i : nat) (s : RunState) : Prop :=
  (∃ s0, init !! i = Some s0 ∧ s_text s = s_text s0 ∧ s_params s = s_params s0) ∧
  match s_completion s with
  | Some c =>
      s_processor s = Closed ∧
      records_at i (assigned tr) = [c] ∧
      records_at i (delivered tr) = (if s_watched s then [c] else []) ∧
      c_params c = Some (s_params s)
  | None =>
      s_watched s = false ∧
      records_at i (assigned tr) = [] ∧
      records_at i (delivered tr) = [] ∧
      live h self (s_processor s) (length (sent i tr))
  end.

(** The states and the pending list at the head of the loop. *)
Definition loop_head h (self : CompletionPipeline) (init : list RunState)
    (states : list RunState) (pending : list nat) (tr : list Event) : Prop :=
  length states = length init ∧
  (∀ i s, states !! i = Some s → state_ok h self init tr i s) ∧
  (∀ i s, states !! i = Some s → is_Some (s_completion s) → s_watched s = true) ∧
  pending `sublist_of` seq 0 (length states) ∧
  (∀ i, i ∈ pending ↔ ∃ s, states !! i = Some s ∧ s_completion s = None).

(** The records of one Watch delivery. *)
Definition newly_finished (states : list RunState) : list (nat * Completion) :=
  omap (λ '(i, s), pair i <$> s_completion s) (to_watch_states states).

(** New states: no record, not watched. *)
Definition fresh_states (states : list RunState) : Prop :=
  Forall (λ s, s_completion s = None ∧ s_watched s = false) states.

(** The states [run_batch] builds, and the ones [run_many] builds. *)
Definition batch_states (many : list string) (fitted : list GenerateParams)
  : list RunState :=
  zip_with (λ m p, {| s_text := m; s_params := p; s_processor := Created;
                      s_completion := None; s_watched := false |}) many fitted.

Definition many_states (self : CompletionPipeline)
    (fitted : list GenerateParams) : list RunState :=
  map (λ p, {| s_text := p_text self; s_params := p; s_processor := Created;
               s_completion := None; s_watched := false |}) fitted.

(** An execution of [run_batch] or of [run_many], with what it left. *)
Definition runs (fuel : nat) h (self : CompletionPipeline)
    (skip_failed include_failed : bool) (w : World)
    (r : Ran (list Completion)) : Prop :=
  (∃ many params,
     run_batch fuel h self many params skip_failed include_failed w = Some r) ∨
  (∃ count params,
     run_many fuel h self count params skip_failed include_failed w = Some r).

(** Every record that was assigned to a state has been delivered to the
    Watch callbacks exactly once. *)
Definition watched_once (tr : list Event) : Prop :=
  ∀ i c, (i, c) ∈ assigned tr → records_at i (delivered tr) = [c].


(** The contract of the backend: it gives as many answers as it got
    requests. *)
Definition answers_every_request : Prop :=
  ∀ generator texts params (w : World) inbounds w',
    generate_texts generator texts params w = (inr inbounds, w') →
    length inbounds = length texts.

(** The round budget of a pipeline: the lowest [max_rounds], or one
    round without validators; no round at all when it is not
    positive. *)
Definition round_budget h (self : CompletionPipeline) : nat :=
  Z.to_nat (Z.max 0 (lowest_max_rounds (until_list h (p_until_callbacks self)))).

(** Post-processing as the description has it: like [_post_run], but a
    Then callback's record replaces the current one whenever it is not
    [None]. *)
Definition replace_unless_none (new : option Completion) (chat : Completion)
  : Completion := default chat new.

Fixpoint for_then_callbacks_as_described (cbs : list ThenCompletionCallback)
    (completions : list Completion) (w : World)
  : (Exn + list Completion) * World :=
  match cbs with
  | [] => (inr completions, w)
  | then_callback :: rest =>
      match gather_then then_callback completions w with
      | (inl e, w) => (inl e, w)
      | (inr new_completions, w) =>
          for_then_callbacks_as_described rest
            (zip_with replace_unless_none new_completions completions) w
      end
  end.

Definition _post_run_as_described h (self : CompletionPipeline)
    (completions : list Completion) (w : World)
  : (Exn + list Completion) * World :=
  match for_map_callbacks (map_list h (p_map_callbacks self)) completions w with
  | (inl e, w) => (inl e, w)
  | (inr completions, w) =>
      for_then_callbacks_as_described (then_list h (p_then_callbacks self))
        completions w
  end.

End Vocabulary.

(** ** The rest of the interface

    The methods of [Completion] and the builder methods of
    [CompletionPipeline] that the engine does not use. *)

(** What these methods call outside the module. *)
Class Builders `{ExternalTypes} := {
  (** [GenerateParams] built from keyword arguments: the parameters,
      or nothing when the arguments are refused *)
  params_of_kwargs : gmap string Any -> option GenerateParams;
  (** [string.Template(text).safe_substitute] with keyword arguments *)
  safe_substitute : string -> gmap string string -> string;
  (** [generator.complete(text, params)]: the address of the pipeline
      it returns *)
  complete :
    Generator -> string -> option GenerateParams -> gmap loc Obj ->
    loc * gmap loc Obj;
}.

Section Interface.
Context `{External} `{!Builders}.

Implicit Types (h : gmap loc Obj) (l self : loc).

(** [ValueError("Cannot restart a completion without an associated
    generator")] *)
Inductive RestartError := CannotRestart.

(** [Completion.restart(generator, include_all)] *)
Definition restart h (c : Completion) (generator : option Generator)
    (include_all : bool) : (RestartError + loc) * gmap loc Obj :=
  let text := if include_all then Completion_all c else c_generated c in
  let generator :=
    match generator with Some g => Some g | None => c_generator c end in
  match generator with
  | None => (inl CannotRestart, h)
  | Some g => let '(l, h) := complete g text (c_params c) h in (inr l, h)
  end.

(** [Completion.fork(text, include_all)]:
    [self.restart(include_all=include_all).add(text)] *)
Definition Completion_fork h (c : Completion) (text : string)
    (include_all : bool) : (RestartError + loc) * gmap loc Obj :=
  match restart h c None include_all with
  | (inl e, h) => (inl e, h)
  | (inr l, h) => (inr l, add h l text)
  end.

(** [Completion.continue_(text)] *)
Definition continue_ h (c : Completion) (text : string)
  : (RestartError + loc) * gmap loc Obj :=
  Completion_fork h c text true.

(** [CompletionPipeline.__len__] *)
Definition CompletionPipeline_len (p : CompletionPipeline) : nat :=
  String.length (p_text p).

Definition set_text (text : string) (p : CompletionPipeline)
  : CompletionPipeline :=
  {| p_generator := p_generator p; p_text := text;
     p_params := p_params p; p_metadata := p_metadata p;
     p_until_callbacks := p_until_callbacks p;
     p_until_types := p_until_types p;
     p_then_callbacks := p_then_callbacks p;
     p_map_callbacks := p_map_callbacks p;
     p_watch_callbacks := p_watch_callbacks p |}.

Definition set_params (params : option GenerateParams) (p : CompletionPipeline)
  : CompletionPipeline :=
  {| p_generator := p_generator p; p_text := p_text p;
     p_params := params; p_metadata := p_metadata p;
     p_until_callbacks := p_until_callbacks p;
     p_until_types := p_until_types p;
     p_then_callbacks := p_then_callbacks p;
     p_map_callbacks := p_map_callbacks p;
     p_watch_callbacks := p_watch_callbacks p |}.

Definition set_metadata (metadata : gmap string Any) (p : CompletionPipeline)
  : CompletionPipeline :=
  {| p_generator := p_generator p; p_text := p_text p;
     p_params := p_params p; p_metadata := metadata;
     p_until_callbacks := p_until_callbacks p;
     p_until_types := p_until_types p;
     p_then_callbacks := p_then_callbacks p;
     p_map_callbacks := p_map_callbacks p;
     p_watch_callbacks := p_watch_callbacks p |}.

(** [with_(params, **kwargs)]: the first overlay is stored in the
    pipeline itself, which is returned; once the pipeline has
    parameters, a clone with the merged parameters is returned and the
    pipeline is left alone. *)
Definition with_ h self (params : option GenerateParams)
    (kwargs : gmap string Any) : (Exn + loc) * gmap loc Obj :=
  let params :=
    match params with
    | Some ps => Some ps
    | None => params_of_kwargs kwargs
    end in
  match params with
  | None => (inl ValidationError, h)
  | Some params =>
      match pipeline h self with
      | None => (inr self, h)
      | Some p =>
          match p_params p with
          | Some base =>
              match clone h self false with
              | (Some new, h) =>
                  match pipeline h new with
                  | Some q =>
                      (inr new,
                       <[new := ObjPipeline
                                  (set_params (Some (merge_with base (Some params))) q)]> h)
                  | None => (inr new, h)
                  end
              | (None, h) => (inr self, h)
              end
          | None =>
              (inr self, <[self := ObjPipeline (set_params (Some params) p)]> h)
          end
      end
  end.

(** [CompletionPipeline.fork(text)]: [self.clone().add(text)] *)
Definition fork h self (text : string) : option loc * gmap loc Obj :=
  match clone h self false with
  | (Some new, h) => (Some new, add h new text)
  | (None, h) => (None, h)
  end.

(** [CompletionPipeline.meta] with keyword arguments:
    [self.metadata.update(kwargs)] *)
Definition meta h self (kwargs : gmap string Any) : gmap loc Obj :=
  match pipeline h self with
  | None => h
  | Some p =>
      <[self := ObjPipeline (set_metadata (kwargs ∪ p_metadata p) p)]> h
  end.

(** [apply] with keyword arguments: a clone whose text is the template
    substitution of the pipeline's text. *)
Definition apply_ h self (kwargs : gmap string string)
  : option loc * gmap loc Obj :=
  match clone h self false with
  | (Some new, h) =>
      match pipeline h self, pipeline h new with
      | Some p, Some q =>
          (Some new,
           <[new := ObjPipeline
                      (set_text (safe_substitute (p_text p) kwargs) q)]> h)
      | _, _ => (Some new, h)
      end
  | (None, h) => (None, h)
  end.

End Interface.

(** ** Vocabulary of the further properties *)

Section RoundsVocabulary.
Context `{External}.
Implicit Types (h : gmap loc Obj) (self : CompletionPipeline) (w : World).

(** The processor of [_process] that has taken [n] chunks and waits for
    the next one. *)
Definition waiting h self (n : nat) : Processor :=
  match until_list h (p_until_callbacks self) with
  | [] => AtFirstYield
  | cbs => AtLoopYield (lowest_max_rounds cbs) (Z.of_nat n + 1)
  end.

(** Every chunk of the events was sent to a processor that was waiting
    for it: the chunk that comes after [n] others of the same state is
    handled by the processor that has taken [n] chunks. *)
Definition sends_in_turn h self (tr : list Event) : Prop :=
  ∀ tr1 i chunk r a tr2, tr = tr1 ++ EvSend i chunk r a :: tr2 →
    ∃ w, r = (_process_send h self (waiting h self (length (sent i tr1))) chunk w).1.

Definition is_send (ev : Event) : Prop :=
  match ev with EvSend _ _ _ _ => True | _ => False end.

End RoundsVocabulary.

Section ExhaustionVocabulary.
Context `{External}.
Implicit Types (h : gmap loc Obj) (self : CompletionPipeline) (w : World).

(** The events end with the send on which a processor raised the
    exhaustion error [e]: the error carries the lowest [max_rounds] and
    the chunk, and the chunk was the last one the budget allowed. *)
Definition exhausted_at h self (e : Exn) (tr : list Event) : Prop :=
  ∃ tr0 i chunk,
    tr = tr0 ++ [EvSend i chunk (Raise e) None] ∧
    e = CompletionExhaustedMaxRoundsError
          (lowest_max_rounds (until_list h (p_until_callbacks self))) chunk ∧
    Z.of_nat (length (sent i tr))
      = lowest_max_rounds (until_list h (p_until_callbacks self)).

(** The events end with the send on which a validator raised [e]. *)
Definition validator_raised (e : Exn) (tr : list Event) : Prop :=
  ∃ tr0 i chunk u,
    tr = tr0 ++ [EvSend i chunk (Raise e) None] ∧ e = CallbackError u.

End ExhaustionVocabulary.

Section ShapeVocabulary.
Context `{External}.
Implicit Types (h : gmap loc Obj) (self : CompletionPipeline) (w : World).

(** The deliveries to the Watch callbacks, one list of records for each
    call of [_watch_callback]. *)
Definition deliveries (tr : list Event) : list (list (nat * Completion)) :=
  omap (λ ev, match ev with EvWatch d => Some d | _ => None end) tr.

(** What the first of the calls that raised has raised. *)
Fixpoint first_raised (calls : list Event) : option UserError :=
  match calls with
  | [] => None
  | EvWatchCall _ _ (Some e) :: _ => Some e
  | _ :: rest => first_raised rest
  end.

(** The events of one whole round: a backend call that was answered,
    the sends of its answers, one call of [_watch_callback] with the
    records that were assigned by these sends, and in it one call of
    each Watch callback of [ids], in order, with these records;
    [raised] is what the first of them that raised has raised. *)
Definition whole_round (ids : list nat) (texts : list string)
    (params : list GenerateParams) (raised : option UserError)
    (round : list Event) : Prop :=
  ∃ inbounds sends d calls,
    round = EvGenerate texts params (inr inbounds) :: sends ++ EvWatch d :: calls ∧
    Forall is_send sends ∧
    (∀ x, x ∈ d ↔ x ∈ assigned sends) ∧
    Forall is_watch_call calls ∧
    watch_calls calls = map (λ id, (id, d.*2)) ids ∧
    first_raised calls = raised.

(** Events made of whole rounds in which no Watch callback raised. *)
Inductive rounds (ids : list nat) : list Event → Prop :=
| rounds_nil : rounds ids []
| rounds_round tr texts params round :
    rounds ids tr → whole_round ids texts params None round →
    rounds ids (tr ++ round).

(** Whole rounds followed by a round that an exception cut short, after
    the backend call or after one of the sends. *)
Definition cut_short (ids : list nat) (tr : list Event) : Prop :=
  ∃ tr0 texts params answer sends,
    rounds ids tr0 ∧ Forall is_send sends ∧
    tr = tr0 ++ EvGenerate texts params answer :: sends.

(** Whole rounds followed by a round in which a Watch callback raised
    [e]: the exception leaves the run once every Watch callback has
    been called. *)
Definition watch_raised (ids : list nat) (e : Exn) (tr : list Event) : Prop :=
  ∃ tr0 texts params round u,
    rounds ids tr0 ∧ whole_round ids texts params (Some u) round ∧
    e = CallbackError u ∧ tr = tr0 ++ round.

(** The events end with the backend call that raised [e], and the
    world is as that call left it. *)
Definition backend_failed self (e : Exn) (tr : list Event) w' : Prop :=
  ∃ tr0 texts params be w0,
    tr = tr0 ++ [EvGenerate texts params (inl be)] ∧
    generate_texts (p_generator self) texts params w0 = (inl be, w') ∧
    e = GeneratorError be.

(** [e] is what a Map or Then callback raised in [_post_run], which
    left the world [w']. *)
Definition post_run_raised h self (e : Exn) w' : Prop :=
  ∃ completions w0 u,
    _post_run h self completions w0 = (inl e, w') ∧ e = CallbackError u.

(** The identities of the Watch callbacks of the pipeline, in order. *)
Definition watch_ids h self : list nat :=
  map watch_id (watch_list h (p_watch_callbacks self)).

(** How an execution whose loop was entered can raise [e]: in a round
    that is cut short, by the backend, by a processor that is exhausted
    (without flags only) or by a validator; at the end of a round, by a
    Watch callback; after the rounds, by a Map or Then callback. *)
Definition raised_in_rounds h self (skip_failed include_failed : bool)
    (e : Exn) (tr : list Event) w' : Prop :=
  (cut_short (watch_ids h self) tr ∧
   (backend_failed self e tr w' ∨
    (skip_failed = false ∧ include_failed = false ∧ exhausted_at h self e tr) ∨
    validator_raised e tr)) ∨
  watch_raised (watch_ids h self) e tr ∨
  (rounds (watch_ids h self) tr ∧ post_run_raised h self e w').

End ShapeVocabulary.

Section CallsVocabulary.
Context `{External}.

(** The state at position [i] has no record yet. *)
Definition no_record (tr : list Event) (i : nat) : bool :=
  match records_at i (assigned tr) with [] => true | _ :: _ => false end.

(** Of [items], one per state, those of the states that have no record
    yet, in order. *)
Definition unfinished {A} (tr : list Event) (items : list A) : list A :=
  omap (λ i, if no_record tr i then items !! i else None)
    (seq 0 (length items)).

End CallsVocabulary.

Section BuilderVocabulary.
Context `{External}.
Implicit Types (h : gmap loc Obj) (l self : loc).

(** The Watch list that [watch] leaves, given the list it found. *)
Fixpoint watch_added (cur callbacks : list WatchCompletionCallback)
    (allow_duplicates : bool) : list WatchCompletionCallback :=
  match callbacks with
  | [] => cur
  | cb :: rest =>
      watch_added
        (if allow_duplicates || negb (watch_mem cb cur) then cur ++ [cb] else cur)
        rest allow_duplicates
  end.

(** The lists of [q] in [h'] are what [clone] makes of the lists of [p]
    in [h]: new list objects with the same callbacks for the until,
    type, then and map lists; for the watch list, the same callbacks in
    a new list object when there is none, and the very list object of
    [p] otherwise. *)
Definition cloned_lists h h' (p q : CompletionPipeline) : Prop :=
  h !! p_until_callbacks q = None ∧ h !! p_until_types q = None ∧
  h !! p_then_callbacks q = None ∧ h !! p_map_callbacks q = None ∧
  until_list h' (p_until_callbacks q) = until_list h (p_until_callbacks p) ∧
  type_list h' (p_until_types q) = type_list h (p_until_types p) ∧
  then_list h' (p_then_callbacks q) = then_list h (p_then_callbacks p) ∧
  map_list h' (p_map_callbacks q) = map_list h (p_map_callbacks p) ∧
  watch_list h' (p_watch_callbacks q) = watch_list h (p_watch_callbacks p) ∧
  match watch_list h (p_watch_callbacks p) with
  | [] => h !! p_watch_callbacks q = None
  | _ :: _ => p_watch_callbacks q = p_watch_callbacks p
  end.

End BuilderVocabulary.

(** ** A concrete world

    A backend that numbers its calls and answers each request with a
    function of the call number and the request text; parameters are
    numbers. *)

Module Demo.

#[export] Instance demo_types : ExternalTypes := {|
  World := nat;
  GenerateParams := nat;
  Generator := nat -> string -> string;
  Model := string;
  Usage := nat;
  Any := nat;
  BackendError := unit;
  UserError := string |}.

#[export] Instance demo_external : External := {|
  default_params := 0;
  merge_with base override := default base override;
  generate_texts generator texts params calls :=
    (inr (map (λ t, {| g_text := generator calls t; g_stop_reason := stop;
                       g_usage := None; g_extra := ∅ |}) texts),
     S calls);
  parse_many_raises text types :=
    existsb (λ ty, negb (String.prefix ty text)) types |}.

Local Open Scope string_scope.

(** The backend that answers with the request text. *)
Definition echo : Generator := λ _ t, t.

Definition always_retry : UntilCompletionCallback :=
  UserUntil (λ _ w, (inr true, w)).
Definition always_accept : UntilCompletionCallback :=
  UserUntil (λ _ w, (inr false, w)).
(** Asks for a retry exactly on the text [bad]. *)
Definition retry_on_bad : UntilCompletionCallback :=
  UserUntil (λ t w, (inr (String.eqb t "bad"), w)).

(** The attributes of the pipeline object that
    [CompletionPipeline(echo, text)] makes in the empty heap: its lists
    are the first five objects. *)
Definition first_pipeline (text : string) : CompletionPipeline :=
  {| p_generator := echo; p_text := text; p_params := None;
     p_metadata := ∅; p_until_callbacks := 0; p_until_types := 1;
     p_then_callbacks := 2; p_map_callbacks := 3; p_watch_callbacks := 4 |}.

(** Runs [f] on the pipeline object at [l]. *)
Definition on {A} (h : gmap loc Obj) (l : loc)
    (f : CompletionPipeline → option A) : option A :=
  pipeline h l ≫= f.

(** [p = CompletionPipeline(echo, "Q"); p.until(always_retry,
    max_rounds=m); p.until(always_accept, max_rounds=m)] *)
Definition retry_then_accept (m : Z) : loc * gmap loc Obj :=
  let '(p, h) := CompletionPipeline_init ∅ echo "Q" None None in
  let h := until h p always_retry false m in
  (p, until h p always_accept false m).

Definition blank (c : Completion) : Completion :=
  {| c_text := ""; c_generated := ""; c_metadata := c_metadata c;
     c_stop_reason := c_stop_reason c; c_usage := c_usage c;
     c_extra := c_extra c; c_generator := c_generator c;
     c_params := c_params c; c_failed := c_failed c |}.

Definition with_generated (g : string) (c : Completion) : Completion :=
  {| c_text := c_text c; c_generated := g; c_metadata := c_metadata c;
     c_stop_reason := c_stop_reason c; c_usage := c_usage c;
     c_extra := c_extra c; c_generator := c_generator c;
     c_params := c_params c; c_failed := c_failed c |}.



(** [Completion("Hello ", "World", echo)] *)
Definition hello_world : Completion :=
  {| c_text := "Hello "; c_generated := "World"; c_metadata := ∅;
     c_stop_reason := unknown; c_usage := None; c_extra := ∅;
     c_generator := Some echo; c_params := None; c_failed := false |}.

(** A Then callback that returns a new record with both texts empty. *)
Definition then_blank : ThenCompletionCallback :=
  λ c w, (inr (Some (blank c)), w).
(** A Then callback that returns a copy with [!] appended to the
    generated text. *)
Definition then_mark : ThenCompletionCallback :=
  λ c w, (inr (Some (with_generated (c_generated c +:+ "!") c)), w).

(** [p = CompletionPipeline(echo, "Hello "); p.then(then_blank);
    p.then(then_mark)] *)
Definition blank_then_mark : loc * gmap loc Obj :=
  let '(p, h) := CompletionPipeline_init ∅ echo "Hello " None None in
  let h := then_ h p then_blank in
  (p, then_ h p then_mark).

Definition watcher (id : nat) : WatchCompletionCallback :=
  {| watch_id := id; watch_call := λ cs w, (None, w + length cs) |}.

(** A Watch callback that raises. *)
Definition watch_raises (id : nat) : WatchCompletionCallback :=
  {| watch_id := id; watch_call := λ cs w, (Some "watch failed", w) |}.

(** A validator that raises on the text [bad]. *)
Definition raise_on_bad : UntilCompletionCallback :=
  UserUntil (λ t w, (if String.eqb t "bad" then inl "bad text" else inr false, w)).

(** A Then callback that raises. *)
Definition then_raises : ThenCompletionCallback :=
  λ c w, (inl "then failed", w).

(** [p = CompletionPipeline(echo, "Q"); p.watch(watcher 1);
    c = p.clone(); c.watch(watcher 2)]: the addresses of [p] and [c]
    and the heaps before and after the last call. *)
Definition watch_on_clone
  : loc * option loc * gmap loc Obj * gmap loc Obj :=
  let '(p, h) := CompletionPipeline_init ∅ echo "Q" None None in
  let h := watch h p [watcher 1] false in
  let '(c, h1) := clone h p false in
  (p, c, h1, match c with Some c => watch h1 c [watcher 2] false | None => h1 end).

(** [p = CompletionPipeline(echo, ""); p.until(retry_on_bad,
    max_rounds=1)] *)
Definition one_chance : loc * gmap loc Obj :=
  let '(p, h) := CompletionPipeline_init ∅ echo "" None None in
  (p, until h p retry_on_bad false 1).



End Demo.

(** ** The concrete world, continued *)

Module DemoBuilders.
Import Demo.

(** Parameters are numbers: keyword arguments give their number, and
    more than three are refused; a template is replaced by the value
    given for its whole text; [complete] makes a new pipeline, as
    [Generator.complete] does. *)
#[export] Instance demo_builders : Builders := {|
  params_of_kwargs kwargs :=
    if decide (size kwargs ≤ 3) then Some (size kwargs) else None;
  safe_substitute text kwargs := default text (kwargs !! text);
  complete generator text params h :=
    CompletionPipeline_init h generator text params None |}.

Local Open Scope string_scope.

(** [p = CompletionPipeline(echo, "Q"); p.watch(watcher 1)] *)
Definition watched : loc * gmap loc Obj :=
  let '(p, h) := CompletionPipeline_init ∅ echo "Q" None None in
  (p, watch h p [watcher 1] false).

(** [p = CompletionPipeline(echo, "Q", params=7); p.until(retry_on_bad,
    max_rounds=2)] *)
Definition with_params : loc * gmap loc Obj :=
  let '(p, h) := CompletionPipeline_init ∅ echo "Q" (Some 7) None in
  (p, until h p retry_on_bad false 2).

(** The attributes of the pipeline object of [with_params]. *)
Definition params_pipeline : CompletionPipeline :=
  {| p_generator := echo; p_text := "Q"; p_params := Some 7;
     p_metadata := ∅; p_until_callbacks := 0; p_until_types := 1;
     p_then_callbacks := 2; p_map_callbacks := 3; p_watch_callbacks := 4 |}.

(** [p = CompletionPipeline(echo, ""); p.until(retry_on_bad,
    max_rounds=2)] *)
Definition two_chances : loc * gmap loc Obj :=
  let '(p, h) := CompletionPipeline_init ∅ echo "" None None in
  (p, until h p retry_on_bad false 2).

(** [p = CompletionPipeline(echo, "Q"); p.until(always_retry,
    max_rounds=2)] *)
Definition never_satisfied : loc * gmap loc Obj :=
  let '(p, h) := CompletionPipeline_init ∅ echo "Q" None None in
  (p, until h p always_retry false 2).

(** [p = CompletionPipeline(echo, ""); p.until(retry_on_bad,
    max_rounds=2); p.watch(watcher 1)] *)
Definition watched_two_chances : loc * gmap loc Obj :=
  let '(p, h) := two_chances in (p, watch h p [watcher 1] false).

(** [p = CompletionPipeline(echo, ""); p.until(retry_on_bad,
    max_rounds=1); p.watch(watcher 1)] *)
Definition watched_one_chance : loc * gmap loc Obj :=
  let '(p, h) := one_chance in (p, watch h p [watcher 1] false).

(** [p = CompletionPipeline(echo, "Q"); p.watch(watch_raises 1,
    watcher 2)] *)
Definition watch_fails : loc * gmap loc Obj :=
  let '(p, h) := CompletionPipeline_init ∅ echo "Q" None None in
  (p, watch h p [watch_raises 1; watcher 2] false).

(** [p = CompletionPipeline(echo, ""); p.until(raise_on_bad)] *)
Definition validator_fails : loc * gmap loc Obj :=
  let '(p, h) := CompletionPipeline_init ∅ echo "" None None in
  (p, until h p raise_on_bad false 3).

(** [p = CompletionPipeline(echo, "Q"); p.then(then_raises)] *)
Definition then_fails : loc * gmap loc Obj :=
  let '(p, h) := CompletionPipeline_init ∅ echo "Q" None None in
  (p, then_ h p then_raises).

(** [p = CompletionPipeline(echo, "Q"); p.until_parsed_as(A);
    c = p.clone(); c.until_parsed_as(B)]: the addresses of [p] and [c]
    and the heap after the last call. *)
Definition parsed_on_clone : loc * option loc * gmap loc Obj :=
  let '(p, h) := CompletionPipeline_init ∅ echo "Q" None None in
  let h := until_parsed_as h p ["A"] false 5 in
  let '(c, h) := clone h p false in
  (p, c, match c with
         | Some c => until_parsed_as h c ["B"] false 5
         | None => h
         end).

End DemoBuilders.

(** ** Properties of the registry *)

Section RegistryFacts.
Context `{External}.

Implicit Types (h : gmap loc Obj) (l self : loc).

Lemma alloc_fresh h o : h !! (alloc h o).1 = None.
Proof. apply not_elem_of_dom, is_fresh. Qed.

Lemma alloc_lookup h o : (alloc h o).2 !! (alloc h o).1 = Some o.
Proof. apply lookup_insert_eq. Qed.

Lemma alloc_lookup_old h o l x :
  h !! l = Some x → (alloc h o).2 !! l = Some x.
Proof.
  intros Hl. unfold alloc; simpl. rewrite lookup_insert_ne; [done|].
  intros <-. pose proof (alloc_fresh h o) as Hf. simpl in Hf. congruence.
Qed.

Lemma alloc_ne_old h o l x : h !! l = Some x → (alloc h o).1 ≠ l.
Proof. intros Hl Heq. pose proof (alloc_fresh h o). congruence. Qed.

Lemma pipeline_insert_ne h l self o :
  l ≠ self → pipeline (<[l:=o]> h) self = pipeline h self.
Proof. intros. unfold pipeline. by rewrite lookup_insert_ne. Qed.

Lemma until_list_insert_eq h l x : until_list (<[l:=ObjUntilList x]> h) l = x.
Proof. unfold until_list. by rewrite lookup_insert_eq. Qed.

Lemma until_list_insert_ne h l l' o :
  l ≠ l' → until_list (<[l:=o]> h) l' = until_list h l'.
Proof. intros. unfold until_list. by rewrite lookup_insert_ne. Qed.

Lemma type_list_insert_eq h l x : type_list (<[l:=ObjTypeList x]> h) l = x.
Proof. unfold type_list. by rewrite lookup_insert_eq. Qed.

Lemma type_list_insert_ne h l l' o :
  l ≠ l' → type_list (<[l:=o]> h) l' = type_list h l'.
Proof. intros. unfold type_list. by rewrite lookup_insert_ne. Qed.

Lemma find_parse_method_none self (cbs : list UntilEntry) :
  Forall (λ e, is_parse_method e = true → is_parse_method_of self e = true) cbs →
  find (is_parse_method_of self) cbs = None →
  List.filter is_parse_method cbs = [].
Proof.
  induction 1 as [|e cbs He _ IH]; simpl; [done|].
  destruct (is_parse_method_of self e) eqn:Hs; [done|].
  intros Hn. destruct (is_parse_method e); [by specialize (He eq_refl)|].
  by apply IH.
Qed.

Lemma find_parse_method_some self (cbs : list UntilEntry) e :
  find (is_parse_method_of self) cbs = Some e → is_parse_method_of self e = true.
Proof.
  induction cbs as [|a cbs IH]; simpl; [done|].
  destruct (is_parse_method_of self a) eqn:Hs; [|done]. by intros [= <-].
Qed.

(** One [until_parsed_as] call on a pipeline in which every parse entry
    is the pipeline's own and there is at most one: the types are
    appended and the same holds afterwards. *)
Lemma until_parsed_as_step h self p types use_all_text max_rounds :
  separate h self p →
  Forall (λ e, is_parse_method e = true → is_parse_method_of self e = true)
    (until_list h (p_until_callbacks p)) →
  length (List.filter is_parse_method (until_list h (p_until_callbacks p))) ≤ 1 →
  let h' := until_parsed_as h self types use_all_text max_rounds in
  separate h' self p ∧
  Forall (λ e, is_parse_method e = true → is_parse_method_of self e = true)
    (until_list h' (p_until_callbacks p)) ∧
  length (List.filter is_parse_method (until_list h' (p_until_callbacks p))) ≤ 1 ∧
  type_list h' (p_until_types p) = type_list h (p_until_types p) ++ types ∧
  length (List.filter is_parse_method (until_list h' (p_until_callbacks p))) = 1.
Proof.
  intros (Hp & Htu & Hts & Hus) Hown Hcount h'.
  subst h'. unfold until_parsed_as. rewrite Hp.
  rewrite (until_list_insert_ne _ _ _ _ Htu).
  set (cbs := until_list h (p_until_callbacks p)) in *.
  destruct (find (is_parse_method_of self) cbs) as [e|] eqn:Hfind.
  - assert (Hin : 1 ≤ length (List.filter is_parse_method cbs)).
    { apply find_some in Hfind as [Hin He].
      assert (Hf : In e (List.filter is_parse_method cbs)).
      { apply filter_In. split; [done|].
        unfold is_parse_method_of in He. unfold is_parse_method.
        by destruct (e.1.1). }
      destruct (List.filter is_parse_method cbs); simpl in *; [done|lia]. }
    repeat split.
    + by rewrite pipeline_insert_ne.
    + done.
    + done.
    + done.
    + by rewrite until_list_insert_ne.
    + by rewrite until_list_insert_ne.
    + by rewrite type_list_insert_eq.
    + rewrite until_list_insert_ne by done. fold cbs. lia.
  - pose proof (find_parse_method_none self cbs Hown Hfind) as Hnone.
    repeat split.
    + rewrite !pipeline_insert_ne; done.
    + done.
    + done.
    + done.
    + rewrite until_list_insert_eq. apply Forall_app. split; [done|].
      constructor; [|constructor]. intros _. unfold is_parse_method_of; simpl.
      by apply bool_decide_eq_true.
    + rewrite until_list_insert_eq, List.filter_app, Hnone. simpl. lia.
    + rewrite type_list_insert_ne by done. by rewrite type_list_insert_eq.
    + rewrite until_list_insert_eq, List.filter_app, Hnone. done.
Qed.

Lemma until_parsed_as_calls_spec h self p calls :
  separate h self p →
  Forall (λ e, is_parse_method e = true → is_parse_method_of self e = true)
    (until_list h (p_until_callbacks p)) →
  length (List.filter is_parse_method (until_list h (p_until_callbacks p))) ≤ 1 →
  let h' := until_parsed_as_calls h self calls in
  separate h' self p ∧
  length (List.filter is_parse_method (until_list h' (p_until_callbacks p))) ≤ 1 ∧
  (calls ≠ [] →
   length (List.filter is_parse_method (until_list h' (p_until_callbacks p))) = 1) ∧
  type_list h' (p_until_types p) =
    type_list h (p_until_types p) ++ concat (map (λ c, c.1.1) calls).
Proof.
  revert h. induction calls as [|[[types use_all_text] max_rounds] calls IH];
    intros h Hsep Hown Hcount; simpl.
  - rewrite app_nil_r. done.
  - destruct (until_parsed_as_step h self p types use_all_text max_rounds
                Hsep Hown Hcount) as (Hsep' & Hown' & Hcount' & Htypes & Hone).
    destruct (IH _ Hsep' Hown' Hcount') as (Hs & Hc & Hne & Ht).
    split; [done|]. split; [done|]. split.
    + intros _. destruct calls as [|c calls]; [done|]. by apply Hne.
    + unfold until_parsed_as_calls in *. simpl in *.
      rewrite Ht, Htypes, <- app_assoc. done.
Qed.

(** What [__init__] leaves: a new pipeline object with four new empty
    lists; its watch list is new and empty, or the caller's non-empty
    one. *)
Lemma init_spec h generator text params watch_callbacks :
  let '(self, h') :=
    CompletionPipeline_init h generator text params watch_callbacks in
  ∃ p, pipeline h' self = Some p ∧
    p_generator p = generator ∧ p_text p = text ∧ p_params p = params ∧
    h !! self = None ∧
    h !! p_until_callbacks p = None ∧ h !! p_until_types p = None ∧
    h !! p_then_callbacks p = None ∧ h !! p_map_callbacks p = None ∧
    h' !! p_until_callbacks p = Some (ObjUntilList []) ∧
    h' !! p_until_types p = Some (ObjTypeList []) ∧
    h' !! p_then_callbacks p = Some (ObjThenList []) ∧
    h' !! p_map_callbacks p = Some (ObjMapList []) ∧
    NoDup [self; p_until_callbacks p; p_until_types p; p_then_callbacks p;
           p_map_callbacks p; p_watch_callbacks p] ∧
    (∀ l x, h !! l = Some x → h' !! l = Some x) ∧
    (∀ l, h' !! l = h !! l ∨ h !! l = None) ∧
    match watch_callbacks with
    | Some l =>
        match watch_list h l with
        | [] => h !! p_watch_callbacks p = None ∧
                h' !! p_watch_callbacks p = Some (ObjWatchList [])
        | _ :: _ => p_watch_callbacks p = l
        end
    | None => h !! p_watch_callbacks p = None ∧
              h' !! p_watch_callbacks p = Some (ObjWatchList [])
    end.
Proof.
  unfold CompletionPipeline_init.
  destruct (alloc h (ObjUntilList [])) as [lu h1] eqn:E1.
  destruct (alloc h1 (ObjTypeList [])) as [lt h2] eqn:E2.
  destruct (alloc h2 (ObjThenList [])) as [lth h3] eqn:E3.
  destruct (alloc h3 (ObjMapList [])) as [lm h4] eqn:E4.
  assert (F1 : h !! lu = None).
  { pose proof (alloc_fresh h (ObjUntilList [])) as F. by rewrite E1 in F. }
  assert (F2 : h1 !! lt = None).
  { pose proof (alloc_fresh h1 (ObjTypeList [])) as F. by rewrite E2 in F. }
  assert (F3 : h2 !! lth = None).
  { pose proof (alloc_fresh h2 (ObjThenList [])) as F. by rewrite E3 in F. }
  assert (F4 : h3 !! lm = None).
  { pose proof (alloc_fresh h3 (ObjMapList [])) as F. by rewrite E4 in F. }
  assert (G1 : h1 = <[lu := ObjUntilList []]> h) by (unfold alloc in E1; by simplify_eq).
  assert (G2 : h2 = <[lt := ObjTypeList []]> h1) by (unfold alloc in E2; by simplify_eq).
  assert (G3 : h3 = <[lth := ObjThenList []]> h2) by (unfold alloc in E3; by simplify_eq).
  assert (G4 : h4 = <[lm := ObjMapList []]> h3) by (unfold alloc in E4; by simplify_eq).
  clear E1 E2 E3 E4.
  pose proof F2 as L2. rewrite G1, lookup_insert in L2.
  case_decide as N12; [done|].
  pose proof F3 as L3. rewrite G2, G1, !lookup_insert in L3.
  case_decide as N23; [done|]. case_decide as N13; [done|].
  pose proof F4 as L4. rewrite G3, G2, G1, !lookup_insert in L4.
  case_decide as N34; [done|]. case_decide as N24; [done|].
  case_decide as N14; [done|].
  assert (K4 : ∀ l, h4 !! l =
     if decide (lm = l) then Some (ObjMapList []) else
     if decide (lth = l) then Some (ObjThenList []) else
     if decide (lt = l) then Some (ObjTypeList []) else
     if decide (lu = l) then Some (ObjUntilList []) else h !! l).
  { intros l. rewrite G4, G3, G2, G1, !lookup_insert. done. }
  assert (Hwl : ∀ l, watch_list h4 l = watch_list h l).
  { intros l. unfold watch_list. rewrite K4.
    repeat case_decide; subst; try done.
    - by rewrite L4.
    - by rewrite L3.
    - by rewrite L2.
    - by rewrite F1. }
  set (pr := match watch_callbacks with
             | Some l => match watch_list h4 l with
                         | [] => alloc h4 (ObjWatchList [])
                         | _ :: _ => (l, h4)
                         end
             | None => alloc h4 (ObjWatchList [])
             end).
  destruct pr as [lw h5] eqn:E5. subst pr.
  destruct (alloc h5 (ObjPipeline _)) as [self h6] eqn:E6.
  eexists. split; [|split; [|split; [|split]]].
  { unfold pipeline. unfold alloc in E6. simplify_eq. by rewrite lookup_insert_eq. }
  1-3: done.
  simpl.
  assert (F6 : h5 !! self = None).
  { pose proof (alloc_fresh h5
      (ObjPipeline {| p_generator := generator; p_text := text;
         p_params := params; p_metadata := ∅; p_until_callbacks := lu;
         p_until_types := lt; p_then_callbacks := lth;
         p_map_callbacks := lm; p_watch_callbacks := lw |})) as F.
    by rewrite E6 in F. }
  assert (G6 : h6 = <[self := ObjPipeline
      {| p_generator := generator; p_text := text;
         p_params := params; p_metadata := ∅; p_until_callbacks := lu;
         p_until_types := lt; p_then_callbacks := lth;
         p_map_callbacks := lm; p_watch_callbacks := lw |}]> h5)
    by (unfold alloc in E6; by simplify_eq).
  clear E6.
  assert (W0 :
    match watch_callbacks with
    | Some l =>
        match watch_list h l with
        | [] => h4 !! lw = None ∧ h5 = <[lw := ObjWatchList []]> h4
        | _ :: _ => lw = l ∧ h5 = h4
        end
    | None => h4 !! lw = None ∧ h5 = <[lw := ObjWatchList []]> h4
    end).
  { destruct watch_callbacks as [l|].
    - rewrite Hwl in E5. destruct (watch_list h l) as [|c cs] eqn:Ew.
      + pose proof (alloc_fresh h4 (ObjWatchList [])) as F.
        rewrite E5 in F. split; [done|]. unfold alloc in E5. by simplify_eq.
      + by simplify_eq.
    - pose proof (alloc_fresh h4 (ObjWatchList [])) as F.
      rewrite E5 in F. split; [done|]. unfold alloc in E5. by simplify_eq. }
  clear E5.
  assert (W : (h4 !! lw = None ∧ h5 = <[lw := ObjWatchList []]> h4) ∨
              (h5 = h4 ∧ ∃ c cs, watch_list h lw = c :: cs)).
  { destruct watch_callbacks as [l|]; [|by left].
    destruct (watch_list h l) as [|c cs] eqn:Ew; [by left|].
    right. destruct W0 as [-> ->]. eauto. }
  assert (NW : lw ≠ lu ∧ lw ≠ lt ∧ lw ≠ lth ∧ lw ≠ lm).
  { destruct W as [[Hn _]|[_ Hc]].
    - rewrite K4 in Hn. repeat case_decide; done.
    - destruct Hc as (c & cs & Hc). unfold watch_list in Hc.
      repeat split; intros ->.
      + by rewrite F1 in Hc.
      + by rewrite L2 in Hc.
      + by rewrite L3 in Hc.
      + by rewrite L4 in Hc. }
  destruct NW as (NW1 & NW2 & NW3 & NW4).
  assert (K5 : ∀ l, l ≠ lw → h5 !! l = h4 !! l).
  { intros l Hl. destruct W as [[_ ->]|[-> _]]; [|done].
    by rewrite lookup_insert_ne. }
  assert (S5 : ∀ l, is_Some (h4 !! l) → is_Some (h5 !! l)).
  { intros l Hl. destruct W as [[_ ->]|[-> _]]; [|done].
    rewrite lookup_insert. case_decide; [by eexists|done]. }
  assert (NS : self ≠ lu ∧ self ≠ lt ∧ self ≠ lth ∧ self ≠ lm ∧ self ≠ lw).
  { repeat split; intros ->.
    - rewrite K5, K4 in F6 by done. repeat case_decide; done.
    - rewrite K5, K4 in F6 by done. repeat case_decide; done.
    - rewrite K5, K4 in F6 by done. repeat case_decide; done.
    - rewrite K5, K4 in F6 by done. repeat case_decide; done.
    - destruct W as [[_ ->]|[-> (c & cs & Hc)]].
      + by rewrite lookup_insert_eq in F6.
      + unfold watch_list in Hc. rewrite K4 in F6.
        repeat case_decide; try done. by rewrite F6 in Hc. }
  destruct NS as (NS1 & NS2 & NS3 & NS4 & NS5).
  assert (L6 : h !! self = None).
  { rewrite K5, K4 in F6 by done. repeat case_decide; done. }
  assert (K6 : ∀ l, l ≠ self → l ≠ lw → h6 !! l = h4 !! l).
  { intros l ??. rewrite G6, lookup_insert_ne by done. by apply K5. }
  repeat split; try done.
  - rewrite K6, K4 by done. repeat case_decide; done.
  - rewrite K6, K4 by done. repeat case_decide; done.
  - rewrite K6, K4 by done. repeat case_decide; done.
  - rewrite K6, K4 by done. repeat case_decide; done.
  - apply NoDup_ListNoDup. repeat constructor; simpl; intuition congruence.
  - intros l x Hl. rewrite G6, lookup_insert_ne by congruence.
    destruct W as [[Hn ->]|[-> _]].
    + rewrite lookup_insert_ne.
      * rewrite K4. repeat case_decide; congruence.
      * intros <-. rewrite K4 in Hn. repeat case_decide; congruence.
    + rewrite K4. repeat case_decide; congruence.
  - intros l. destruct (h !! l) as [x|] eqn:Hl; [left|by right].
    rewrite G6, lookup_insert_ne by congruence.
    destruct W as [[Hn ->]|[-> _]].
    + rewrite lookup_insert_ne.
      * rewrite K4. repeat case_decide; congruence.
      * intros <-. rewrite K4 in Hn. repeat case_decide; congruence.
    + rewrite K4. repeat case_decide; congruence.
  - assert (K : ∀ l', h4 !! l' = None → h !! l' = None).
    { intros l' Hn. rewrite K4 in Hn. repeat case_decide; done. }
    assert (K' : h4 !! lw = None → h5 = <[lw := ObjWatchList []]> h4 →
                 h6 !! lw = Some (ObjWatchList [])).
    { intros _ E. by rewrite G6, lookup_insert_ne, E, lookup_insert_eq. }
    destruct watch_callbacks as [l|].
    + destruct (watch_list h l); destruct W0; auto.
    + destruct W0; auto.
Qed.

End RegistryFacts.

(** ** The claims about the registry *)

Section RegistryClaims.
Context `{External}.

(** On a newly made pipeline, after any sequence of [until_parsed_as]
    calls, with any types, flags and round limits, the list of Until
    validators holds at most one structured-parse entry (exactly one
    once a call was made), and [until_types], the list that this
    entry's validator parses against, holds all the requested types in
    the order they were given. *)
Lemma until_parsed_as_registers_once
    (h : gmap loc Obj) (generator : Generator) (text : string)
    (params : option GenerateParams) (watch_callbacks : option loc)
    (calls : list (list Model * bool * Z)) :
  let '(self, h0) :=
    CompletionPipeline_init h generator text params watch_callbacks in
  let h' := until_parsed_as_calls h0 self calls in
  ∃ p, pipeline h' self = Some p ∧
    length (List.filter is_parse_method
              (until_list h' (p_until_callbacks p))) ≤ 1 ∧
    (calls ≠ [] →
     length (List.filter is_parse_method
               (until_list h' (p_until_callbacks p))) = 1) ∧
    type_list h' (p_until_types p) = concat (map (λ c, c.1.1) calls) ∧
    ∀ chunk w,
      call_until h' (UntilParseMethod self) chunk w =
      (inr (parse_many_raises chunk (concat (map (λ c, c.1.1) calls))), w).
Proof.
  pose proof (init_spec h generator text params watch_callbacks) as Hinit.
  destruct (CompletionPipeline_init h generator text params watch_callbacks)
    as [self h0].
  destruct Hinit as (p & Hp & _ & _ & _ & _ & _ & _ & _ & _ & Hu & Ht & _ & _
                     & Hnd & _).
  apply NoDup_cons in Hnd as [Hself Hnd].
  apply NoDup_cons in Hnd as [Hlu _].
  assert (Hsep : separate h0 self p).
  { split; [done|]. repeat split.
    - intros E. apply Hlu. rewrite E. set_solver.
    - intros E. apply Hself. rewrite <- E. set_solver.
    - intros E. apply Hself. rewrite <- E. set_solver. }
  assert (Hul : until_list h0 (p_until_callbacks p) = []).
  { unfold until_list. by rewrite Hu. }
  assert (Htl : type_list h0 (p_until_types p) = []).
  { unfold type_list. by rewrite Ht. }
  destruct (until_parsed_as_calls_spec h0 self p calls Hsep) as (Hs & Hc & Hne & Hty).
  { rewrite Hul. constructor. }
  { rewrite Hul. simpl. lia. }
  rewrite Htl in Hty. simpl in Hty.
  exists p. destruct Hs as (Hp' & _). repeat split; try done.
  intros chunk w. simpl. rewrite Hp', Hty. done.
Qed.

End RegistryClaims.

(** ** Clones and registrations *)

(** Membership in an explicit list of addresses. *)
Ltac elems := rewrite ?elem_of_cons, ?elem_of_nil in *; intuition congruence.

Section CloneFacts.
Context `{External}.
Implicit Types (h : gmap loc Obj) (l self : loc).

(** Two addresses differ when one holds an object and the other does
    not. *)
Lemma lookup_ne h l l' x : h !! l = None → h !! l' = Some x → l ≠ l'.
Proof. intros Hn Hs ->. congruence. Qed.

Lemma alloc_spec h o l h' :
  alloc h o = (l, h') → h !! l = None ∧ h' = <[l:=o]> h.
Proof.
  intros Ha. pose proof (alloc_fresh h o) as Hf. rewrite Ha in Hf.
  split; [done|]. unfold alloc in Ha. by simplify_eq.
Qed.

Lemma well_formed_insert h self q l o :
  well_formed h self q →
  l ≠ self →
  well_formed (<[l:=o]> h) self q.
Proof.
  intros (Hp & Hu & Ht & Hth & Hm & Hw & Hnd) Hne.
  split; [by rewrite pipeline_insert_ne|].
  repeat split; try done; rewrite lookup_insert; case_decide; eauto.
Qed.

Lemma well_formed_ne h self q :
  well_formed h self q →
  p_until_callbacks q ≠ self ∧ p_until_types q ≠ self ∧
  p_then_callbacks q ≠ self ∧ p_map_callbacks q ≠ self ∧
  p_watch_callbacks q ≠ self.
Proof.
  intros (_ & _ & _ & _ & _ & _ & Hnd).
  apply NoDup_cons in Hnd as [Hself _].
  repeat split; intros E; apply Hself; rewrite <- E; elems.
Qed.

(** [watch] only writes the watch list of the pipeline. *)
Lemma watch_spec h self q callbacks allow_duplicates :
  well_formed h self q →
  well_formed (watch h self callbacks allow_duplicates) self q ∧
  ∀ l, l ≠ p_watch_callbacks q →
    watch h self callbacks allow_duplicates !! l = h !! l.
Proof.
  revert h. induction callbacks as [|cb rest IH]; intros h Hwf; simpl; [done|].
  pose proof Hwf as (Hp & _). rewrite Hp.
  pose proof (well_formed_ne _ _ _ Hwf) as (_ & _ & _ & _ & Hne).
  destruct (allow_duplicates ||
            negb (watch_mem cb (watch_list h (p_watch_callbacks q)))).
  - destruct (IH _ (well_formed_insert _ _ _ _
                     (ObjWatchList (watch_list h (p_watch_callbacks q) ++ [cb]))
                     Hwf Hne)) as [Hwf' Hfr].
    split; [done|]. intros l Hl. rewrite Hfr by done.
    by rewrite lookup_insert_ne.
  - by apply IH.
Qed.

(** A registration on a pipeline only writes that pipeline's lists. *)
Lemma register_spec h self q r :
  well_formed h self q →
  well_formed (register h self r) self q ∧
  (∀ l, l ∉ [p_until_callbacks q; p_until_types q; p_then_callbacks q;
             p_map_callbacks q; p_watch_callbacks q] →
     register h self r !! l = h !! l) ∧
  (is_watch r = false →
   register h self r !! p_watch_callbacks q = h !! p_watch_callbacks q).
Proof.
  intros Hwf. pose proof Hwf as (Hp & _ & _ & _ & _ & _ & Hnd).
  pose proof (well_formed_ne _ _ _ Hwf) as (Nu & Nt & Nth & Nm & Nw).
  apply NoDup_cons in Hnd as [_ Hnd].
  apply NoDup_cons in Hnd as [Hu Hnd].
  apply NoDup_cons in Hnd as [Ht Hnd].
  apply NoDup_cons in Hnd as [Hth Hnd].
  apply NoDup_cons in Hnd as [Hm _].
  assert (Huw : p_until_callbacks q ≠ p_watch_callbacks q) by elems.
  assert (Htw : p_until_types q ≠ p_watch_callbacks q) by elems.
  assert (Hthw : p_then_callbacks q ≠ p_watch_callbacks q) by elems.
  assert (Hmw : p_map_callbacks q ≠ p_watch_callbacks q) by elems.
  destruct r as [cb ua mr|types ua mr|cb|cb|cbs dup]; simpl.
  - unfold until. rewrite Hp. split; [by apply well_formed_insert|]. split.
    + intros l Hl. rewrite lookup_insert_ne; [done|]. elems.
    + intros _. by rewrite lookup_insert_ne.
  - unfold until_parsed_as. rewrite Hp. cbv zeta.
    destruct (find _ _).
    + split; [by apply well_formed_insert|]. split.
      * intros l Hl. rewrite lookup_insert_ne; [done|]. elems.
      * intros _. by rewrite lookup_insert_ne.
    + split; [apply well_formed_insert; [by apply well_formed_insert|done]|].
      split.
      * intros l Hl. rewrite !lookup_insert_ne; [done|elems..].
      * intros _. by rewrite !lookup_insert_ne.
  - unfold then_. rewrite Hp. split; [by apply well_formed_insert|]. split.
    + intros l Hl. rewrite lookup_insert_ne; [done|]. elems.
    + intros _. by rewrite lookup_insert_ne.
  - unfold map_. rewrite Hp. split; [by apply well_formed_insert|]. split.
    + intros l Hl. rewrite lookup_insert_ne; [done|]. elems.
    + intros _. by rewrite lookup_insert_ne.
  - destruct (watch_spec h self q cbs dup Hwf) as [Hwf' Hfr].
    split; [done|]. split; [|done].
    intros l Hl. apply Hfr. elems.
Qed.

(** What [clone()] leaves: the objects that were there are untouched;
    the clone is a new pipeline object whose until, type, then and map
    lists are new objects holding copies; its watch list is a new empty
    list when the source's is empty, and the source's own list object
    otherwise. *)
Lemma clone_spec h self p :
  well_formed h self p →
  ∃ new h' q,
    clone h self false = (Some new, h') ∧
    well_formed h' new q ∧
    (∀ l x, h !! l = Some x → h' !! l = Some x) ∧
    h !! new = None ∧
    h !! p_until_callbacks q = None ∧ h !! p_until_types q = None ∧
    h !! p_then_callbacks q = None ∧ h !! p_map_callbacks q = None ∧
    until_list h' (p_until_callbacks q) = until_list h (p_until_callbacks p) ∧
    type_list h' (p_until_types q) = type_list h (p_until_types p) ∧
    then_list h' (p_then_callbacks q) = then_list h (p_then_callbacks p) ∧
    map_list h' (p_map_callbacks q) = map_list h (p_map_callbacks p) ∧
    match watch_list h (p_watch_callbacks p) with
    | [] => h !! p_watch_callbacks q = None ∧
            watch_list h' (p_watch_callbacks q) = []
    | _ :: _ => p_watch_callbacks q = p_watch_callbacks p
    end.
Proof.
  intros (Hp & Hu & Ht & Hth & Hm & Hw & Hnd).
  unfold clone. rewrite Hp.
  pose proof (init_spec h (p_generator p) (p_text p) (p_params p)
                (Some (p_watch_callbacks p))) as Hinit.
  destruct (CompletionPipeline_init h (p_generator p) (p_text p) (p_params p)
              (Some (p_watch_callbacks p))) as [new h0].
  destruct Hinit as (q0 & Hq0 & _ & _ & _ & Fnew & _ & _ & _ & _ & _ & _ & _ & _
                     & Hnd0 & Hold & Hfr & Hwatch).
  rewrite Hq0.
  assert (Hul : until_list h0 (p_until_callbacks p)
                = until_list h (p_until_callbacks p)).
  { destruct Hu as [x Hx]. unfold until_list. by rewrite (Hold _ _ Hx), Hx. }
  assert (Htl : type_list h0 (p_until_types p) = type_list h (p_until_types p)).
  { destruct Ht as [x Hx]. unfold type_list. by rewrite (Hold _ _ Hx), Hx. }
  assert (Hthl : then_list h0 (p_then_callbacks p)
                 = then_list h (p_then_callbacks p)).
  { destruct Hth as [x Hx]. unfold then_list. by rewrite (Hold _ _ Hx), Hx. }
  assert (Hml : map_list h0 (p_map_callbacks p) = map_list h (p_map_callbacks p)).
  { destruct Hm as [x Hx]. unfold map_list. by rewrite (Hold _ _ Hx), Hx. }
  rewrite Hul.
  destruct (alloc h0 (ObjUntilList (until_list h (p_until_callbacks p))))
    as [lu h1] eqn:E1.
  apply alloc_spec in E1 as [F1 ->].
  assert (Htl1 : type_list (<[lu:=ObjUntilList (until_list h (p_until_callbacks p))]> h0)
                   (p_until_types p) = type_list h (p_until_types p)).
  { rewrite <- Htl. unfold type_list. destruct Ht as [x Hx].
    rewrite lookup_insert_ne; [done|]. eapply lookup_ne; [done|]. by apply Hold. }
  rewrite Htl1.
  set (h1 := <[lu:=ObjUntilList (until_list h (p_until_callbacks p))]> h0) in *.
  destruct (alloc h1 (ObjTypeList (type_list h (p_until_types p))))
    as [lt h2] eqn:E2.
  apply alloc_spec in E2 as [F2 ->].
  assert (Hthl2 : then_list (<[lt:=ObjTypeList (type_list h (p_until_types p))]> h1)
                    (p_then_callbacks p) = then_list h (p_then_callbacks p)).
  { rewrite <- Hthl. unfold then_list.
    destruct Hth as [x Hx]. pose proof (Hold _ _ Hx) as Hx0.
    assert (Hx1 : h1 !! p_then_callbacks p = Some x).
    { unfold h1. rewrite lookup_insert_ne; [done|]. by eapply lookup_ne. }
    rewrite lookup_insert_ne; [by rewrite Hx1, Hx0|]. by eapply lookup_ne. }
  rewrite Hthl2.
  set (h2 := <[lt:=ObjTypeList (type_list h (p_until_types p))]> h1) in *.
  destruct (alloc h2 (ObjThenList (then_list h (p_then_callbacks p))))
    as [lth h3] eqn:E3.
  apply alloc_spec in E3 as [F3 ->].
  set (h3 := <[lth:=ObjThenList (then_list h (p_then_callbacks p))]> h2) in *.
  assert (D3 : h0 !! lt = None ∧ h0 !! lth = None).
  { unfold h1 in F2. apply lookup_insert_None in F2 as [F2 _].
    unfold h2, h1 in F3. apply lookup_insert_None in F3 as [F3 _].
    apply lookup_insert_None in F3 as [F3 _]. done. }
  assert (Hsub3 : ∀ l x, h0 !! l = Some x → h3 !! l = Some x).
  { intros l x Hx. destruct D3 as [D3a D3b].
    unfold h3, h2, h1. rewrite !lookup_insert_ne; [done|..];
      by eapply lookup_ne. }
  assert (Hml3 : map_list h3 (p_map_callbacks p) = map_list h (p_map_callbacks p)).
  { rewrite <- Hml. unfold map_list. destruct Hm as [x Hx].
    by rewrite (Hsub3 _ _ (Hold _ _ Hx)), (Hold _ _ Hx). }
  rewrite Hml3.
  destruct (alloc h3 (ObjMapList (map_list h (p_map_callbacks p))))
    as [lm h4] eqn:E4.
  apply alloc_spec in E4 as [F4 ->].
  set (h4 := <[lm:=ObjMapList (map_list h (p_map_callbacks p))]> h3) in *.
  assert (K4 : ∀ l, h4 !! l =
     if decide (lm = l) then Some (ObjMapList (map_list h (p_map_callbacks p))) else
     if decide (lth = l) then Some (ObjThenList (then_list h (p_then_callbacks p))) else
     if decide (lt = l) then Some (ObjTypeList (type_list h (p_until_types p))) else
     if decide (lu = l) then Some (ObjUntilList (until_list h (p_until_callbacks p)))
     else h0 !! l).
  { intros l. unfold h4, h3, h2, h1. by rewrite !lookup_insert. }
  assert (D : lu ≠ lt ∧ lu ≠ lth ∧ lu ≠ lm ∧ lt ≠ lth ∧ lt ≠ lm ∧ lth ≠ lm ∧
              h0 !! lt = None ∧ h0 !! lth = None ∧ h0 !! lm = None).
  { unfold h1 in F2. apply lookup_insert_None in F2 as [F2 N12].
    unfold h2, h1 in F3. apply lookup_insert_None in F3 as [F3 N23].
    apply lookup_insert_None in F3 as [F3 N13].
    unfold h3, h2, h1 in F4. apply lookup_insert_None in F4 as [F4 N34].
    apply lookup_insert_None in F4 as [F4 N24].
    apply lookup_insert_None in F4 as [F4 N14]. done. }
  destruct D as (N12 & N13 & N14 & N23 & N24 & N34 & F2' & F3' & F4').
  assert (Hw0 : is_Some (h0 !! p_watch_callbacks q0)).
  { destruct (watch_list h (p_watch_callbacks p)) as [|c cs] eqn:Ew.
    - destruct Hwatch as [_ ->]. by eexists.
    - rewrite Hwatch. destruct Hw as [x Hx]. rewrite (Hold _ _ Hx). by eexists. }
  assert (Hnew0 : is_Some (h0 !! new)).
  { unfold pipeline in Hq0. destruct (h0 !! new); [by eexists|done]. }
  assert (NW : p_watch_callbacks q0 ≠ lu ∧ p_watch_callbacks q0 ≠ lt ∧
               p_watch_callbacks q0 ≠ lth ∧ p_watch_callbacks q0 ≠ lm ∧
               p_watch_callbacks q0 ≠ new).
  { destruct Hw0 as [x Hx]. repeat split; intros E; try (rewrite E in Hx; congruence).
    apply NoDup_cons in Hnd0 as [Hn _]. apply Hn. rewrite <- E.
    rewrite !elem_of_cons. auto 10. }
  destruct NW as (NW1 & NW2 & NW3 & NW4 & NW5).
  assert (NN : new ≠ lu ∧ new ≠ lt ∧ new ≠ lth ∧ new ≠ lm).
  { destruct Hnew0 as [x Hx]. repeat split; intros E; rewrite E in Hx; congruence. }
  destruct NN as (NN1 & NN2 & NN3 & NN4).
  eexists new, _, _. split; [done|].
  split; [|split; [|split; [done|]]].
  - (* the clone is well formed *)
    split; [unfold pipeline; by rewrite lookup_insert_eq|]. simpl.
    repeat split.
    + rewrite lookup_insert_ne, K4 by done. repeat case_decide; by eauto.
    + rewrite lookup_insert_ne, K4 by done. repeat case_decide; by eauto.
    + rewrite lookup_insert_ne, K4 by done. repeat case_decide; by eauto.
    + rewrite lookup_insert_ne, K4 by done. repeat case_decide; by eauto.
    + rewrite lookup_insert_ne, K4 by done. repeat case_decide; by eauto.
    + apply NoDup_ListNoDup. repeat constructor; simpl; intuition congruence.
  - (* what was there is untouched *)
    intros l x Hx. pose proof (Hold _ _ Hx) as Hx0.
    rewrite lookup_insert_ne by (intros <-; congruence).
    rewrite K4. repeat case_decide; congruence.
  - simpl.
    assert (Hn : ∀ l, h0 !! l = None → h !! l = None).
    { intros l Hl. destruct (h !! l) as [x|] eqn:Hx; [|done].
      by rewrite (Hold _ _ Hx) in Hl. }
    split; [by apply Hn|]. split; [by apply Hn|].
    split; [by apply Hn|]. split; [by apply Hn|].
    split; [unfold until_list; rewrite lookup_insert_ne, K4 by done;
            repeat case_decide; first [congruence|done]|].
    split; [unfold type_list; rewrite lookup_insert_ne, K4 by done;
            repeat case_decide; first [congruence|done]|].
    split; [unfold then_list; rewrite lookup_insert_ne, K4 by done;
            repeat case_decide; first [congruence|done]|].
    split; [unfold map_list; rewrite lookup_insert_ne, K4 by done;
            repeat case_decide; first [congruence|done]|].
    destruct (watch_list h (p_watch_callbacks p)) as [|c cs] eqn:Ew; [|done].
    destruct Hwatch as [Hfw Hw0']. split; [done|].
    unfold watch_list. rewrite lookup_insert_ne, K4 by done.
    repeat case_decide; try congruence. by rewrite Hw0'.
Qed.

(** Registrations on a clone leave the source's until, type, then and
    map lists as they were, and its watch list too when that list was
    empty at the time of the clone or when no [watch] call is among the
    registrations. *)
Lemma registrations_frame new q rs : ∀ hc,
  well_formed hc new q →
  let hc' := foldl (λ h r, register h new r) hc rs in
  well_formed hc' new q ∧
  (∀ l, l ∉ [p_until_callbacks q; p_until_types q; p_then_callbacks q;
             p_map_callbacks q; p_watch_callbacks q] → hc' !! l = hc !! l) ∧
  (forallb (λ r, negb (is_watch r)) rs = true →
   hc' !! p_watch_callbacks q = hc !! p_watch_callbacks q).
Proof.
  induction rs as [|r rs IH]; intros hc Hwf; simpl; [done|].
  destruct (register_spec hc new q r Hwf) as (Hwf' & Hfr & Hfw).
  destruct (IH _ Hwf') as (Hwf'' & Hfr' & Hfw').
  split; [done|]. split.
  - intros l Hl. rewrite Hfr' by done. by apply Hfr.
  - intros Hall. apply andb_true_iff in Hall as [Hr Hrs].
    rewrite Hfw' by done. apply Hfw. by destruct (is_watch r).
Qed.

Lemma clone_registrations_frame h self p new h' rs :
  well_formed h self p →
  clone h self false = (Some new, h') →
  let h'' := foldl (λ h r, register h new r) h' rs in
  pipeline h'' self = Some p ∧
  until_list h'' (p_until_callbacks p) = until_list h (p_until_callbacks p) ∧
  type_list h'' (p_until_types p) = type_list h (p_until_types p) ∧
  then_list h'' (p_then_callbacks p) = then_list h (p_then_callbacks p) ∧
  map_list h'' (p_map_callbacks p) = map_list h (p_map_callbacks p) ∧
  (watch_list h (p_watch_callbacks p) = [] ∨
   forallb (λ r, negb (is_watch r)) rs = true →
   watch_list h'' (p_watch_callbacks p) = watch_list h (p_watch_callbacks p)).
Proof.
  intros Hwf Hclone.
  destruct (clone_spec h self p Hwf)
    as (new' & h1 & q & Hc & Hwfq & Hold & Fnew & Fu & Ft & Fth & Fm
        & _ & _ & _ & _ & Hwatch).
  rewrite Hclone in Hc. assert (new' = new ∧ h1 = h') as [-> ->] by (by simplify_eq).
  clear Hc. intros h''.
  destruct (registrations_frame new q rs h' Hwfq) as (_ & Hfr & Hfw).
  fold h'' in Hfr, Hfw.
  pose proof Hwf as (Hp & Hu & Ht & Hth & Hm & Hw & Hnd).
  assert (Hkeep : ∀ l x, h !! l = Some x → l ≠ p_watch_callbacks p →
                    h'' !! l = Some x).
  { intros l x Hx Hl. rewrite Hfr; [by apply Hold|].
    rewrite !elem_of_cons, elem_of_nil.
    intros [->|[->|[->|[->|[->|[]]]]]]; try congruence.
    destruct (watch_list h (p_watch_callbacks p)); [|done].
    destruct Hwatch as [Hfw' _]. congruence. }
  apply NoDup_cons in Hnd as [Hs Hnd].
  apply NoDup_cons in Hnd as [Hn1 Hnd].
  apply NoDup_cons in Hnd as [Hn2 Hnd].
  apply NoDup_cons in Hnd as [Hn3 Hnd].
  apply NoDup_cons in Hnd as [Hn4 _].
  split; [|split; [|split; [|split; [|split]]]].
  - unfold pipeline in *. destruct (h !! self) as [x|] eqn:Hx; [|done].
    rewrite (Hkeep _ _ Hx); [done|]. intros E. apply Hs. rewrite !elem_of_cons. auto 10.
  - unfold until_list. destruct Hu as [x Hx].
    rewrite (Hkeep _ _ Hx), Hx; [done|]. intros E. apply Hn1. rewrite !elem_of_cons. auto 10.
  - unfold type_list. destruct Ht as [x Hx].
    rewrite (Hkeep _ _ Hx), Hx; [done|]. intros E. apply Hn2. rewrite !elem_of_cons. auto 10.
  - unfold then_list. destruct Hth as [x Hx].
    rewrite (Hkeep _ _ Hx), Hx; [done|]. intros E. apply Hn3. rewrite !elem_of_cons. auto 10.
  - unfold map_list. destruct Hm as [x Hx].
    rewrite (Hkeep _ _ Hx), Hx; [done|]. intros E. apply Hn4. rewrite !elem_of_cons. auto 10.
  - destruct Hw as [x Hx]. intros [Hempty|Hnone].
    + rewrite Hempty in Hwatch. destruct Hwatch as [Hfresh _].
      unfold watch_list. rewrite Hfr, (Hold _ _ Hx), Hx; [done|].
      rewrite !elem_of_cons, elem_of_nil.
      intros [E|[E|[E|[E|[E|[]]]]]]; rewrite E in Hx; congruence.
    + unfold watch_list.
      destruct (watch_list h (p_watch_callbacks p)) as [|c cs] eqn:Ew.
      * destruct Hwatch as [Hfresh _].
        rewrite Hfr, (Hold _ _ Hx), Hx; [done|].
        rewrite !elem_of_cons, elem_of_nil.
        intros [E|[E|[E|[E|[E|[]]]]]]; rewrite E in Hx; congruence.
      * rewrite <- Hwatch, (Hfw Hnone), Hwatch, (Hold _ _ Hx), Hx. done.
Qed.

(** A newly made pipeline is well formed. *)
Lemma init_well_formed h generator text params watch_callbacks :
  let '(self, h') :=
    CompletionPipeline_init h generator text params watch_callbacks in
  ∃ p, well_formed h' self p ∧
    until_list h' (p_until_callbacks p) = [] ∧
    type_list h' (p_until_types p) = [] ∧
    then_list h' (p_then_callbacks p) = [] ∧
    map_list h' (p_map_callbacks p) = [].
Proof.
  pose proof (init_spec h generator text params watch_callbacks) as Hinit.
  destruct (CompletionPipeline_init h generator text params watch_callbacks)
    as [self h'].
  destruct Hinit as (p & Hp & _ & _ & _ & _ & _ & _ & _ & _ & Hu & Ht & Hth & Hm
                     & Hnd & Hold & _ & Hwatch).
  exists p. split.
  - split; [done|]. rewrite Hu, Ht, Hth, Hm.
    repeat split; try by eexists. 2: done.
    destruct watch_callbacks as [l|].
    + destruct (watch_list h l) as [|c cs] eqn:Ew.
      * destruct Hwatch as [_ ->]. by eexists.
      * rewrite Hwatch. unfold watch_list in Ew.
        destruct (h !! l) as [x|] eqn:Hx; [|done].
        rewrite (Hold _ _ Hx). by eexists.
    + destruct Hwatch as [_ ->]. by eexists.
  - unfold until_list, type_list, then_list, map_list.
    by rewrite Hu, Ht, Hth, Hm.
Qed.

(** Whatever the state of a pipeline, [until_parsed_as] calls never add
    a second entry for the pipeline's own bound validator, and they
    append the requested types to its [until_types]. *)
Lemma until_parsed_as_calls_own h self p calls :
  separate h self p →
  let own h := length (List.filter (is_parse_method_of self)
                         (until_list h (p_until_callbacks p))) in
  let h' := until_parsed_as_calls h self calls in
  separate h' self p ∧
  own h' = match calls with [] => own h | _ :: _ => Nat.max 1 (own h) end ∧
  type_list h' (p_until_types p) =
    type_list h (p_until_types p) ++ concat (map (λ c, c.1.1) calls).
Proof.
  intros Hsep own. revert h Hsep.
  assert (Hstep : ∀ h types ua mr, separate h self p →
    separate (until_parsed_as h self types ua mr) self p ∧
    own (until_parsed_as h self types ua mr) = Nat.max 1 (own h) ∧
    type_list (until_parsed_as h self types ua mr) (p_until_types p)
      = type_list h (p_until_types p) ++ types).
  { intros h types ua mr (Hp & Htu & Hts & Hus).
    unfold own, until_parsed_as. rewrite Hp. cbv zeta.
    rewrite (until_list_insert_ne _ _ _ _ Htu).
    set (cbs := until_list h (p_until_callbacks p)).
    destruct (find (is_parse_method_of self) cbs) as [e|] eqn:Hfind.
    - split; [split; [by rewrite pipeline_insert_ne|done]|].
      rewrite until_list_insert_ne by done. fold cbs.
      split; [|by rewrite type_list_insert_eq].
      apply find_some in Hfind as [Hin He].
      assert (Hf : In e (List.filter (is_parse_method_of self) cbs))
        by (by apply filter_In).
      destruct (List.filter (is_parse_method_of self) cbs); simpl in *; [done|lia].
    - split; [split; [by rewrite !pipeline_insert_ne|done]|].
      rewrite until_list_insert_eq, List.filter_app, length_app.
      split.
      + assert (Hnone : List.filter (is_parse_method_of self) cbs = []).
        { clear -Hfind. induction cbs as [|a cbs IH]; [done|]. simpl in *.
          destruct (is_parse_method_of self a); [done|]. by apply IH. }
        rewrite Hnone. simpl. unfold is_parse_method_of. simpl.
        by rewrite bool_decide_eq_true_2.
      + rewrite type_list_insert_ne by done. by rewrite type_list_insert_eq. }
  induction calls as [|[[types ua] mr] calls IH]; intros h Hsep; simpl.
  - rewrite app_nil_r. done.
  - destruct (Hstep h types ua mr Hsep) as (Hsep' & Hown' & Hty').
    destruct (IH _ Hsep') as (Hsep'' & Hown'' & Hty'').
    unfold until_parsed_as_calls in *. simpl in *.
    split; [done|]. split.
    + rewrite Hown''. destruct calls; [done|]. rewrite Hown'. lia.
    + rewrite Hty'', Hty', <- app_assoc. done.
Qed.

End CloneFacts.

(** ** Properties of the engine *)

Section ListFacts.
Context `{External}.

Lemma delivered_snoc tr ev :
  delivered (tr ++ [ev]) =
  delivered tr ++ match ev with EvWatch d => d | _ => [] end.
Proof. unfold delivered. rewrite bind_app. simpl. by rewrite app_nil_r. Qed.

Lemma assigned_snoc tr ev :
  assigned (tr ++ [ev]) =
  assigned tr ++ match ev with EvSend i _ _ (Some c) => [(i, c)] | _ => [] end.
Proof.
  unfold assigned. rewrite omap_app. simpl.
  destruct ev as [| ? ? ? [c|] | |]; done.
Qed.

Lemma sent_snoc i tr ev :
  sent i (tr ++ [ev]) =
  sent i tr ++ match ev with
               | EvSend j chunk _ _ => if decide (j = i) then [chunk] else []
               | _ => []
               end.
Proof.
  unfold sent. rewrite omap_app. simpl.
  destruct ev as [| j ? ? ? | |]; try done. by destruct (decide (j = i)).
Qed.

Lemma generate_calls_snoc tr ev :
  generate_calls (tr ++ [ev]) =
  generate_calls tr ++
  match ev with EvGenerate texts _ _ => [texts] | _ => [] end.
Proof.
  unfold generate_calls. rewrite omap_app. simpl. by destruct ev.
Qed.

Lemma answered_snoc tr ev :
  answered (tr ++ [ev]) =
  answered tr ++ match ev with
                 | EvGenerate texts _ (inr inbounds) =>
                     zip texts (g_text <$> inbounds)
                 | _ => []
                 end.
Proof. unfold answered. rewrite bind_app. simpl. by rewrite app_nil_r. Qed.

(** The calls of the Watch callbacks are no backend call, no send and
    no delivery. *)
Lemma quiet_calls (calls : list Event) :
  Forall is_watch_call calls →
  assigned calls = [] ∧ delivered calls = [] ∧ generate_calls calls = [] ∧
  answered calls = [] ∧ ∀ i, sent i calls = [].
Proof.
  induction 1 as [|ev calls Hev _ IH]; [done|].
  by destruct ev.
Qed.

Lemma assigned_app tr1 tr2 : assigned (tr1 ++ tr2) = assigned tr1 ++ assigned tr2.
Proof. apply omap_app. Qed.

Lemma delivered_app tr1 tr2 :
  delivered (tr1 ++ tr2) = delivered tr1 ++ delivered tr2.
Proof. apply bind_app. Qed.

Lemma sent_app i tr1 tr2 : sent i (tr1 ++ tr2) = sent i tr1 ++ sent i tr2.
Proof. apply omap_app. Qed.

Lemma generate_calls_app tr1 tr2 :
  generate_calls (tr1 ++ tr2) = generate_calls tr1 ++ generate_calls tr2.
Proof. apply omap_app. Qed.

Lemma answered_app tr1 tr2 : answered (tr1 ++ tr2) = answered tr1 ++ answered tr2.
Proof. apply bind_app. Qed.

Lemma elem_of_sent i chunk tr :
  chunk ∈ sent i tr ↔ ∃ r a, EvSend i chunk r a ∈ tr.
Proof.
  unfold sent. rewrite list_elem_of_omap. split.
  - intros (ev & Hin & Hev). destruct ev as [| j c r a | |]; try done.
    destruct (decide (j = i)); simplify_eq. eauto.
  - intros (r & a & Hin). exists (EvSend i chunk r a). split; [done|].
    simpl. by rewrite decide_True.
Qed.

Lemma records_at_app i l1 l2 :
  records_at i (l1 ++ l2) = records_at i l1 ++ records_at i l2.
Proof. unfold records_at. apply omap_app. Qed.

Lemma records_at_absent i (l : list (nat * Completion)) :
  i ∉ l.*1 → records_at i l = [].
Proof.
  induction l as [|[j c] l IH]; simpl; [done|].
  intros Hn. apply not_elem_of_cons in Hn as [Hne Hn].
  unfold records_at; simpl. destruct (decide (j = i)); [done|].
  by apply IH.
Qed.

Lemma records_at_present i c (l : list (nat * Completion)) :
  NoDup l.*1 → (i, c) ∈ l → records_at i l = [c].
Proof.
  induction l as [|[j d] l IH]; simpl; intros Hnd Hin.
  - by apply elem_of_nil in Hin.
  - apply NoDup_cons in Hnd as [Hj Hnd].
    unfold records_at; simpl.
    apply elem_of_cons in Hin as [Heq|Hin].
    + simplify_eq. rewrite decide_True by done.
      fold (records_at j l). by rewrite records_at_absent.
    + destruct (decide (j = i)) as [->|Hne].
      * exfalso. apply Hj. apply list_elem_of_fmap. by exists (i, c).
      * by apply IH.
Qed.

Lemma records_at_elem i c (l : list (nat * Completion)) :
  c ∈ records_at i l ↔ (i, c) ∈ l.
Proof.
  unfold records_at. rewrite list_elem_of_omap. split.
  - intros ([j d] & Hin & Hd). simpl in Hd.
    destruct (decide (j = i)); by simplify_eq.
  - intros Hin. exists (i, c). split; [done|]. simpl. by rewrite decide_True.
Qed.

Lemma records_at_nil_absent i (l : list (nat * Completion)) :
  records_at i l = [] → i ∉ l.*1.
Proof.
  intros Hr Hin. apply list_elem_of_fmap in Hin as ([j c] & -> & Hin).
  simpl in Hr. apply records_at_elem in Hin. rewrite Hr in Hin.
  by apply elem_of_nil in Hin.
Qed.

Lemma sublist_List_filter {A} (f : A → bool) (l : list A) :
  List.filter f l `sublist_of` l.
Proof.
  induction l as [|x l IH]; simpl; [constructor|].
  destruct (f x); by constructor.
Qed.

Lemma elem_of_List_filter {A} (f : A → bool) (l : list A) x :
  x ∈ List.filter f l ↔ x ∈ l ∧ f x = true.
Proof. rewrite !list_elem_of_In. apply filter_In. Qed.

Lemma zip_snd_sublist {A B} (l : list A) (k : list B) :
  (zip l k).*2 `sublist_of` k.
Proof.
  revert k. induction l as [|a l IH]; intros [|b k]; simpl; try constructor.
  - apply sublist_nil_l.
  - apply IH.
Qed.

Lemma omap_lookup_seq_from {A} (l1 l : list A) :
  omap (λ i, (l1 ++ l) !! i) (seq (length l1) (length l)) = l.
Proof.
  revert l1. induction l as [|x l IH]; intros l1; [done|].
  simpl. rewrite lookup_app_r, Nat.sub_diag by lia. simpl. f_equal.
  specialize (IH (l1 ++ [x])). rewrite length_app in IH. simpl in IH.
  rewrite Nat.add_1_r, <- app_assoc in IH. done.
Qed.

Lemma omap_lookup_seq {A} (l : list A) :
  omap (λ i, l !! i) (seq 0 (length l)) = l.
Proof. apply (omap_lookup_seq_from [] l). Qed.

Lemma omap_lookup_total {A} (l : list A) (ixs : list nat) :
  (∀ i, i ∈ ixs → is_Some (l !! i)) →
  ∀ j i, ixs !! j = Some i → omap (λ i, l !! i) ixs !! j = l !! i.
Proof.
  induction ixs as [|k ixs IH]; intros Hall j i Hj; [done|].
  destruct (Hall k) as [x Hx]; [apply elem_of_cons; by left|].
  simpl. rewrite Hx. destruct j as [|j]; simpl in *.
  - by simplify_eq.
  - apply IH; [|done]. intros i' Hi'. apply Hall. apply elem_of_cons. by right.
Qed.

Lemma sublist_omap_mono {A B} (f : A → option B) (l1 l2 : list A) :
  l1 `sublist_of` l2 → omap f l1 `sublist_of` omap f l2.
Proof.
  induction 1 as [|x l1 l2 _ IH|x l1 l2 _ IH]; simpl.
  - constructor.
  - destruct (f x); [by constructor|done].
  - destruct (f x); [by constructor|done].
Qed.

Lemma sublist_fmap_mono {A B} (f : A → B) (l1 l2 : list A) :
  l1 `sublist_of` l2 → f <$> l1 `sublist_of` f <$> l2.
Proof. induction 1; simpl; by constructor. Qed.

(** The texts of a backend call, when the pending positions are taken
    in order from the states and no state changed its text. *)
Lemma pending_texts_sublist (request : RunState → string)
    (init states : list RunState) (pending : list nat) :
  (∀ s s', s_text s = s_text s' → request s = request s') →
  length states = length init →
  (∀ i s, states !! i = Some s →
     ∃ s0, init !! i = Some s0 ∧ s_text s = s_text s0) →
  pending `sublist_of` seq 0 (length states) →
  map request (omap (λ i, states !! i) pending)
    `sublist_of` map request init.
Proof.
  intros Hreq Hlen Hframe Hsub.
  assert (Heq : map request states = map request init).
  { apply list_eq. intros i. rewrite !list_lookup_fmap.
    destruct (states !! i) as [s|] eqn:Hs.
    - destruct (Hframe i s Hs) as (s0 & -> & Ht). simpl. f_equal. by apply Hreq.
    - apply lookup_ge_None in Hs. rewrite Hlen in Hs.
      apply lookup_ge_None in Hs. by rewrite Hs. }
  rewrite <- Heq. apply sublist_fmap_mono.
  apply (sublist_omap_mono (λ i, states !! i)) in Hsub.
  by rewrite omap_lookup_seq in Hsub.
Qed.

End ListFacts.

Section SendFacts.
Context `{External}.
Implicit Types (h : gmap loc Obj) (self : CompletionPipeline) (w : World).

(** The validators raise nothing but what a callback raised. *)
Lemma call_until_raises h cb text w e :
  (call_until h cb text w).1 = inl e → ∃ u, e = CallbackError u.
Proof.
  destruct cb as [call|owner]; simpl.
  - destruct (call text w) as [[u|b] w']; simpl; [|done].
    intros [= <-]. by exists u.
  - by destruct (pipeline h owner).
Qed.

Lemma for_until_callbacks_raises h self generated cbs : ∀ should_retry w e,
  (for_until_callbacks h self generated cbs should_retry w).1 = inl e →
  ∃ u, e = CallbackError u.
Proof.
  induction cbs as [|[[cb ua] mr] cbs IH]; intros should_retry w e; simpl; [done|].
  pose proof (call_until_raises h cb
                (if ua then p_text self +:+ generated else generated) w) as Hc.
  destruct (call_until h cb _ w) as [[e'|b] w']; simpl in *.
  - intros [= <-]. by apply Hc.
  - apply IH.
Qed.

(** What a waiting processor can do with a chunk. *)
Lemma send_live h self g n chunk w :
  live h self g n →
  (Z.of_nat (S n) ≤
   Z.max 0 (lowest_max_rounds (until_list h (p_until_callbacks self))))%Z ∧
  let r := (_process_send h self g chunk w).1 in
  r = StopIteration (Some chunk) ∨
  r = Raise (CompletionExhaustedMaxRoundsError
               (lowest_max_rounds (until_list h (p_until_callbacks self))) chunk) ∨
  (∃ g', r = Yield g' ∧ live h self g' (S n)) ∨
  ∃ e, r = Raise (CallbackError e).
Proof.
  destruct g as [| |lo cr|]; simpl; try done.
  - intros [Hnil ->]. rewrite Hnil. simpl. split; [lia|]. by left.
  - intros (Hne & -> & Hcr & Hn).
    set (cbs := until_list h (p_until_callbacks self)) in *.
    split; [lia|].
    pose proof (for_until_callbacks_raises h self chunk cbs true w) as Hraise.
    destruct (for_until_callbacks h self chunk cbs true w) as [[e|retry] w'].
    { destruct (Hraise e eq_refl) as [u ->]. right; right; right. by exists u. }
    destruct retry; simpl.
    + destruct (cr <? lowest_max_rounds cbs)%Z eqn:Hlt; simpl.
      * right; right; left. eexists. split; [done|]. simpl.
        apply Z.ltb_lt in Hlt. repeat split; try done; lia.
      * right; left. done.
    + by left.
Qed.

End SendFacts.

Section RouteFacts.
Context `{External}.
Implicit Types (h : gmap loc Obj) (self : CompletionPipeline) (w : World).

Lemma trace_ok_send h self skip_failed include_failed requests tr i chunk r a :
  trace_ok h self skip_failed include_failed requests tr →
  send_ok self skip_failed include_failed (EvSend i chunk r a) →
  records_at i (assigned tr) = [] →
  (∃ t, requests !! i = Some t ∧ (t, chunk) ∈ answered tr) →
  (Z.of_nat (S (length (sent i tr))) ≤
   Z.max 0 (lowest_max_rounds (until_list h (p_until_callbacks self))))%Z →
  trace_ok h self skip_failed include_failed requests (tr ++ [EvSend i chunk r a]).
Proof.
  intros (Hs & Hlt & Ha & Hd & Hda & Hg & Hb & Hl & Hans) Hev Hnone Hreq Hbound.
  assert (Hi_lt : i < length requests).
  { destruct Hreq as (t & Ht & _). by eapply lookup_lt_Some. }
  assert (Hi : i ∉ (assigned tr).*1) by by apply records_at_nil_absent.
  unfold trace_ok.
  rewrite assigned_snoc, delivered_snoc, generate_calls_snoc, answered_snoc,
    !app_nil_r.
  split; [|split; [|split; [|split; [|split; [|split; [|split; [|split]]]]]]].
  - apply Forall_app. split; [done|]. by constructor.
  - apply Forall_app. split; [done|]. destruct a; by repeat constructor.
  - destruct a as [c|]; [|by rewrite app_nil_r].
    rewrite fmap_app. apply NoDup_app. split; [done|]. split.
    + intros j Hj Hj'. simpl in Hj'. apply list_elem_of_singleton in Hj'.
      by subst.
    + simpl. apply NoDup_singleton.
  - done.
  - intros d Hin. apply elem_of_app. left. by apply Hda.
  - done.
  - intros j. rewrite sent_snoc, length_app.
    destruct (decide (i = j)) as [->|Hne]; simpl.
    + rewrite Nat.add_1_r. done.
    + rewrite Nat.add_0_r. apply Hb.
  - intros j c Hin. rewrite sent_snoc.
    apply elem_of_app in Hin as [Hin|Hin].
    + destruct (decide (i = j)) as [->|Hne].
      * exfalso. apply Hi. apply list_elem_of_fmap. by exists (j, c).
      * rewrite app_nil_r. by apply Hl.
    + destruct a as [c'|]; [|by apply elem_of_nil in Hin].
      apply list_elem_of_singleton in Hin. simplify_eq.
      rewrite decide_True by done. rewrite last_snoc.
      simpl in Hev. destruct Hev as (_ & -> & _). done.
  - intros j c Hin. rewrite sent_snoc in Hin.
    apply elem_of_app in Hin as [Hin|Hin]; [by apply Hans|].
    destruct (decide (i = j)) as [->|Hne]; [|by apply elem_of_nil in Hin].
    apply list_elem_of_singleton in Hin. by subst.
Qed.

Lemma state_ok_send_other h self init tr i chunk r a j s :
  j ≠ i →
  state_ok h self init tr j s →
  state_ok h self init (tr ++ [EvSend i chunk r a]) j s.
Proof.
  intros Hne [Hframe Hs]. split; [done|].
  rewrite assigned_snoc, delivered_snoc, sent_snoc, app_nil_r.
  rewrite decide_False by done. rewrite app_nil_r.
  rewrite records_at_app.
  assert (Hnil : records_at j
            (match a with Some c => [(i, c)] | None => [] end) = []).
  { destruct a; [|done]. unfold records_at; simpl.
    by rewrite decide_False. }
  rewrite Hnil, app_nil_r. done.
Qed.

(** One pair of the routing loop, for a state that has no record yet. *)
Lemma deliver_step h self skip_failed include_failed init requests tr
    inbound i s w :
  trace_ok h self skip_failed include_failed requests tr →
  (∃ t, requests !! i = Some t ∧ (t, g_text inbound) ∈ answered tr) →
  state_ok h self init tr i s →
  s_completion s = None →
  ∃ r a,
    (deliver h self skip_failed include_failed inbound i s w).1.2
      = EvSend i (g_text inbound) r a ∧
    trace_ok h self skip_failed include_failed requests
      (tr ++ [EvSend i (g_text inbound) r a]) ∧
    match (deliver h self skip_failed include_failed inbound i s w).1.1 with
    | inl e => True
    | inr s' =>
        state_ok h self init (tr ++ [EvSend i (g_text inbound) r a]) i s' ∧
        (s_completion s' = None → s_watched s' = false)
    end.
Proof.
  intros Htr Hi_lt [Hframe Hs] Hnone. rewrite Hnone in Hs.
  destruct Hs as (Hw & Ha & Hd & Hlive).
  destruct (send_live h self (s_processor s) (length (sent i tr))
              (g_text inbound) w Hlive) as [Hbound Hr].
  unfold deliver.
  destruct (_process_send h self (s_processor s) (g_text inbound) w)
    as [r w'] eqn:Esend.
  simpl in Hr. destruct Hr as [->|[->|[(g' & -> & Hlive')|[u ->]]]].
  - (* the processor returned *)
    simpl. do 2 eexists. split; [done|].
    split.
    { apply trace_ok_send; try done. simpl. repeat split; auto. }
    split; [|done].
    split; [done|]. simpl.
    rewrite assigned_snoc, delivered_snoc, app_nil_r, records_at_app, Ha, Hd, Hw.
    unfold records_at; simpl. rewrite decide_True by done. done.
  - (* the processor raised the exhaustion error *)
    destruct (negb skip_failed && negb include_failed) eqn:Eflags; simpl.
    + do 2 eexists. split; [done|]. split; [|done].
      apply trace_ok_send; try done.
    + do 2 eexists. split; [done|].
      split.
      { apply trace_ok_send; try done. simpl. repeat split; auto.
        right. split; [done|]. split; [|by eexists].
        destruct skip_failed, include_failed; done. }
      split; [|done].
      split; [done|]. simpl.
      rewrite assigned_snoc, delivered_snoc, app_nil_r, records_at_app, Ha, Hd, Hw.
      unfold records_at; simpl. rewrite decide_True by done. done.
  - (* the processor waits for the next chunk *)
    simpl. do 2 eexists. split; [done|].
    split; [by apply trace_ok_send|].
    split; [|done].
    split; [done|]. simpl. rewrite Hnone.
    rewrite assigned_snoc, delivered_snoc, sent_snoc, !app_nil_r.
    rewrite decide_True by done. rewrite length_app. simpl.
    rewrite Nat.add_1_r. done.
  - (* a validator raised *)
    simpl. do 2 eexists. split; [done|]. split; [|done].
    by apply trace_ok_send.
Qed.

End RouteFacts.

Section RouteLoop.
Context `{External}.
Implicit Types (h : gmap loc Obj) (self : CompletionPipeline) (w : World).

(** The routing loop over positions that are distinct and whose states
    have no record yet. *)
Lemma route_spec h self skip_failed include_failed init requests pairs :
  ∀ states tr w,
  trace_ok h self skip_failed include_failed requests tr →
  (∀ j s, states !! j = Some s → state_ok h self init tr j s) →
  (∀ inbound i, (inbound, i) ∈ pairs →
     ∃ t, requests !! i = Some t ∧ (t, g_text inbound) ∈ answered tr) →
  NoDup pairs.*2 →
  (∀ i, i ∈ pairs.*2 → ∃ s, states !! i = Some s ∧ s_completion s = None) →
  match route h self skip_failed include_failed pairs states tr w with
  | (inl e, tr', w') =>
      trace_ok h self skip_failed include_failed requests tr'
  | (inr states', tr', w') =>
      trace_ok h self skip_failed include_failed requests tr' ∧
      length states' = length states ∧
      (∀ j s, states' !! j = Some s → state_ok h self init tr' j s) ∧
      (∀ j s', states' !! j = Some s' → s_completion s' = None →
         ∃ s, states !! j = Some s ∧ s_completion s = None)
  end.
Proof.
  induction pairs as [|[inbound i] rest IH];
    intros states tr w Htr Hst Hans Hnd Hpend.
  - simpl. split; [done|]. split; [done|]. split; [done|]. eauto.
  - simpl in Hnd. apply NoDup_cons in Hnd as [Hi Hnd].
    destruct (Hpend i) as (s & Hs & Hnone); [simpl; apply elem_of_cons; by left|].
    simpl. rewrite Hs.
    destruct (deliver_step h self skip_failed include_failed init requests tr
                inbound i s w Htr (Hans inbound i (list_elem_of_here _ _))
                (Hst i s Hs) Hnone)
      as (r & a & Hev & Htr' & Hres).
    destruct (deliver h self skip_failed include_failed inbound i s w)
      as [[res ev] w'] eqn:Edel.
    simpl in Hev, Hres. subst ev.
    destruct res as [e|s']; [done|].
    destruct Hres as [Hs' _].
    assert (Hlt : i < length states) by (by eapply lookup_lt_Some).
    specialize (IH (<[i := s']> states) (tr ++ [EvSend i (g_text inbound) r a]) w' Htr').
    destruct (route h self skip_failed include_failed rest
                (<[i := s']> states) (tr ++ [EvSend i (g_text inbound) r a]) w')
      as [[res tr''] w''].
    assert (Hpre1 : ∀ j sj, <[i := s']> states !! j = Some sj →
              state_ok h self init (tr ++ [EvSend i (g_text inbound) r a]) j sj).
    { intros j sj Hj. destruct (decide (i = j)) as [<-|Hne].
      - rewrite list_lookup_insert_eq in Hj by done. by simplify_eq.
      - rewrite list_lookup_insert_ne in Hj by done.
        apply state_ok_send_other; [done|]. by apply Hst. }
    assert (Hpre2 : ∀ k, k ∈ rest.*2 →
              ∃ sk, <[i := s']> states !! k = Some sk ∧ s_completion sk = None).
    { intros k Hk. destruct (decide (i = k)) as [<-|Hne]; [done|].
      rewrite list_lookup_insert_ne by done. apply Hpend.
      simpl. apply elem_of_cons. by right. }
    assert (Hpre0 : ∀ inbound' k, (inbound', k) ∈ rest →
              ∃ t, requests !! k = Some t ∧
                (t, g_text inbound') ∈
                  answered (tr ++ [EvSend i (g_text inbound) r a])).
    { intros inbound' k Hk. rewrite answered_snoc, app_nil_r.
      apply Hans. apply elem_of_cons. by right. }
    specialize (IH Hpre1 Hpre0 Hnd Hpre2).
    destruct res as [e|states']; [done|].
    destruct IH as (Ht & Hlen & Hok & Hrel).
    split; [done|]. split; [by rewrite Hlen, length_insert|]. split; [done|].
    intros j sj Hj Hn. destruct (Hrel j sj Hj Hn) as (s1 & Hs1 & Hn1).
    destruct (decide (i = j)) as [<-|Hne].
    + eauto.
    + rewrite list_lookup_insert_ne in Hs1 by done. eauto.
Qed.

End RouteLoop.

Section WatchFacts.
Context `{External}.
Implicit Types (h : gmap loc Obj) (self : CompletionPipeline) (w : World).

Lemma to_watch_elem states i s :
  (i, s) ∈ to_watch_states states ↔
  states !! i = Some s ∧ is_Some (s_completion s) ∧ s_watched s = false.
Proof.
  unfold to_watch_states. rewrite elem_of_List_filter.
  rewrite (elem_of_lookup_imap pair states (i, s)).
  split.
  - intros [(j & x & Heq & Hl) Hc]. simplify_eq.
    destruct (s_completion x); [|done].
    split; [done|]. split; [by eexists|]. by destruct (s_watched x).
  - intros (Hl & [c Hc] & Hw). split; [by exists i, s|].
    by rewrite Hc, Hw.
Qed.

Lemma newly_finished_elem states i c :
  (i, c) ∈ newly_finished states ↔
  ∃ s, states !! i = Some s ∧ s_completion s = Some c ∧ s_watched s = false.
Proof.
  unfold newly_finished. rewrite list_elem_of_omap. split.
  - intros ([j s] & Hin & Heq). apply to_watch_elem in Hin as (Hl & _ & Hw).
    destruct (s_completion s) as [c'|] eqn:Hc; simpl in Heq; simplify_eq.
    eauto.
  - intros (s & Hl & Hc & Hw). exists (i, s). split.
    + apply to_watch_elem. split; [done|]. split; [by eexists|done].
    + by rewrite Hc.
Qed.

Lemma fst_imap_pair {A} (l : list A) : (imap pair l).*1 = seq 0 (length l).
Proof.
  rewrite fmap_imap.
  etrans; [exact (imap_seq_0 l id)|apply list_fmap_id].
Qed.

Lemma fst_selected_sublist {A B} (f : nat * A → bool) (g : A → option B)
    (l : list (nat * A)) :
  (omap (λ '(i, s), pair i <$> g s) (List.filter f l)).*1 `sublist_of` l.*1.
Proof.
  induction l as [|[i s] l IH]; simpl; [constructor|].
  destruct (f (i, s)); simpl.
  - destruct (g s); simpl; by constructor.
  - by constructor.
Qed.

Lemma newly_finished_NoDup states : NoDup (newly_finished states).*1.
Proof.
  apply (sublist_NoDup _ (imap pair states).*1).
  - rewrite fst_imap_pair. apply NoDup_seq.
  - apply fst_selected_sublist.
Qed.

Lemma newly_finished_to_watch states i :
  i ∈ (newly_finished states).*1 ↔ i ∈ (to_watch_states states).*1.
Proof.
  rewrite !list_elem_of_fmap. split.
  - intros ([j c] & -> & Hin). apply newly_finished_elem in Hin as (s & Hl & Hc & Hw).
    exists (j, s). split; [done|]. apply to_watch_elem.
    split; [done|]. split; [by eexists|done].
  - intros ([j s] & -> & Hin). apply to_watch_elem in Hin as (Hl & [c Hc] & Hw).
    exists (j, c). split; [done|]. apply newly_finished_elem. eauto.
Qed.

Lemma set_watched_idem s : set_watched (set_watched s) = set_watched s.
Proof. done. Qed.

Lemma mark_watched_lookup (ixs : list nat) : ∀ (states : list RunState) j,
  foldl (λ sts i, alter set_watched i sts) states ixs !! j =
  if decide (j ∈ ixs) then set_watched <$> states !! j else states !! j.
Proof.
  induction ixs as [|i ixs IH]; intros states j.
  - case_decide as Hin; [by apply elem_of_nil in Hin|done].
  - change (foldl (λ sts i, alter set_watched i sts) states (i :: ixs))
      with (foldl (λ sts i, alter set_watched i sts)
              (alter set_watched i states) ixs).
    rewrite IH, list_lookup_alter.
    assert (Hc : ∀ k, k ∈ i :: ixs ↔ i = k ∨ k ∈ ixs).
    { intros k. rewrite elem_of_cons. intuition congruence. }
    repeat case_decide; subst; try done.
    all: try (exfalso; rewrite Hc in *; tauto).
    all: destruct (states !! j) as [r|]; reflexivity.
Qed.

Lemma mark_watched_length (ixs : list nat) : ∀ (states : list RunState),
  length (foldl (λ sts i, alter set_watched i sts) states ixs) = length states.
Proof.
  induction ixs as [|i ixs IH]; intros states; simpl; [done|].
  by rewrite IH, length_alter.
Qed.

End WatchFacts.

Section LoopFacts.
Context `{External}.
Implicit Types (h : gmap loc Obj) (self : CompletionPipeline) (w : World).

Lemma trace_ok_generate h self skip_failed include_failed requests tr texts
    params answer :
  trace_ok h self skip_failed include_failed requests tr →
  texts `sublist_of` requests →
  trace_ok h self skip_failed include_failed requests
    (tr ++ [EvGenerate texts params answer]).
Proof.
  intros (Hs & Hlt & Ha & Hd & Hda & Hg & Hb & Hl & Hans) Hsub. unfold trace_ok.
  rewrite assigned_snoc, delivered_snoc, generate_calls_snoc, answered_snoc,
    !app_nil_r.
  split; [|split; [|split; [|split; [|split; [|split; [|split; [|split]]]]]]];
    try done.
  - apply Forall_app. split; [done|]. by constructor.
  - apply Forall_app. split; [done|]. by constructor.
  - intros i. rewrite sent_snoc, app_nil_r. apply Hb.
  - intros i c Hin. rewrite sent_snoc, app_nil_r. by apply Hl.
  - intros i c Hin. rewrite sent_snoc, app_nil_r in Hin.
    destruct (Hans i c Hin) as (t & Ht & Hin'). exists t. split; [done|].
    apply elem_of_app. by left.
Qed.

Lemma state_ok_generate h self init tr texts params answer j s :
  state_ok h self init tr j s →
  state_ok h self init (tr ++ [EvGenerate texts params answer]) j s.
Proof.
  intros [Hframe Hs]. split; [done|].
  by rewrite assigned_snoc, delivered_snoc, sent_snoc, !app_nil_r.
Qed.

Lemma trace_ok_watch h self skip_failed include_failed requests init tr states :
  trace_ok h self skip_failed include_failed requests tr →
  (∀ j s, states !! j = Some s → state_ok h self init tr j s) →
  trace_ok h self skip_failed include_failed requests
    (tr ++ [EvWatch (newly_finished states)]).
Proof.
  intros (Hs & Hlt & Ha & Hd & Hda & Hg & Hb & Hl & Hans) Hok. unfold trace_ok.
  rewrite assigned_snoc, delivered_snoc, generate_calls_snoc, answered_snoc,
    !app_nil_r.
  split; [|split; [|split; [|split; [|split; [|split; [|split; [|split]]]]]]];
    try done.
  - apply Forall_app. split; [done|]. by constructor.
  - rewrite fmap_app. apply NoDup_app. split; [done|]. split.
    + intros i Hold Hnew.
      apply list_elem_of_fmap in Hnew as ([i' c] & -> & Hin).
      apply newly_finished_elem in Hin as (s & Hl' & Hc & Hw).
      destruct (Hok _ _ Hl') as [_ Hst]. rewrite Hc, Hw in Hst.
      destruct Hst as (_ & _ & Hdel & _).
      by apply records_at_nil_absent in Hdel.
    + apply newly_finished_NoDup.
  - intros [i c] Hin. apply elem_of_app in Hin as [Hin|Hin]; [by apply Hda|].
    apply newly_finished_elem in Hin as (s & Hl' & Hc & Hw).
    destruct (Hok _ _ Hl') as [_ Hst]. rewrite Hc in Hst.
    destruct Hst as (_ & Has & _).
    apply records_at_elem. rewrite Has. apply list_elem_of_singleton. done.
  - intros i. rewrite sent_snoc, app_nil_r. apply Hb.
  - intros i c Hin. rewrite sent_snoc, app_nil_r. by apply Hl.
  - intros i c Hin. rewrite sent_snoc, app_nil_r in Hin. by apply Hans.
Qed.

(** The calls of the Watch callbacks change nothing of what the events
    say about the states. *)
Lemma trace_ok_calls h self skip_failed include_failed requests tr calls :
  trace_ok h self skip_failed include_failed requests tr →
  Forall is_watch_call calls →
  trace_ok h self skip_failed include_failed requests (tr ++ calls).
Proof.
  intros (Hs & Hlt & Ha & Hd & Hda & Hg & Hb & Hl & Hans) Hcalls.
  destruct (quiet_calls calls Hcalls) as (Eas & Ede & Egen & Eans & Esent).
  unfold trace_ok.
  rewrite assigned_app, delivered_app, generate_calls_app, answered_app,
    Eas, Ede, Egen, Eans, !app_nil_r.
  split; [|split; [|split; [|split; [|split; [|split; [|split; [|split]]]]]]];
    try done.
  - apply Forall_app. split; [done|].
    eapply Forall_impl; [exact Hcalls|]. by intros [].
  - intros i. rewrite sent_app, Esent, app_nil_r. apply Hb.
  - intros i c Hin. rewrite sent_app, Esent, app_nil_r. by apply Hl.
  - intros i c Hin. rewrite sent_app, Esent, app_nil_r in Hin. by apply Hans.
Qed.

Lemma state_ok_calls h self init tr calls j s :
  Forall is_watch_call calls →
  state_ok h self init tr j s → state_ok h self init (tr ++ calls) j s.
Proof.
  intros Hcalls [Hframe Hs]. split; [done|].
  destruct (quiet_calls calls Hcalls) as (Eas & Ede & _ & _ & Esent).
  by rewrite assigned_app, delivered_app, sent_app, Eas, Ede, Esent, !app_nil_r.
Qed.

Lemma loop_head_calls h self init states pending tr calls :
  Forall is_watch_call calls →
  loop_head h self init states pending tr →
  loop_head h self init states pending (tr ++ calls).
Proof.
  intros Hcalls (Hlen & Hok & Hrest). split; [done|]. split; [|done].
  intros i s Hs. apply state_ok_calls; [done|]. by apply Hok.
Qed.

(** [_watch_callback] calls every Watch callback of the pipeline once,
    in order, with the records it was given; it raises exactly when one
    of them did. *)
Lemma gather_watch_spec cbs completions : ∀ w,
  let '(raised, calls, w') := gather_watch cbs completions w in
  Forall is_watch_call calls ∧
  watch_calls calls = map (λ cb, (watch_id cb, completions)) cbs ∧
  match raised with
  | Some e =>
      ∃ id u, e = CallbackError u ∧ EvWatchCall id completions (Some u) ∈ calls
  | None => ∀ id cs r, EvWatchCall id cs r ∈ calls → r = None
  end.
Proof.
  induction cbs as [|cb cbs IH]; intros w; simpl.
  { split; [constructor|]. split; [done|].
    intros id cs r Hin. by apply elem_of_nil in Hin. }
  destruct (watch_call cb completions w) as [raised w1].
  specialize (IH w1).
  destruct (gather_watch cbs completions w1) as [[later calls] w2].
  destruct IH as (Hcalls & Hids & Hlater).
  split; [by constructor|]. split; [simpl; by rewrite Hids|].
  destruct raised as [u|].
  - exists (watch_id cb), u. split; [done|]. apply list_elem_of_here.
  - destruct later as [e|].
    + destruct Hlater as (id & u & -> & Hin). exists id, u. split; [done|].
      by apply list_elem_of_further.
    + intros id cs r Hin. apply elem_of_cons in Hin as [Heq|Hin].
      * by simplify_eq.
      * by eapply Hlater.
Qed.

(** One turn of the loop keeps what holds at its head. *)
Lemma one_round_spec h self request skip_failed include_failed init
    states pending tr w :
  (∀ s s', s_text s = s_text s' → request s = request s') →
  trace_ok h self skip_failed include_failed (map request init) tr →
  loop_head h self init states pending tr →
  match one_round h self request skip_failed include_failed
          states pending tr w with
  | (inl e, tr', w') =>
      trace_ok h self skip_failed include_failed (map request init) tr'
  | (inr (states', pending'), tr', w') =>
      trace_ok h self skip_failed include_failed (map request init) tr' ∧
      loop_head h self init states' pending' tr'
  end.
Proof.
  intros Hreq Htr (Hlen & Hok & Hwatched & Hsub & Hpend).
  unfold one_round.
  set (texts := map request (omap (λ i, states !! i) pending)).
  set (params := map s_params (omap (λ i, states !! i) pending)).
  destruct (generate_texts (p_generator self) texts params w) as [r w1].
  assert (Htr1 : trace_ok h self skip_failed include_failed (map request init)
                   (tr ++ [EvGenerate texts params r])).
  { apply trace_ok_generate; [done|].
    apply pending_texts_sublist; try done.
    intros i s Hs. destruct (Hok i s Hs) as [(s0 & ? & ? & ?) _]. eauto. }
  destruct r as [e|inbounds]; [done|].
  assert (Hnd : NoDup pending).
  { eapply sublist_NoDup; [apply NoDup_seq|done]. }
  assert (Hans : ∀ inbound i, (inbound, i) ∈ zip inbounds pending →
            ∃ t, map request init !! i = Some t ∧
              (t, g_text inbound) ∈
                answered (tr ++ [EvGenerate texts params (inr inbounds)])).
  { intros inbound i Hin.
    apply list_elem_of_lookup in Hin as [j Hj].
    apply lookup_zip_with_Some in Hj as (inb & i' & Heq & Hinb & Hi).
    simplify_eq.
    assert (Hpi : i' ∈ pending) by (apply list_elem_of_lookup; eauto).
    destruct (proj1 (Hpend i') Hpi) as (s & Hs & _).
    destruct (Hok i' s Hs) as [(s0 & Hs0 & Ht & _) _].
    exists (request s0). split; [by rewrite list_lookup_fmap, Hs0|].
    rewrite answered_snoc. apply elem_of_app. right.
    apply list_elem_of_lookup. exists j.
    apply lookup_zip_with_Some. exists (request s), (g_text inb).
    split; [by rewrite (Hreq s s0 Ht)|]. split.
    - unfold texts. rewrite list_lookup_fmap.
      rewrite (omap_lookup_total states pending) with (i := i'); try done.
      + by rewrite Hs.
      + intros k Hk. destruct (proj1 (Hpend k) Hk) as (sk & -> & _).
        by eexists.
    - by rewrite list_lookup_fmap, Hinb. }
  pose proof (route_spec h self skip_failed include_failed init
                (map request init) (zip inbounds pending) states
                (tr ++ [EvGenerate texts params (inr inbounds)]) w1 Htr1)
    as Hroute.
  destruct (route h self skip_failed include_failed (zip inbounds pending)
              states (tr ++ [EvGenerate texts params (inr inbounds)]) w1)
    as [[res tr2] w2].
  assert (Hroute' := Hroute
    (λ j s Hj, state_ok_generate h self init tr texts params (inr inbounds)
                 j s (Hok j s Hj)) Hans).
  clear Hroute.
  assert (Hz : (zip inbounds pending).*2 `sublist_of` pending)
    by apply zip_snd_sublist.
  specialize (Hroute' (sublist_NoDup _ _ Hnd Hz)).
  assert (Hpre : ∀ i, i ∈ (zip inbounds pending).*2 →
            ∃ s, states !! i = Some s ∧ s_completion s = None).
  { intros i Hi. apply Hpend. by eapply elem_of_sublist. }
  specialize (Hroute' Hpre).
  destruct res as [e|states']; [done|].
  destruct Hroute' as (Htr2 & Hlen2 & Hok2 & Hrel).
  fold (newly_finished states').
  pose proof (gather_watch_spec (watch_list h (p_watch_callbacks self))
                (map snd (newly_finished states')) w2) as Hcalls.
  unfold _watch_callback.
  destruct (gather_watch (watch_list h (p_watch_callbacks self))
              (map snd (newly_finished states')) w2) as [[raised calls] w3].
  destruct Hcalls as (Hcalls & _).
  rewrite cons_middle, app_assoc.
  assert (Htr3 : trace_ok h self skip_failed include_failed (map request init)
                   ((tr2 ++ [EvWatch (newly_finished states')]) ++ calls)).
  { apply trace_ok_calls; [|done]. by eapply trace_ok_watch. }
  destruct raised as [e|]; [done|].
  split; [done|]. apply loop_head_calls; [done|].
  set (ixs := map fst (to_watch_states states')).
  assert (Hix : ∀ j, j ∈ ixs ↔ ∃ s c, states' !! j = Some s ∧
                  s_completion s = Some c ∧ s_watched s = false).
  { intros j. unfold ixs. rewrite list_elem_of_fmap. split.
    - intros ([j' s] & -> & Hin). apply to_watch_elem in Hin as (? & [c ?] & ?).
      eauto.
    - intros (s & c & Hl & Hc & Hw). exists (j, s). split; [done|].
      apply to_watch_elem. split; [done|]. split; [by eexists|done]. }
  split; [by rewrite mark_watched_length, Hlen2|].
  split; [|split; [|split]].
  - (* every state agrees with the events *)
    intros j s'' Hj. rewrite mark_watched_lookup in Hj.
    fold ixs in Hj.
    destruct (decide (j ∈ ixs)) as [Hin|Hnin].
    + apply Hix in Hin as (s & c & Hl & Hc & Hw).
      rewrite Hl in Hj. simpl in Hj. simplify_eq.
      destruct (Hok2 _ _ Hl) as [Hframe Hst]. split; [done|].
      simpl. rewrite Hc in Hst |- *. destruct Hst as (Hp & Has & Hdel & Hpar).
      rewrite assigned_snoc, delivered_snoc, app_nil_r, records_at_app.
      rewrite Hw in Hdel. rewrite Hdel. simpl.
      split; [done|]. split; [done|]. split; [|done].
      apply records_at_present; [apply newly_finished_NoDup|].
      apply newly_finished_elem. eauto.
    + destruct (Hok2 _ _ Hj) as [Hframe Hst]. split; [done|].
      rewrite assigned_snoc, delivered_snoc, sent_snoc, !app_nil_r, records_at_app.
      assert (Hnil : records_at j (newly_finished states') = []).
      { apply records_at_absent. intros Hc. apply Hnin.
        apply newly_finished_to_watch in Hc. done. }
      rewrite Hnil, app_nil_r. done.
  - (* every finished state has been watched *)
    intros j s'' Hj [c Hc]. rewrite mark_watched_lookup in Hj.
    fold ixs in Hj.
    destruct (decide (j ∈ ixs)) as [Hin|Hnin].
    + destruct (states' !! j); simpl in Hj; by simplify_eq.
    + destruct (s_watched s'') eqn:Hw; [done|].
      exfalso. apply Hnin. apply Hix. eauto.
  - rewrite mark_watched_length, Hlen2.
    etrans; [apply sublist_List_filter|done].
  - intros i. rewrite elem_of_List_filter, mark_watched_lookup.
    fold ixs. unfold still_pending. split.
    + intros [Hi Hstill].
      destruct (states' !! i) as [s'|] eqn:Hl; [|done].
      destruct (s_completion s') eqn:Hc; [done|].
      rewrite decide_False.
      * eauto.
      * intros Hin. apply Hix in Hin as (? & ? & ? & ? & ?). congruence.
    + intros (s'' & Hl & Hc).
      assert (∃ s', states' !! i = Some s' ∧ s_completion s' = None)
        as (s' & Hl' & Hc').
      { destruct (decide (i ∈ ixs)).
        - destruct (states' !! i) as [s'|]; simpl in Hl; simplify_eq.
          simpl in Hc. eauto.
        - eauto. }
      rewrite Hl', Hc'. split; [|done].
      apply Hpend. by eapply Hrel.
Qed.

End LoopFacts.

Section ExecuteFacts.
Context `{External}.
Implicit Types (h : gmap loc Obj) (self : CompletionPipeline) (w : World).

Lemma while_pending_spec h self request skip_failed include_failed init fuel :
  (∀ s s', s_text s = s_text s' → request s = request s') →
  ∀ states pending tr w res,
  trace_ok h self skip_failed include_failed (map request init) tr →
  loop_head h self init states pending tr →
  while_pending fuel h self request skip_failed include_failed
    states pending tr w = Some res →
  match res with
  | (inl e, tr', w') =>
      trace_ok h self skip_failed include_failed (map request init) tr'
  | (inr states', tr', w') =>
      trace_ok h self skip_failed include_failed (map request init) tr' ∧
      loop_head h self init states' [] tr'
  end.
Proof.
  intros Hreq. induction fuel as [|fuel IH]; intros states pending tr w res Htr Hhead.
  - simpl. destruct pending; [|done]. intros [= <-]. done.
  - simpl. destruct pending as [|i pending]; [intros [= <-]; done|].
    pose proof (one_round_spec h self request skip_failed include_failed init
                  states (i :: pending) tr w Hreq Htr Hhead) as Hround.
    destruct (one_round h self request skip_failed include_failed
                states (i :: pending) tr w) as [[[e|[states' pending']] tr'] w'].
    + intros [= <-]. done.
    + destruct Hround as [Htr' Hhead']. by apply IH.
Qed.

Lemma prime_spec h self states states' :
  prime h self states = inr states' →
  states = [] ∧ states' = [] ∨
  ∃ g, _process_next h self = inr g ∧ states' = map (set_processor g) states.
Proof.
  revert states'. induction states as [|s states IH]; intros states'; simpl.
  - intros [= <-]. by left.
  - destruct (_process_next h self) as [e|g] eqn:Hg; [done|].
    destruct (prime h self states) as [e|rest] eqn:Hrest; [done|].
    intros [= <-]. right. exists g. split; [done|].
    destruct (IH rest eq_refl) as [[-> ->]|(g' & Hg' & ->)]; [done|].
    by simplify_eq.
Qed.

Lemma process_next_live h self g :
  _process_next h self = inr g → live h self g 0.
Proof.
  unfold _process_next.
  destruct (until_list h (p_until_callbacks self)) as [|e cbs] eqn:Hcbs.
  - intros [= <-]. done.
  - set (lo := lowest_max_rounds (e :: cbs)).
    destruct (0 <? lo)%Z eqn:Hlt; [|done].
    intros [= <-]. apply Z.ltb_lt in Hlt.
    unfold live. rewrite Hcbs. fold lo.
    split; [done|]. split; [done|]. split; lia.
Qed.

Lemma trace_ok_nil h self skip_failed include_failed requests :
  trace_ok h self skip_failed include_failed requests [].
Proof.
  unfold trace_ok. simpl.
  split; [|split; [|split; [|split; [|split; [|split; [|split; [|split]]]]]]];
    try constructor.
  - intros d Hd. by apply elem_of_nil in Hd.
  - lia.
  - intros i c Hin. by apply elem_of_nil in Hin.
  - intros i c Hin. by apply elem_of_nil in Hin.
Qed.

Lemma loop_head_primed h self init g :
  fresh_states init →
  _process_next h self = inr g →
  loop_head h self init (map (set_processor g) init)
    (seq 0 (length (map (set_processor g) init))) [].
Proof.
  intros Hfresh Hg.
  assert (Hall : ∀ i s, map (set_processor g) init !! i = Some s →
            ∃ s0, init !! i = Some s0 ∧ s = set_processor g s0 ∧
                  s_completion s0 = None ∧ s_watched s0 = false).
  { intros i s Hs. rewrite list_lookup_fmap in Hs.
    destruct (init !! i) as [s0|] eqn:Hs0; simpl in Hs; simplify_eq.
    eapply Forall_lookup_1 in Hfresh as [? ?]; [|done]. eauto. }
  split; [by rewrite length_map|]. split; [|split; [|split]].
  - intros i s Hs. destruct (Hall i s Hs) as (s0 & Hs0 & -> & Hc & Hw).
    split; [by exists s0|]. simpl. rewrite Hc. simpl.
    repeat split; try done. by apply process_next_live.
  - intros i s Hs [c Hc]. destruct (Hall i s Hs) as (s0 & Hs0 & -> & Hc' & Hw).
    simpl in Hc. congruence.
  - done.
  - intros i. rewrite elem_of_seq. split.
    + intros [_ Hlt]. simpl in Hlt.
      destruct (lookup_lt_is_Some_2 _ _ Hlt) as [s Hs].
      exists s. split; [done|].
      destruct (Hall i s Hs) as (s0 & Hs0 & -> & Hc' & Hw). done.
    + intros (s & Hs & _). apply lookup_lt_Some in Hs. lia.
Qed.

(** When the loop is left with nothing pending, every state has its
    record, and [collect] reads them in order. *)
Lemma loop_head_done h self init states tr :
  loop_head h self init states [] tr →
  length (omap s_completion states) = length init ∧
  ∀ i, i < length init →
    ∃ s c, states !! i = Some s ∧ s_completion s = Some c ∧
           omap s_completion states !! i = Some c ∧
           state_ok h self init tr i s ∧ s_watched s = true.
Proof.
  intros (Hlen & Hok & Hwatched & _ & Hpend).
  assert (Hall : ∀ i s, states !! i = Some s → is_Some (s_completion s)).
  { intros i s Hs. destruct (s_completion s) eqn:Hc; [by eexists|].
    exfalso. eapply not_elem_of_nil. apply Hpend. eauto. }
  assert (Heq : Some <$> omap s_completion states = s_completion <$> states).
  { clear -Hall. induction states as [|s states IH]; [done|]. simpl.
    destruct (Hall 0 s eq_refl) as [c Hc]. rewrite Hc. simpl.
    f_equal. apply IH. intros i s' Hs'. by apply (Hall (S i)). }
  split.
  - rewrite <- Hlen. rewrite <- (length_fmap Some), Heq, length_fmap. done.
  - intros i Hi. rewrite <- Hlen in Hi.
    destruct (lookup_lt_is_Some_2 _ _ Hi) as [s Hs].
    destruct (Hall i s Hs) as [c Hc].
    exists s, c. repeat split; try done.
    + apply (f_equal (λ l, l !! i)) in Heq.
      rewrite !list_lookup_fmap, Hs in Heq. simpl in Heq. rewrite Hc in Heq.
      destruct (omap s_completion states !! i); simpl in Heq; by simplify_eq.
    + by apply Hok.
    + by apply (Hok i s Hs).
    + apply (Hwatched i s Hs). by eexists.
Qed.

End ExecuteFacts.

Section RunFacts.
Context `{External}.
Implicit Types (h : gmap loc Obj) (self : CompletionPipeline) (w : World).

Lemma loop_head_nil h self : loop_head h self [] [] [] [].
Proof.
  split; [done|]. split; [done|]. split; [done|]. split; [done|].
  intros i. split.
  - intros Hi. by apply elem_of_nil in Hi.
  - intros (s & Hs & _). done.
Qed.

(** What [execute] leaves: the events are well formed, and when it
    returns, the list handed to [_post_run] holds, at each position, the
    one record assigned to the state at that position, which has been
    delivered to the Watch callbacks once. *)
Lemma execute_spec h self request skip_failed include_failed init fuel w res :
  (∀ s s', s_text s = s_text s' → request s = request s') →
  fresh_states init →
  execute fuel h self request skip_failed include_failed init w = Some res →
  match res with
  | (inl e, tr, w') =>
      trace_ok h self skip_failed include_failed (map request init) tr
  | (inr result, tr, w') =>
      trace_ok h self skip_failed include_failed (map request init) tr ∧
      ∃ raw w0,
        length raw = length init ∧
        (∀ i, i < length init →
           ∃ c s0, raw !! i = Some c ∧ init !! i = Some s0 ∧
             records_at i (assigned tr) = [c] ∧
             records_at i (delivered tr) = [c] ∧
             c_params c = Some (s_params s0)) ∧
        _post_run h self
          (if skip_failed then List.filter (λ c, negb (c_failed c)) raw else raw)
          w0 = (inr result, w')
  end.
Proof.
  intros Hreq Hfresh. unfold execute.
  destruct (prime h self init) as [e|states] eqn:Hprime.
  { intros [= <-]. apply trace_ok_nil. }
  assert (Hhead : loop_head h self init states (seq 0 (length states)) []).
  { apply prime_spec in Hprime as [[-> ->]|(g & Hg & ->)].
    - apply loop_head_nil.
    - by apply loop_head_primed. }
  destruct (while_pending fuel h self request skip_failed include_failed
              states (seq 0 (length states)) [] w) as [[[r tr] w1]|] eqn:Hloop;
    [|done].
  pose proof (while_pending_spec h self request skip_failed include_failed init
                fuel Hreq _ _ _ _ _
                (trace_ok_nil h self skip_failed include_failed _) Hhead Hloop)
    as Hspec.
  destruct r as [e|states1].
  { intros [= <-]. done. }
  destruct Hspec as [Htr Hdone].
  unfold collect.
  destruct (_post_run h self
              (if skip_failed
               then List.filter (λ c, negb (c_failed c)) (omap s_completion states1)
               else omap s_completion states1) w1) as [[e|result] w2] eqn:Hpost.
  { intros [= <-]. done. }
  intros [= <-]. split; [done|].
  apply loop_head_done in Hdone as [Hlen Hall].
  exists (omap s_completion states1), w1. split; [done|]. split; [|done].
  intros i Hi. destruct (Hall i Hi) as (s & c & Hs & Hc & Hraw & Hok & Hw).
  destruct Hok as [(s0 & Hs0 & _ & Hp) Hst]. rewrite Hc, Hw in Hst.
  destruct Hst as (_ & Has & Hdel & Hpar).
  exists c, s0. rewrite <- Hp. done.
Qed.

Lemma fit_params_length self count params fitted :
  _fit_params self count params = inr fitted →
  Z.of_nat (length fitted) = count.
Proof.
  unfold _fit_params. case_bool_decide as Hlen; [|done].
  intros [= <-]. rewrite length_map.
  destruct (p_params self); [by rewrite length_map|done].
Qed.

Lemma batch_states_fresh many fitted : fresh_states (batch_states many fitted).
Proof.
  unfold fresh_states, batch_states. revert fitted.
  induction many as [|m many IH]; intros [|p fitted]; simpl; try constructor; auto.
Qed.

Lemma many_states_fresh self fitted : fresh_states (many_states self fitted).
Proof.
  unfold fresh_states, many_states.
  induction fitted as [|p fitted IH]; simpl; constructor; auto.
Qed.

Lemma batch_states_requests self many fitted :
  length fitted = length many →
  map (λ s, p_text self +:+ s_text s) (batch_states many fitted) =
  map (λ m, p_text self +:+ m) many.
Proof.
  unfold batch_states. revert fitted.
  induction many as [|m many IH]; intros [|p fitted]; simpl; try done.
  intros [= Hlen]. f_equal. by apply IH.
Qed.


(** [run_batch] either stops on a configuration error before anything
    happened, or runs [execute] on the states of its inputs. *)
Lemma run_batch_cases fuel h self many params skip_failed include_failed w r :
  run_batch fuel h self many params skip_failed include_failed w = Some r →
  (∃ what, r = (inl (ValueError what), [], w)) ∨
  ∃ fitted,
    _fit_params self (Z.of_nat (length many)) params = inr fitted ∧
    length fitted = length many ∧
    execute fuel h self (λ s, p_text self +:+ s_text s)
      skip_failed include_failed (batch_states many fitted) w = Some r.
Proof.
  unfold run_batch.
  destruct (skip_failed && include_failed).
  { intros [= <-]. left. by eexists. }
  destruct (_fit_params self (Z.of_nat (length many)) params) as [e|fitted] eqn:Hfit.
  { unfold _fit_params in Hfit. case_bool_decide; [done|].
    simplify_eq. intros [= <-]. left. by eexists. }
  intros Hex. right. exists fitted. split; [done|]. split; [|done].
  apply fit_params_length in Hfit. lia.
Qed.

Lemma run_many_cases fuel h self count params skip_failed include_failed w r :
  run_many fuel h self count params skip_failed include_failed w = Some r →
  (∃ what, r = (inl (ValueError what), [], w)) ∨
  ∃ fitted,
    _fit_params self count params = inr fitted ∧
    Z.of_nat (length fitted) = count ∧
    execute fuel h self s_text
      skip_failed include_failed (many_states self fitted) w = Some r.
Proof.
  unfold run_many.
  destruct (skip_failed && include_failed).
  { intros [= <-]. left. by eexists. }
  destruct (_fit_params self count params) as [e|fitted] eqn:Hfit.
  { unfold _fit_params in Hfit. case_bool_decide; [done|].
    simplify_eq. intros [= <-]. left. by eexists. }
  intros Hex. right. exists fitted. split; [done|]. split; [|done].
  by apply fit_params_length in Hfit.
Qed.

Lemma run_batch_trace_ok fuel h self many params skip_failed include_failed
    w res tr w' :
  run_batch fuel h self many params skip_failed include_failed w
    = Some (res, tr, w') →
  trace_ok h self skip_failed include_failed
    (map (λ m, p_text self +:+ m) many) tr.
Proof.
  intros Hrun. apply run_batch_cases in Hrun as [[what Hr]|(fitted & Hfit & Hlen & Hex)].
  - simplify_eq. apply trace_ok_nil.
  - apply execute_spec in Hex.
    + rewrite batch_states_requests in Hex by done.
      destruct res; [done|]. by destruct Hex.
    + intros s s' Hs. by rewrite Hs.
    + apply batch_states_fresh.
Qed.

Lemma run_many_trace_ok fuel h self count params skip_failed include_failed
    w res tr w' :
  run_many fuel h self count params skip_failed include_failed w
    = Some (res, tr, w') →
  trace_ok h self skip_failed include_failed
    (replicate (Z.to_nat count) (p_text self)) tr.
Proof.
  intros Hrun. apply run_many_cases in Hrun as [[what Hr]|(fitted & Hfit & Hlen & Hex)].
  - simplify_eq. apply trace_ok_nil.
  - apply execute_spec in Hex.
    + assert (Hreq : map s_text (many_states self fitted) =
                     replicate (Z.to_nat count) (p_text self)).
      { rewrite <- Hlen, Nat2Z.id. unfold many_states. clear.
        induction fitted; simpl; [done|]. by f_equal. }
      rewrite Hreq in Hex. destruct res; [done|]. by destruct Hex.
    + done.
    + apply many_states_fresh.
Qed.

End RunFacts.

Section PostRunFacts.
Context `{External}.
Implicit Types (h : gmap loc Obj) (self : CompletionPipeline) (w : World).

Lemma gather_then_length then_callback completions w news w' :
  gather_then then_callback completions w = (inr news, w') →
  length news = length completions.
Proof.
  revert w news. induction completions as [|c cs IH]; intros w news; simpl.
  { by intros [= <- _]. }
  destruct (then_callback c w) as [new w1].
  specialize (IH w1). destruct (gather_then then_callback cs w1) as [rest w2].
  destruct new as [e|new], rest as [e'|rest]; intros Heq; simplify_eq.
  simpl. f_equal. by eapply IH.
Qed.

Lemma for_then_callbacks_length cbs : ∀ completions w result w',
  for_then_callbacks cbs completions w = (inr result, w') →
  length result = length completions.
Proof.
  induction cbs as [|cb cbs IH]; intros completions w result w'; simpl.
  { by intros [= <- _]. }
  pose proof (gather_then_length cb completions w) as Hg.
  destruct (gather_then cb completions w) as [[e|news] w1]; [done|].
  intros Hrest. apply IH in Hrest. rewrite Hrest, length_zip_with.
  specialize (Hg news w1 eq_refl). lia.
Qed.

(** The Map callbacks are chained: a callback added at the end receives
    the list the earlier ones produced. *)
Lemma for_map_callbacks_snoc cbs map_callback completions w :
  for_map_callbacks (cbs ++ [map_callback]) completions w =
  match for_map_callbacks cbs completions w with
  | (inl e, w) => (inl e, w)
  | (inr completions, w) =>
      match map_callback completions w with
      | (inl e, w) => (inl (CallbackError e), w)
      | (inr completions, w) => (inr completions, w)
      end
  end.
Proof.
  revert completions w. induction cbs as [|cb cbs IH]; intros completions w; simpl.
  - by destruct (map_callback completions w) as [[e|cs] w1].
  - destruct (cb completions w) as [[e|cs1] w1]; [done|]. apply IH.
Qed.

(** The Then callbacks run in registration order, each over the list
    the earlier ones left. *)
Lemma for_then_callbacks_snoc cbs then_callback completions w :
  for_then_callbacks (cbs ++ [then_callback]) completions w =
  match for_then_callbacks cbs completions w with
  | (inl e, w) => (inl e, w)
  | (inr completions, w) =>
      match gather_then then_callback completions w with
      | (inl e, w) => (inl e, w)
      | (inr new_completions, w) =>
          (inr (zip_with new_or_chat new_completions completions), w)
      end
  end.
Proof.
  revert completions w. induction cbs as [|cb cbs IH]; intros completions w; simpl.
  - by destruct (gather_then then_callback completions w) as [[e|news] w1].
  - destruct (gather_then cb completions w) as [[e|news] w1]; [done|]. apply IH.
Qed.

(** A replacement that is not empty takes the place of the record; no
    replacement keeps it. *)
Lemma new_or_chat_spec new chat :
  new_or_chat new chat =
  match new with
  | Some n => if (Completion_len n =? 0)%nat then chat else n
  | None => chat
  end.
Proof.
  destruct new as [n|]; [|done]. unfold new_or_chat, Completion_bool.
  by destruct (Completion_len n =? 0)%nat.
Qed.

Lemma post_run_no_callbacks h self completions w :
  map_list h (p_map_callbacks self) = [] →
  then_list h (p_then_callbacks self) = [] →
  _post_run h self completions w = (inr completions, w).
Proof. intros Hm Ht. unfold _post_run. by rewrite Hm, Ht. Qed.

Lemma post_run_no_map h self completions w :
  map_list h (p_map_callbacks self) = [] →
  _post_run h self completions w =
  for_then_callbacks (then_list h (p_then_callbacks self)) completions w.
Proof. intros Hm. unfold _post_run. by rewrite Hm. Qed.

Lemma assigned_elem tr i c :
  (i, c) ∈ assigned tr ↔ ∃ chunk r, EvSend i chunk r (Some c) ∈ tr.
Proof.
  unfold assigned. rewrite list_elem_of_omap. split.
  - intros (ev & Hin & Hev). destruct ev as [| j chunk r [c'|] | |]; simplify_eq.
    eauto.
  - intros (chunk & r & Hin). by exists (EvSend i chunk r (Some c)).
Qed.

(** The verdict of the validators is the answer of the last one. *)
Lemma for_until_callbacks_snoc h self generated cbs callback use_all_text
    max_rounds should_retry w :
  for_until_callbacks h self generated
    (cbs ++ [(callback, use_all_text, max_rounds)]) should_retry w =
  match for_until_callbacks h self generated cbs should_retry w with
  | (inl e, w1) => (inl e, w1)
  | (inr _, w1) =>
      call_until h callback
        (if use_all_text then p_text self +:+ generated else generated) w1
  end.
Proof.
  revert should_retry w.
  induction cbs as [|[[cb ua] m] cbs IH]; intros should_retry w; simpl.
  - by destruct (call_until h callback _ w) as [[e|r] w1].
  - destruct (call_until h cb _ w) as [[e|r] w1]; [done|]. apply IH.
Qed.

End PostRunFacts.

Section SendVerdict.
Context `{External}.
Implicit Types (h : gmap loc Obj) (self : CompletionPipeline) (w : World).

(** A round of the retry loop in which no validator raises is decided
    by the answer of the last registered validator, given after all the
    others have run and whatever they answered: accept finishes with
    the chunk, retry below the ceiling waits for another chunk, retry
    at the ceiling raises the exhaustion error with the chunk. *)
Lemma process_send_decided_by_last h self cbs callback use_all_text max_rounds
    lowest current_round chunk w :
  until_list h (p_until_callbacks self)
    = cbs ++ [(callback, use_all_text, max_rounds)] →
  _process_send h self (AtLoopYield lowest current_round) chunk w =
  match for_until_callbacks h self chunk cbs true w with
  | (inl e, w1) => (Raise e, w1)
  | (inr _, w1) =>
      match call_until h callback
              (if use_all_text then p_text self +:+ chunk else chunk) w1 with
      | (inl e, w2) => (Raise e, w2)
      | (inr retry, w2) =>
          (if retry
           then if (current_round <? lowest)%Z
                then Yield (AtLoopYield lowest (current_round + 1))
                else Raise (CompletionExhaustedMaxRoundsError lowest chunk)
           else StopIteration (Some chunk), w2)
      end
  end.
Proof.
  intros Hlist. unfold _process_send. rewrite Hlist, for_until_callbacks_snoc.
  destruct (for_until_callbacks h self chunk cbs true w) as [[e|r] w1]; [done|].
  destruct (call_until h callback _ _) as [[e|retry] w2]; [done|].
  destruct retry; simpl; [|done].
  by destruct (current_round <? lowest)%Z.
Qed.

End SendVerdict.

(** ** The claims about the engine *)

Section EngineClaims.
Context `{External}.
Implicit Types (h : gmap loc Obj) (self : CompletionPipeline) (w : World).

(** Every execution leaves well-formed events; the requests are those
    of its states. *)
Lemma runs_trace_ok fuel h self skip_failed include_failed w res tr w' :
  runs fuel h self skip_failed include_failed w (res, tr, w') →
  ∃ requests, trace_ok h self skip_failed include_failed requests tr.
Proof.
  intros [(many & params & Hrun)|(count & params & Hrun)].
  - eexists. by eapply run_batch_trace_ok.
  - eexists. by eapply run_many_trace_ok.
Qed.

(** When an execution returns, the records handed to [_post_run] are,
    position by position, the records assigned to the states, each
    delivered once. *)
Lemma runs_returned fuel h self skip_failed include_failed w result tr w' :
  runs fuel h self skip_failed include_failed w (inr result, tr, w') →
  ∃ raw w0,
    (∀ i, i < length raw →
       ∃ c, raw !! i = Some c ∧
         records_at i (assigned tr) = [c] ∧
         records_at i (delivered tr) = [c]) ∧
    (∀ i c, (i, c) ∈ assigned tr → i < length raw) ∧
    _post_run h self
      (if skip_failed then List.filter (λ c, negb (c_failed c)) raw else raw)
      w0 = (inr result, w').
Proof.
  intros [(many & params & Hrun)|(count & params & Hrun)].
  - pose proof (run_batch_trace_ok _ _ _ _ _ _ _ _ _ _ _ Hrun) as Htr.
    apply run_batch_cases in Hrun as [[what Hr]|(fitted & Hfit & Hlen & Hex)];
      [done|].
    apply execute_spec in Hex;
      [|intros s s' Hs; by rewrite Hs|apply batch_states_fresh].
    destruct Hex as (_ & raw & w0 & Hraw & Hall & Hpost).
    exists raw, w0. split; [|split; [|done]].
    + intros i Hi. rewrite Hraw in Hi.
      destruct (Hall i Hi) as (c & s0 & ? & ? & ? & ? & ?). eauto.
    + intros i c Hin. destruct Htr as (_ & Hlt & _).
      eapply Forall_forall in Hlt; [|done]. simpl in Hlt.
      rewrite length_map in Hlt. rewrite Hraw.
      unfold batch_states. rewrite length_zip_with. lia.
  - pose proof (run_many_trace_ok _ _ _ _ _ _ _ _ _ _ _ Hrun) as Htr.
    apply run_many_cases in Hrun as [[what Hr]|(fitted & Hfit & Hlen & Hex)];
      [done|].
    apply execute_spec in Hex; [|done|apply many_states_fresh].
    destruct Hex as (_ & raw & w0 & Hraw & Hall & Hpost).
    exists raw, w0. split; [|split; [|done]].
    + intros i Hi. rewrite Hraw in Hi.
      destruct (Hall i Hi) as (c & s0 & ? & ? & ? & ? & ?). eauto.
    + intros i c Hin. destruct Htr as (_ & Hlt & _).
      eapply Forall_forall in Hlt; [|done]. simpl in Hlt.
      rewrite length_replicate in Hlt. rewrite Hraw.
      unfold many_states. rewrite length_map. lia.
Qed.


(** Failed records come from exhaustion, and without Map and Then
    callbacks the returned records are the assigned ones. *)
Lemma runs_failed_records fuel h self
    skip_failed include_failed w res tr w' :
  runs fuel h self skip_failed include_failed w (res, tr, w') →
  (∀ i c, (i, c) ∈ assigned tr → c_failed c = true →
     skip_failed || include_failed = true ∧
     last (sent i tr) = Some (c_generated c) ∧
     ∃ m, EvSend i (c_generated c)
            (Raise (CompletionExhaustedMaxRoundsError m (c_generated c)))
            (Some c) ∈ tr) ∧
  (∀ result, res = inr result →
     map_list h (p_map_callbacks self) = [] →
     then_list h (p_then_callbacks self) = [] →
     ∀ c, c ∈ result →
       (∃ i, (i, c) ∈ assigned tr) ∧
       (c_failed c = true → skip_failed = false ∧ include_failed = true)).
Proof.
  intros Hruns.
  destruct (runs_trace_ok _ _ _ _ _ _ _ _ _ Hruns)
    as (requests & Hsend & _ & _ & _ & _ & _ & _ & Hlast & _).
  assert (Hfailed : ∀ i c, (i, c) ∈ assigned tr → c_failed c = true →
     skip_failed || include_failed = true ∧
     last (sent i tr) = Some (c_generated c) ∧
     ∃ m, EvSend i (c_generated c)
            (Raise (CompletionExhaustedMaxRoundsError m (c_generated c)))
            (Some c) ∈ tr).
  { intros i c Hin Hf. pose proof (Hlast i c Hin) as Hl.
    apply assigned_elem in Hin as (chunk & r & Hev).
    pose proof Hev as Hok. eapply Forall_forall in Hok; [|exact Hsend].
    simpl in Hok. destruct Hok as (_ & Hg & _ & _ & [[Hnf _]|(_ & Hflags & m & ->)]).
    - congruence.
    - subst chunk. split; [done|]. split; [done|]. by exists m. }
  split; [done|].
  intros result -> Hmap Hthen c Hc.
  destruct (runs_returned _ _ _ _ _ _ _ _ _ Hruns) as (raw & w0 & Hall & _ & Hpost).
  rewrite post_run_no_callbacks in Hpost by done. simplify_eq.
  assert (Hraw : c ∈ raw ∧ (skip_failed = true → c_failed c = false)).
  { destruct skip_failed.
    - apply elem_of_List_filter in Hc as [Hc Hnf]. split; [done|].
      intros _. by destruct (c_failed c).
    - done. }
  destruct Hraw as [Hin Hskip].
  apply list_elem_of_lookup in Hin as [i Hi].
  destruct (Hall i (lookup_lt_Some _ _ _ Hi)) as (c' & Hc' & Has & _).
  simplify_eq.
  assert (Hasg : (i, c) ∈ assigned tr).
  { apply records_at_elem. rewrite Has. by apply list_elem_of_singleton. }
  split; [by exists i|].
  intros Hf. destruct (Hfailed i c Hasg Hf) as (Hflags & _).
  destruct skip_failed; [by rewrite Hskip in Hf|]. done.
Qed.

(** [run] is [run_many] for one request with [include_failed] set to
    [allow_failed]; it returns the first record. *)
Lemma run_is_run_many fuel h self allow_failed w res tr w' :
  run fuel h self allow_failed w = Some (res, tr, w') →
  ∃ res',
    run_many fuel h self 1 None false allow_failed w = Some (res', tr, w') ∧
    ∀ c, res = inr c → ∃ rest, res' = inr (c :: rest).
Proof.
  unfold run.
  destruct (run_many fuel h self 1 None false allow_failed w)
    as [[[[e|[|c rest]] tr0] w0]|]; intros Hr; simplify_eq.
  - eexists. split; [done|]. done.
  - eexists. split; [done|]. done.
  - eexists. split; [done|]. intros c' [= <-]. by eexists.
Qed.

(** The record that [run] returns, on a pipeline without Map and Then
    callbacks, is failed only under [allow_failed] and only when its
    processor raised the exhaustion error on the last chunk. *)
Lemma run_failed_record fuel h self allow_failed w c tr w' :
  run fuel h self allow_failed w = Some (inr c, tr, w') →
  map_list h (p_map_callbacks self) = [] →
  then_list h (p_then_callbacks self) = [] →
  ∃ i, (i, c) ∈ assigned tr ∧
    (c_failed c = true →
     allow_failed = true ∧
     last (sent i tr) = Some (c_generated c) ∧
     ∃ m, EvSend i (c_generated c)
            (Raise (CompletionExhaustedMaxRoundsError m (c_generated c)))
            (Some c) ∈ tr).
Proof.
  intros Hrun Hmap Hthen.
  apply run_is_run_many in Hrun as (res' & Hmany & Hres).
  destruct (Hres c eq_refl) as [rest ->].
  assert (Hruns : runs fuel h self false allow_failed w (inr (c :: rest), tr, w')).
  { right. eauto. }
  destruct (runs_failed_records _ _ _ _ _ _ _ _ _ Hruns) as [Hfailed Hret].
  destruct (Hret _ eq_refl Hmap Hthen c (list_elem_of_here _ _)) as [[i Hi] Hflag].
  exists i. split; [done|]. intros Hf.
  destruct (Hfailed i c Hi Hf) as (_ & Hl & Hev).
  destruct (Hflag Hf) as [_ ->]. done.
Qed.


(** C8.  [run_many] and [run_batch] called with both [skip_failed] and
    [include_failed], or with a [params] sequence whose length is not
    the number of items, raise [ValueError] whatever the fuel: no
    event has happened (no backend call, no callback) and the world is
    as it was. *)
Theorem C8_configuration_errors_come_first fuel h self count params
    skip_failed include_failed w :
  (skip_failed = true ∧ include_failed = true) ∨
  (∃ ps, params = Some ps ∧ Z.of_nat (length ps) ≠ count) →
  let what :=
    if skip_failed && include_failed then BothSkipAndInclude
    else ParamsCount count in
  run_many fuel h self count params skip_failed include_failed w
    = Some (inl (ValueError what), [], w) ∧
  ∀ many, Z.of_nat (length many) = count →
    run_batch fuel h self many params skip_failed include_failed w
      = Some (inl (ValueError what), [], w).
Proof.
  intros Hbad what. subst what. unfold run_many, run_batch.
  destruct (skip_failed && include_failed) eqn:Hflags.
  { split; [done|]. by intros many _. }
  destruct Hbad as [[-> ->]|(ps & -> & Hlen)]; [done|].
  assert (Hfit : _fit_params self count (Some ps)
                 = inl (ValueError (ParamsCount count))).
  { unfold _fit_params. by rewrite bool_decide_eq_false_2. }
  split.
  - by rewrite Hfit.
  - intros many ->. by rewrite Hfit.
Qed.

End EngineClaims.

(** ** Termination and the round bound *)

Section Termination.
Context `{External}.
Implicit Types (h : gmap loc Obj) (self : CompletionPipeline) (w : World).

Lemma deliver_event h self skip_failed include_failed inbound i s w :
  ∃ r a, (deliver h self skip_failed include_failed inbound i s w).1.2
         = EvSend i (g_text inbound) r a.
Proof.
  unfold deliver.
  destruct (_process_send h self (s_processor s) (g_text inbound) w) as [r w'].
  destruct r as [g|[v|]|e]; simpl; eauto.
  destruct e; simpl; eauto.
  destruct (negb skip_failed && negb include_failed); simpl; eauto.
Qed.

(** The routing loop sends one chunk to every position it is given. *)
Lemma route_sends h self skip_failed include_failed pairs :
  ∀ states tr w states' tr' w',
  route h self skip_failed include_failed pairs states tr w
    = (inr states', tr', w') →
  (∀ i, i ∈ pairs.*2 → is_Some (states !! i)) →
  ∀ i, length (sent i tr) ≤ length (sent i tr') ∧
       (i ∈ pairs.*2 → length (sent i tr) < length (sent i tr')).
Proof.
  induction pairs as [|[inbound k] rest IH];
    intros states tr w states' tr' w' Hroute Hall i.
  - simpl in Hroute. simplify_eq. split; [done|].
    intros Hi. by apply elem_of_nil in Hi.
  - simpl in Hroute.
    destruct (Hall k) as [s Hs]; [simpl; apply elem_of_cons; by left|].
    rewrite Hs in Hroute.
    destruct (deliver_event h self skip_failed include_failed inbound k s w)
      as (r & a & Hev).
    destruct (deliver h self skip_failed include_failed inbound k s w)
      as [[res ev] w1].
    simpl in Hev. subst ev. destruct res as [e|s1]; [done|].
    apply IH with (i := i) in Hroute.
    + rewrite sent_snoc, length_app in Hroute. destruct Hroute as [Hle Hlt].
      split; [lia|]. simpl. intros Hi.
      apply elem_of_cons in Hi as [->|Hi].
      * rewrite decide_True in Hle by done. simpl in Hle. lia.
      * specialize (Hlt Hi). lia.
    + intros j Hj. destruct (decide (k = j)) as [<-|Hne].
      * rewrite list_lookup_insert_eq; [by eexists|]. by eapply lookup_lt_Some.
      * rewrite list_lookup_insert_ne by done. apply Hall.
        simpl. apply elem_of_cons. by right.
Qed.

(** Under the contract of the backend, a turn of the loop sends a chunk
    to every state that is still pending after it. *)
Lemma one_round_sends h self request skip_failed include_failed init
    states pending tr w states' pending' tr' w' :
  answers_every_request →
  loop_head h self init states pending tr →
  one_round h self request skip_failed include_failed states pending tr w
    = (inr (states', pending'), tr', w') →
  ∀ i, i ∈ pending' →
    i ∈ pending ∧ length (sent i tr) < length (sent i tr').
Proof.
  intros Hcontract (Hlen & Hok & Hwatched & Hsub & Hpend).
  unfold one_round.
  set (texts := map request (omap (λ i, states !! i) pending)).
  set (params := map s_params (omap (λ i, states !! i) pending)).
  destruct (generate_texts (p_generator self) texts params w) as [r w1] eqn:Hgen.
  destruct r as [e|inbounds]; [done|].
  apply Hcontract in Hgen.
  assert (Htexts : length texts = length pending).
  { unfold texts. rewrite length_map.
    clear -Hpend. assert (Hall : ∀ i, i ∈ pending → is_Some (states !! i)).
    { intros i Hi. destruct (proj1 (Hpend i) Hi) as (s & -> & _). by eexists. }
    clear Hpend. induction pending as [|i pending IH]; [done|]. simpl.
    destruct (Hall i) as [s ->]; [apply elem_of_cons; by left|]. simpl.
    f_equal. apply IH. intros j Hj. apply Hall. apply elem_of_cons. by right. }
  destruct (route h self skip_failed include_failed (zip inbounds pending)
              states (tr ++ [EvGenerate texts params (inr inbounds)]) w1)
    as [[res tr2] w2] eqn:Hroute.
  destruct res as [e|states2]; [done|].
  fold (newly_finished states2).
  pose proof (gather_watch_spec (watch_list h (p_watch_callbacks self))
                (map snd (newly_finished states2)) w2) as Hcalls.
  unfold _watch_callback.
  destruct (gather_watch (watch_list h (p_watch_callbacks self))
              (map snd (newly_finished states2)) w2) as [[raised calls] w3].
  destruct Hcalls as (Hcalls & _).
  destruct raised; [done|].
  intros [= <- <- <- <-] i Hi.
  apply elem_of_List_filter in Hi as [Hi _].
  assert (Hz : (zip inbounds pending).*2 = pending).
  { apply snd_zip. lia. }
  split; [done|].
  eapply route_sends with (i := i) in Hroute.
  - destruct Hroute as [_ Hlt]. rewrite Hz in Hlt. specialize (Hlt Hi).
    destruct (quiet_calls calls Hcalls) as (_ & _ & _ & _ & Esent).
    rewrite cons_middle, app_assoc, sent_app, Esent, app_nil_r.
    rewrite !sent_snoc, !app_nil_r in *. done.
  - rewrite Hz. intros j Hj.
    destruct (proj1 (Hpend j) Hj) as (s & -> & _). by eexists.
Qed.

(** Under the contract of the backend the loop ends within the round
    budget. *)
Lemma while_pending_terminates h self request skip_failed include_failed init :
  answers_every_request →
  (∀ s s', s_text s = s_text s' → request s = request s') →
  ∀ fuel states pending tr w,
  trace_ok h self skip_failed include_failed (map request init) tr →
  loop_head h self init states pending tr →
  (∀ i, i ∈ pending → round_budget h self ≤ length (sent i tr) + fuel) →
  is_Some (while_pending fuel h self request skip_failed include_failed
             states pending tr w).
Proof.
  intros Hcontract Hreq.
  induction fuel as [|fuel IH]; intros states pending tr w Htr Hhead Hfuel.
  - destruct pending as [|i pending]; [by eexists|]. exfalso.
    destruct Hhead as (_ & Hok & _ & _ & Hpend).
    destruct (proj1 (Hpend i)) as (s & Hs & Hnone); [apply elem_of_cons; by left|].
    destruct (Hok i s Hs) as [_ Hst]. rewrite Hnone in Hst.
    destruct Hst as (_ & _ & _ & Hlive).
    destruct (send_live h self _ _ ""%string w Hlive) as [Hbound _].
    specialize (Hfuel i (list_elem_of_here _ _)).
    unfold round_budget in Hfuel. lia.
  - destruct pending as [|i pending]; [by eexists|].
    simpl.
    pose proof (one_round_spec h self request skip_failed include_failed init
                  states (i :: pending) tr w Hreq Htr Hhead) as Hround.
    pose proof (one_round_sends h self request skip_failed include_failed init
                  states (i :: pending) tr w) as Hsends.
    destruct (one_round h self request skip_failed include_failed
                states (i :: pending) tr w) as [[[e|[states' pending']] tr'] w'].
    + by eexists.
    + destruct Hround as [Htr' Hhead']. apply IH; try done.
      intros j Hj.
      destruct (Hsends _ _ _ _ Hcontract Hhead eq_refl j Hj) as [Hjp Hlt].
      specialize (Hfuel j Hjp). lia.
Qed.

(** Under the contract of the backend, [execute] gives a result as soon
    as the fuel covers the round budget. *)
Lemma execute_terminates h self request skip_failed include_failed init fuel w :
  answers_every_request →
  (∀ s s', s_text s = s_text s' → request s = request s') →
  fresh_states init →
  round_budget h self ≤ fuel →
  is_Some (execute fuel h self request skip_failed include_failed init w).
Proof.
  intros Hcontract Hreq Hfresh Hfuel. unfold execute.
  destruct (prime h self init) as [e|states] eqn:Hprime; [by eexists|].
  assert (Hhead : loop_head h self init states (seq 0 (length states)) []).
  { apply prime_spec in Hprime as [[-> ->]|(g & Hg & ->)].
    - apply loop_head_nil.
    - by apply loop_head_primed. }
  destruct (while_pending_terminates h self request skip_failed include_failed
              init Hcontract Hreq fuel states (seq 0 (length states)) [] w
              (trace_ok_nil _ _ _ _ _) Hhead) as [[[r tr] w1] Hloop].
  { intros i _. simpl. lia. }
  rewrite Hloop. destruct r; by eexists.
Qed.

(** Under the contract of the backend, [run_batch] and [run_many] give
    a result, returned or raised, as soon as the fuel covers the round
    budget. *)
Lemma run_batch_terminates fuel h self many params skip_failed include_failed w :
  answers_every_request →
  round_budget h self ≤ fuel →
  is_Some (run_batch fuel h self many params skip_failed include_failed w).
Proof.
  intros Hcontract Hfuel. unfold run_batch.
  destruct (skip_failed && include_failed); [by eexists|].
  destruct (_fit_params self (Z.of_nat (length many)) params); [by eexists|].
  apply execute_terminates; try done.
  - intros s s' Hs. by rewrite Hs.
  - apply batch_states_fresh.
Qed.

Lemma run_many_terminates fuel h self count params skip_failed include_failed w :
  answers_every_request →
  round_budget h self ≤ fuel →
  is_Some (run_many fuel h self count params skip_failed include_failed w).
Proof.
  intros Hcontract Hfuel. unfold run_many.
  destruct (skip_failed && include_failed); [by eexists|].
  destruct (_fit_params self count params); [by eexists|].
  apply execute_terminates; try done.
  apply many_states_fresh.
Qed.

(** In every execution no request takes part in more backend rounds
    than the round budget. *)
Lemma runs_round_bound fuel h self skip_failed include_failed w res tr w' i :
  runs fuel h self skip_failed include_failed w (res, tr, w') →
  length (sent i tr) ≤ round_budget h self.
Proof.
  intros Hruns.
  destruct (runs_trace_ok _ _ _ _ _ _ _ _ _ Hruns)
    as (requests & _ & _ & _ & _ & _ & _ & Hb & _).
  specialize (Hb i). unfold round_budget. lia.
Qed.

End Termination.

(** ** The claims settled by running the code *)

Section Evaluations.
Import Demo.
Local Open Scope string_scope.

(** C1.  A pipeline with the two validators [always_retry] and
    [always_accept], in this order.  In its first round the first
    validator answers retry for the chunk, and yet the processor
    finishes with that chunk as its value: the answer of the last
    validator alone decides, so the round does not end in a retry and
    [run] returns a record that is not failed. *)
Theorem C1_last_validator_alone_decides :
  let '(p, h) := retry_then_accept 5 in
  ∃ self c tr,
    pipeline h p = Some self ∧
    length (until_list h (p_until_callbacks self)) = 2 ∧
    call_until h always_retry "x" 0 = (inr true, 0) ∧
    call_until h always_accept "x" 0 = (inr false, 0) ∧
    _process_next h self = inr (AtLoopYield 5 1) ∧
    _process_send h self (AtLoopYield 5 1) "x" 0 = (StopIteration (Some "x"), 0) ∧
    run 5 h self false 0 = Some (inr c, tr, 1) ∧
    c_generated c = "Q" ∧ c_failed c = false ∧ sent 0 tr = ["Q"].
Proof.
  vm_compute. do 3 eexists. repeat split; reflexivity.
Qed.

(** C2.  The same two validators with [max_rounds=1]: in round one, which
    is the ceiling, [always_retry] still asks for a retry, and the
    request is finalized with a record that is not failed instead of
    ending exhausted. *)
Theorem C2_ceiling_reached_yet_finalized :
  let '(p, h) := retry_then_accept 1 in
  ∃ self c tr,
    pipeline h p = Some self ∧
    lowest_max_rounds (until_list h (p_until_callbacks self)) = 1%Z ∧
    call_until h always_retry "Q" 0 = (inr true, 0) ∧
    run 5 h self false 0 = Some (inr c, tr, 1) ∧
    sent 0 tr = ["Q"] ∧ c_generated c = "Q" ∧ c_failed c = false.
Proof.
  vm_compute. do 3 eexists. repeat split; reflexivity.
Qed.

(** C5.  A pipeline with the Then callbacks [then_blank] and
    [then_mark], post-processing the record [hello_world].
    [then_blank] returns a record that is not [None] but has length
    zero, so [new or chat] keeps the original: [then_mark] sees the
    original, and the original with the mark is returned, where the
    replacement with the mark was described. *)
Theorem C5_empty_replacement_is_dropped :
  let '(p, h) := blank_then_mark in
  ∃ self,
    pipeline h p = Some self ∧
    gather_then then_blank [hello_world] 0
      = (inr [Some (blank hello_world)], 0) ∧
    _post_run h self [hello_world] 0 =
      (inr [with_generated "World!" hello_world], 0) ∧
    _post_run_as_described h self [hello_world] 0 =
      (inr [with_generated "!" (blank hello_world)], 0).
Proof.
  vm_compute. eexists. repeat split; reflexivity.
Qed.

(** C6.  A pipeline with one Watch callback is cloned and a second Watch
    callback is registered on the clone: the clone holds the very list
    object of the source, and the source's list has grown. *)
Theorem C6_watch_on_clone_reaches_source :
  let '(p, c, h1, h2) := watch_on_clone in
  ∃ source cl clone,
    c = Some cl ∧ cl ≠ p ∧
    pipeline h1 p = Some source ∧ pipeline h1 cl = Some clone ∧
    pipeline h2 p = Some source ∧
    p_watch_callbacks clone = p_watch_callbacks source ∧
    map watch_id (watch_list h1 (p_watch_callbacks source)) = [1] ∧
    map watch_id (watch_list h2 (p_watch_callbacks source)) = [1; 2].
Proof.
  vm_compute. do 3 eexists. repeat split; try reflexivity. discriminate.
Qed.




(** C8 on [one_chance]: both flags, and one parameter overlay for two
    items, without any fuel. *)
Lemma C8_configuration_errors_witness :
    pipeline one_chance.2 one_chance.1 = Some (first_pipeline "") ∧
    (run_many 0 one_chance.2 (first_pipeline "") 2 (Some [None]) true true 7
       = Some (inl (ValueError BothSkipAndInclude), [], 7) ∧
     ∀ many, Z.of_nat (length many) = 2%Z →
       run_batch 0 one_chance.2 (first_pipeline "") many (Some [None]) true true 7
         = Some (inl (ValueError BothSkipAndInclude), [], 7)) ∧
    (run_many 0 one_chance.2 (first_pipeline "") 2 (Some [None]) false true 7
       = Some (inl (ValueError (ParamsCount 2)), [], 7) ∧
     ∀ many, Z.of_nat (length many) = 2%Z →
       run_batch 0 one_chance.2 (first_pipeline "") many (Some [None]) false true 7
         = Some (inl (ValueError (ParamsCount 2)), [], 7)).
Proof.
  split; [vm_compute; reflexivity|]. split.
  - apply (C8_configuration_errors_come_first 0 one_chance.2 (first_pipeline "") 2
             (Some [None]) true true 7).
    left. split; reflexivity.
  - apply (C8_configuration_errors_come_first 0 one_chance.2 (first_pipeline "") 2
             (Some [None]) false true 7).
    right. exists [None]. split; [reflexivity|]. simpl. lia.
Defined.

End Evaluations.

(** ** Properties of the rounds of an execution *)

Section TurnFacts.
Context `{External}.
Implicit Types (h : gmap loc Obj) (self : CompletionPipeline) (w : World).

Lemma live_waiting h self g n : live h self g n → g = waiting h self n.
Proof.
  unfold waiting. destruct g as [| |lo cr|]; simpl; try done.
  - by intros [-> ->].
  - intros (Hne & -> & Hcr & Hn).
    destruct (until_list h (p_until_callbacks self)); [done|].
    f_equal. lia.
Qed.

Lemma snoc_split {A} (tr : list A) ev tr1 x tr2 :
  tr ++ [ev] = tr1 ++ x :: tr2 →
  (tr2 = [] ∧ tr1 = tr ∧ x = ev) ∨
  (∃ tr2', tr2 = tr2' ++ [ev] ∧ tr = tr1 ++ x :: tr2').
Proof.
  destruct tr2 as [|y tr2 _] using rev_ind.
  - intros Heq. apply app_inj_tail in Heq as [-> ->]. by left.
  - intros Heq. right. exists tr2.
    rewrite app_comm_cons, app_assoc in Heq.
    by apply app_inj_tail in Heq as [-> ->].
Qed.

Lemma sends_in_turn_nil h self : sends_in_turn h self [].
Proof. intros tr1 i chunk r a tr2 Heq. by destruct tr1. Qed.

Lemma sends_in_turn_snoc h self tr ev :
  sends_in_turn h self tr →
  match ev with
  | EvSend i chunk r a =>
      ∃ w, r = (_process_send h self (waiting h self (length (sent i tr))) chunk w).1
  | _ => True
  end →
  sends_in_turn h self (tr ++ [ev]).
Proof.
  intros Htr Hev tr1 i chunk r a tr2 Heq.
  apply snoc_split in Heq as [(-> & -> & <-)|(tr2' & -> & ->)].
  - done.
  - by eapply Htr.
Qed.

Lemma sends_in_turn_calls h self tr calls :
  sends_in_turn h self tr → Forall is_watch_call calls →
  sends_in_turn h self (tr ++ calls).
Proof.
  intros Htr. induction calls as [|ev calls IH] using rev_ind; intros Hcalls.
  - by rewrite app_nil_r.
  - apply Forall_app in Hcalls as [Hcalls Hev]. rewrite Forall_singleton in Hev.
    rewrite app_assoc. apply sends_in_turn_snoc; [by apply IH|].
    destruct ev; simpl in *; done.
Qed.

End TurnFacts.

Section RouteTurns.
Context `{External}.
Implicit Types (h : gmap loc Obj) (self : CompletionPipeline) (w : World).

Lemma deliver_turn h self skip_failed include_failed inbound i s n w :
  live h self (s_processor s) n →
  ∃ r a,
    (deliver h self skip_failed include_failed inbound i s w).1.2
      = EvSend i (g_text inbound) r a ∧
    r = (_process_send h self (waiting h self n) (g_text inbound) w).1 ∧
    match (deliver h self skip_failed include_failed inbound i s w).1.1 with
    | inl e =>
        r = Raise e ∧ a = None ∧
        ((skip_failed = false ∧ include_failed = false ∧
          e = CompletionExhaustedMaxRoundsError
                (lowest_max_rounds (until_list h (p_until_callbacks self)))
                (g_text inbound) ∧
          Z.of_nat (S n) = lowest_max_rounds (until_list h (p_until_callbacks self))) ∨
         ∃ u, e = CallbackError u)
    | inr _ => True
    end.
Proof.
  intros Hlive. rewrite <- (live_waiting _ _ _ _ Hlive).
  unfold deliver.
  destruct (s_processor s) as [| |lo cr|]; simpl in Hlive; try done.
  - simpl. by do 2 eexists.
  - destruct Hlive as (Hne & -> & Hcr & Hn). simpl.
    set (cbs := until_list h (p_until_callbacks self)) in *.
    pose proof (for_until_callbacks_raises h self (g_text inbound) cbs true w)
      as Hraise.
    destruct (for_until_callbacks h self (g_text inbound) cbs true w)
      as [[e|retry] w'].
    { destruct (Hraise e eq_refl) as [u ->]. simpl. do 2 eexists.
      split; [done|]. split; [done|]. split; [done|]. split; [done|].
      right. by exists u. }
    destruct retry; simpl.
    + destruct (cr <? lowest_max_rounds cbs)%Z eqn:Hlt; simpl.
      * by do 2 eexists.
      * apply Z.ltb_ge in Hlt.
        destruct skip_failed, include_failed; simpl; do 2 eexists;
          (split; [done|]); (split; [done|]); try done.
        split; [done|]. split; [done|]. left. repeat split; try done. lia.
    + by do 2 eexists.
Qed.

Lemma route_turns h self skip_failed include_failed init requests pairs :
  ∀ states tr w,
  trace_ok h self skip_failed include_failed requests tr →
  (∀ j s, states !! j = Some s → state_ok h self init tr j s) →
  (∀ inbound i, (inbound, i) ∈ pairs →
     ∃ t, requests !! i = Some t ∧ (t, g_text inbound) ∈ answered tr) →
  NoDup pairs.*2 →
  (∀ i, i ∈ pairs.*2 → ∃ s, states !! i = Some s ∧ s_completion s = None) →
  sends_in_turn h self tr →
  match route h self skip_failed include_failed pairs states tr w with
  | (inl e, tr', w') =>
      sends_in_turn h self tr' ∧
      ((skip_failed = false ∧ include_failed = false ∧ exhausted_at h self e tr') ∨
       validator_raised e tr')
  | (inr states', tr', w') => sends_in_turn h self tr'
  end.
Proof.
  induction pairs as [|[inbound i] rest IH];
    intros states tr w Htr Hst Hans Hnd Hpend Hturn.
  - done.
  - simpl in Hnd. apply NoDup_cons in Hnd as [Hi Hnd].
    destruct (Hpend i) as (s & Hs & Hnone); [simpl; apply elem_of_cons; by left|].
    simpl. rewrite Hs.
    destruct (deliver_step h self skip_failed include_failed init requests tr
                inbound i s w Htr (Hans inbound i (list_elem_of_here _ _))
                (Hst i s Hs) Hnone)
      as (r & a & Hev & Htr' & Hres).
    assert (Hlive : live h self (s_processor s) (length (sent i tr))).
    { destruct (Hst i s Hs) as [_ Hok]. rewrite Hnone in Hok.
      by destruct Hok as (_ & _ & _ & ?). }
    destruct (deliver_turn h self skip_failed include_failed inbound i s _ w Hlive)
      as (r' & a' & Hev' & Hr' & Hraise).
    destruct (deliver h self skip_failed include_failed inbound i s w)
      as [[res ev] w'] eqn:Edel.
    simpl in Hev, Hres, Hev', Hraise. subst ev. injection Hev' as <- <-.
    assert (Hturn' : sends_in_turn h self
              (tr ++ [EvSend i (g_text inbound) r a])).
    { apply sends_in_turn_snoc; [done|]. by exists w. }
    destruct res as [e|s'].
    { split; [done|].
      destruct Hraise as (Hr & -> & [(-> & -> & He & Hn)|[u ->]]).
      - left. split; [done|]. split; [done|].
        exists tr, i, (g_text inbound). split; [by rewrite Hr|]. split; [done|].
        rewrite sent_snoc, decide_True, length_app by done. simpl. lia.
      - right. exists tr, i, (g_text inbound), u. by rewrite Hr. }
    destruct Hres as [Hs' _].
    apply IH; try done.
    + intros j sj Hj. destruct (decide (i = j)) as [<-|Hne].
      * rewrite list_lookup_insert_eq in Hj by (by eapply lookup_lt_Some).
        by simplify_eq.
      * rewrite list_lookup_insert_ne in Hj by done.
        apply state_ok_send_other; [done|]. by apply Hst.
    + intros inbound' k Hk. rewrite answered_snoc, app_nil_r.
      apply Hans. apply elem_of_cons. by right.
    + intros k Hk. destruct (decide (i = k)) as [<-|Hne]; [done|].
      rewrite list_lookup_insert_ne by done. apply Hpend.
      simpl. apply elem_of_cons. by right.
Qed.

End RouteTurns.

Section Shape.
Context `{External}.
Implicit Types (h : gmap loc Obj) (self : CompletionPipeline) (w : World).

Lemma route_shape h self skip_failed include_failed pairs :
  ∀ states tr w,
  ∃ sends, Forall is_send sends ∧
    (route h self skip_failed include_failed pairs states tr w).1.2 = tr ++ sends.
Proof.
  induction pairs as [|[inbound i] rest IH]; intros states tr w; simpl.
  - exists []. by rewrite app_nil_r.
  - destruct (states !! i) as [s|]; [|apply IH].
    destruct (deliver_event h self skip_failed include_failed inbound i s w)
      as (r & a & Hev).
    destruct (deliver h self skip_failed include_failed inbound i s w)
      as [[res ev] w1].
    simpl in Hev. subst ev. destruct res as [e|s1]; simpl.
    + eexists [_]. split; [|done]. by repeat constructor.
    + destruct (IH (<[i:=s1]> states) (tr ++ [EvSend i (g_text inbound) r a]) w1)
        as (sends & Hall & ->).
      exists (EvSend i (g_text inbound) r a :: sends).
      split; [by constructor|]. by rewrite <- app_assoc.
Qed.

(** Induction over the turns of the loop. *)
Lemma while_pending_ind
    (P : list RunState → list nat → list Event → Prop)
    (E : Exn → list Event → World → Prop)
    h self request skip_failed include_failed :
  (∀ states pending tr w, pending ≠ [] → P states pending tr →
     match one_round h self request skip_failed include_failed
             states pending tr w with
     | (inl e, tr', w') => E e tr' w'
     | (inr (states', pending'), tr', w') => P states' pending' tr'
     end) →
  ∀ fuel states pending tr w res,
    P states pending tr →
    while_pending fuel h self request skip_failed include_failed
      states pending tr w = Some res →
    match res with
    | (inl e, tr', w') => E e tr' w'
    | (inr states', tr', w') => P states' [] tr'
    end.
Proof.
  intros Hstep. induction fuel as [|fuel IH]; intros states pending tr w res HP.
  - simpl. destruct pending; [|done]. by intros [= <-].
  - simpl. destruct pending as [|i pending]; [by intros [= <-]|].
    specialize (Hstep states (i :: pending) tr w).
    destruct (one_round h self request skip_failed include_failed
                states (i :: pending) tr w) as [[[e|[states' pending']] tr'] w'].
    + intros [= <-]. by apply Hstep.
    + apply IH. by apply Hstep.
Qed.

(** At the head of the loop, once the backend has answered, the routing
    loop finds what it needs. *)
Lemma round_ready h self request init states pending tr params inbounds :
  (∀ s s', s_text s = s_text s' → request s = request s') →
  loop_head h self init states pending tr →
  let texts := map request (omap (λ i, states !! i) pending) in
  let tr1 := tr ++ [EvGenerate texts params (inr inbounds)] in
  (∀ j s, states !! j = Some s → state_ok h self init tr1 j s) ∧
  (∀ inbound i, (inbound, i) ∈ zip inbounds pending →
     ∃ t, map request init !! i = Some t ∧ (t, g_text inbound) ∈ answered tr1) ∧
  NoDup (zip inbounds pending).*2 ∧
  (∀ i, i ∈ (zip inbounds pending).*2 →
     ∃ s, states !! i = Some s ∧ s_completion s = None).
Proof.
  intros Hreq (Hlen & Hok & Hwatched & Hsub & Hpend) texts tr1.
  assert (Hnd : NoDup pending).
  { eapply sublist_NoDup; [apply NoDup_seq|done]. }
  assert (Hz : (zip inbounds pending).*2 `sublist_of` pending)
    by apply zip_snd_sublist.
  split; [|split; [|split]].
  - intros j s Hj. apply state_ok_generate. by apply Hok.
  - intros inbound i Hin.
    apply list_elem_of_lookup in Hin as [j Hj].
    apply lookup_zip_with_Some in Hj as (inb & i' & Heq & Hinb & Hi).
    simplify_eq.
    assert (Hpi : i' ∈ pending) by (apply list_elem_of_lookup; eauto).
    destruct (proj1 (Hpend i') Hpi) as (s & Hs & _).
    destruct (Hok i' s Hs) as [(s0 & Hs0 & Ht & _) _].
    exists (request s0). split; [by rewrite list_lookup_fmap, Hs0|].
    unfold tr1. rewrite answered_snoc. apply elem_of_app. right.
    apply list_elem_of_lookup. exists j.
    apply lookup_zip_with_Some. exists (request s), (g_text inb).
    split; [by rewrite (Hreq s s0 Ht)|]. split.
    + unfold texts. rewrite list_lookup_fmap.
      rewrite (omap_lookup_total states pending) with (i := i'); try done.
      * by rewrite Hs.
      * intros k Hk. destruct (proj1 (Hpend k) Hk) as (sk & -> & _).
        by eexists.
    + by rewrite list_lookup_fmap, Hinb.
  - by eapply sublist_NoDup.
  - intros i Hi. apply Hpend. by eapply elem_of_sublist.
Qed.

Lemma delivered_sends sends : Forall is_send sends → delivered sends = [].
Proof.
  induction 1 as [|ev sends Hev _ IH]; [done|].
  by destruct ev.
Qed.

(** After the routing loop, the states that are finished and not yet
    watched are those that got their record from the sends of this
    turn. *)
Lemma routed_newly_finished h self skip_failed include_failed requests init
    states pending tr texts params inbounds sends states2 :
  trace_ok h self skip_failed include_failed requests tr →
  length requests = length init →
  loop_head h self init states pending tr →
  Forall is_send sends →
  trace_ok h self skip_failed include_failed requests
    ((tr ++ [EvGenerate texts params (inr inbounds)]) ++ sends) →
  length states2 = length states →
  (∀ j s, states2 !! j = Some s →
     state_ok h self init
       ((tr ++ [EvGenerate texts params (inr inbounds)]) ++ sends) j s) →
  ∀ x, x ∈ newly_finished states2 ↔ x ∈ assigned sends.
Proof.
  intros Htr Hreqs (Hlen & Hok & Hwatched & Hsub & Hpend) Hsends Htr2 Hlen2 Hok2.
  assert (Has : assigned ((tr ++ [EvGenerate texts params (inr inbounds)]) ++ sends)
                = assigned tr ++ assigned sends).
  { by rewrite assigned_app, assigned_snoc, app_nil_r. }
  assert (Hdel : delivered ((tr ++ [EvGenerate texts params (inr inbounds)]) ++ sends)
                 = delivered tr).
  { by rewrite delivered_app, delivered_snoc, (delivered_sends sends), !app_nil_r. }
  intros [i c]. rewrite newly_finished_elem. split.
  - intros (s2 & Hs2 & Hc & Hw).
    destruct (Hok2 i s2 Hs2) as [_ Hst2]. rewrite Hc, Hw, Has, Hdel in Hst2.
    destruct Hst2 as (_ & Hrec & Hnodel & _).
    assert (Hin : (i, c) ∈ assigned tr ++ assigned sends).
    { apply records_at_elem. rewrite Hrec. by apply list_elem_of_singleton. }
    apply elem_of_app in Hin as [Hin|Hin]; [|done]. exfalso.
    assert (Hi : i < length states).
    { rewrite Hlen, <- Hreqs. destruct Htr as (_ & Hlt & _).
      eapply Forall_forall in Hlt; [|done]. done. }
    destruct (lookup_lt_is_Some_2 _ _ Hi) as [s Hs].
    destruct (Hok i s Hs) as [_ Hst0].
    destruct (s_completion s) as [c0|] eqn:Hc0.
    + rewrite (Hwatched i s Hs) in Hst0 by (by rewrite Hc0).
      destruct Hst0 as (_ & _ & Hd0 & _). by rewrite Hd0 in Hnodel.
    + destruct Hst0 as (_ & Hr0 & _).
      apply records_at_elem in Hin. rewrite Hr0 in Hin. by apply elem_of_nil in Hin.
  - intros Hin.
    assert (Hin2 : (i, c) ∈ assigned tr ++ assigned sends)
      by (apply elem_of_app; by right).
    assert (Hi : i < length states2).
    { rewrite Hlen2, Hlen, <- Hreqs. destruct Htr2 as (_ & Hlt & _).
      rewrite Has in Hlt.
      eapply Forall_forall in Hlt; [|done]. done. }
    destruct (lookup_lt_is_Some_2 _ _ Hi) as [s2 Hs2].
    exists s2. split; [done|].
    destruct (Hok2 i s2 Hs2) as [_ Hst2]. rewrite Has, Hdel in Hst2.
    destruct (s_completion s2) as [c2|] eqn:Hc2.
    + destruct Hst2 as (_ & Hrec & Hd2 & _).
      apply records_at_elem in Hin2. rewrite Hrec in Hin2.
      apply list_elem_of_singleton in Hin2. subst c2. split; [done|].
      destruct (s_watched s2); [|done]. exfalso.
      assert (Hd : (i, c) ∈ delivered tr).
      { apply records_at_elem. rewrite Hd2. by apply list_elem_of_singleton. }
      destruct Htr as (_ & _ & _ & _ & Hda & _). apply Hda in Hd.
      destruct Htr2 as (_ & _ & Hnd2 & _). rewrite Has, fmap_app in Hnd2.
      apply NoDup_app in Hnd2 as (_ & Hdisj & _).
      apply (Hdisj i); apply list_elem_of_fmap; by exists (i, c).
    + destruct Hst2 as (_ & Hrec & _).
      apply records_at_elem in Hin2. rewrite Hrec in Hin2.
      by apply elem_of_nil in Hin2.
Qed.

(** [_watch_callback] raises what the first Watch callback that raised
    has raised. *)
Lemma gather_watch_raised cbs completions : ∀ w,
  (gather_watch cbs completions w).1.1
  = CallbackError <$> first_raised (gather_watch cbs completions w).1.2.
Proof.
  induction cbs as [|cb cbs IH]; intros w; simpl; [done|].
  destruct (watch_call cb completions w) as [raised w1].
  specialize (IH w1).
  destruct (gather_watch cbs completions w1) as [[later calls] w2].
  simpl in *. by destruct raised.
Qed.

(** The events of one turn of the loop, and how it can end. *)
Lemma one_round_events h self request skip_failed include_failed init
    states pending tr w :
  (∀ s s', s_text s = s_text s' → request s = request s') →
  trace_ok h self skip_failed include_failed (map request init) tr →
  loop_head h self init states pending tr →
  sends_in_turn h self tr →
  let texts := map request (omap (λ i, states !! i) pending) in
  let params := map s_params (omap (λ i, states !! i) pending) in
  let ids := watch_ids h self in
  match one_round h self request skip_failed include_failed
          states pending tr w with
  | (inl e, tr', w') =>
      sends_in_turn h self tr' ∧
      ((∃ answer sends, Forall is_send sends ∧
          tr' = tr ++ EvGenerate texts params answer :: sends ∧
          (backend_failed self e tr' w' ∨
           (skip_failed = false ∧ include_failed = false ∧
            exhausted_at h self e tr') ∨
           validator_raised e tr')) ∨
       (∃ round u, whole_round ids texts params (Some u) round ∧
          e = CallbackError u ∧ tr' = tr ++ round))
  | (inr _, tr', w') =>
      sends_in_turn h self tr' ∧
      ∃ round, whole_round ids texts params None round ∧ tr' = tr ++ round
  end.
Proof.
  intros Hreq Htr Hhead Hturn texts params ids.
  pose proof Hhead as (Hlen & Hok & Hwatched & Hsub & Hpend).
  unfold one_round. fold texts. fold params.
  destruct (generate_texts (p_generator self) texts params w) as [r w1] eqn:Hgen.
  assert (Htr1 : trace_ok h self skip_failed include_failed (map request init)
                   (tr ++ [EvGenerate texts params r])).
  { apply trace_ok_generate; [done|].
    apply pending_texts_sublist; try done.
    intros i s Hs. destruct (Hok i s Hs) as [(s0 & ? & ? & ?) _]. eauto. }
  assert (Hturn1 : sends_in_turn h self (tr ++ [EvGenerate texts params r])).
  { by apply sends_in_turn_snoc. }
  destruct r as [be|inbounds].
  { split; [done|]. left. exists (inl be), []. split; [constructor|].
    split; [done|]. left. by exists tr, texts, params, be, w. }
  destruct (round_ready h self request init states pending tr params inbounds
              Hreq Hhead)
    as (Hst & Hans & Hnd & Hp).
  pose proof (route_turns h self skip_failed include_failed init
                (map request init) (zip inbounds pending) states
                (tr ++ [EvGenerate texts params (inr inbounds)]) w1
                Htr1 Hst Hans Hnd Hp Hturn1) as Hroute_turn.
  pose proof (route_spec h self skip_failed include_failed init
                (map request init) (zip inbounds pending) states
                (tr ++ [EvGenerate texts params (inr inbounds)]) w1
                Htr1 Hst Hans Hnd Hp) as Hroute.
  destruct (route_shape h self skip_failed include_failed (zip inbounds pending)
              states (tr ++ [EvGenerate texts params (inr inbounds)]) w1)
    as (sends & Hsends & Htr2).
  destruct (route h self skip_failed include_failed (zip inbounds pending)
              states (tr ++ [EvGenerate texts params (inr inbounds)]) w1)
    as [[[e|states2] tr2] w2]; simpl in Htr2; subst tr2.
  { destruct Hroute_turn as [Hturn2 Hend]. split; [done|]. left.
    exists (inr inbounds), sends. split; [done|].
    split; [by rewrite <- app_assoc|]. right. done. }
  destruct Hroute as (Htr2 & Hlen2 & Hok2 & _).
  fold (newly_finished states2).
  pose proof (routed_newly_finished h self skip_failed include_failed
                (map request init) init states pending tr texts params inbounds
                sends states2 Htr (length_map _ _) Hhead Hsends Htr2 Hlen2 Hok2)
    as Hd.
  pose proof (gather_watch_spec (watch_list h (p_watch_callbacks self))
                (map snd (newly_finished states2)) w2) as Hcalls.
  pose proof (gather_watch_raised (watch_list h (p_watch_callbacks self))
                (map snd (newly_finished states2)) w2) as Hraised.
  unfold _watch_callback.
  destruct (gather_watch (watch_list h (p_watch_callbacks self))
              (map snd (newly_finished states2)) w2) as [[raised calls] w3].
  destruct Hcalls as (Hcalls & Hids & _). simpl in Hraised.
  assert (Hturn3 : sends_in_turn h self
            (((tr ++ [EvGenerate texts params (inr inbounds)]) ++ sends)
               ++ EvWatch (newly_finished states2) :: calls)).
  { rewrite cons_middle, app_assoc. apply sends_in_turn_calls; [|done].
    by apply sends_in_turn_snoc. }
  assert (Hround : whole_round ids texts params (first_raised calls)
            (EvGenerate texts params (inr inbounds)
               :: sends ++ EvWatch (newly_finished states2) :: calls)).
  { exists inbounds, sends, (newly_finished states2), calls.
    split; [done|]. split; [done|]. split; [done|]. split; [done|].
    split; [|done]. rewrite Hids. unfold ids, watch_ids. by rewrite map_map. }
  assert (Heq : ((tr ++ [EvGenerate texts params (inr inbounds)]) ++ sends)
                  ++ EvWatch (newly_finished states2) :: calls
                = tr ++ EvGenerate texts params (inr inbounds)
                     :: sends ++ EvWatch (newly_finished states2) :: calls).
  { by rewrite <- !app_assoc. }
  destruct (first_raised calls) as [u|]; simpl in Hraised; subst raised.
  - split; [done|]. right. eexists _, u. split; [done|]. split; [done|]. done.
  - split; [done|]. eexists. split; [done|]. done.
Qed.

End Shape.

Section Exec.
Context `{External}.
Implicit Types (h : gmap loc Obj) (self : CompletionPipeline) (w : World).

(** Priming fails only on the first state, when validators are
    registered and the lowest [max_rounds] is not positive: the
    generator reaches its [raise] with [generated] unassigned. *)
Lemma prime_raises h self states e :
  prime h self states = inl e →
  states ≠ [] ∧ e = UnboundLocalError "generated" ∧
  until_list h (p_until_callbacks self) ≠ [] ∧
  (lowest_max_rounds (until_list h (p_until_callbacks self)) ≤ 0)%Z.
Proof.
  assert (Hnext : ∀ e', _process_next h self = inl e' →
            e' = UnboundLocalError "generated" ∧
            until_list h (p_until_callbacks self) ≠ [] ∧
            (lowest_max_rounds (until_list h (p_until_callbacks self)) ≤ 0)%Z).
  { intros e'. unfold _process_next.
    destruct (until_list h (p_until_callbacks self)) as [|c cbs]; [done|].
    set (lo := lowest_max_rounds (c :: cbs)).
    destruct (0 <? lo)%Z eqn:Hlt; [done|]. apply Z.ltb_ge in Hlt.
    intros [= <-]. done. }
  induction states as [|s states IH]; simpl; [done|].
  destruct (_process_next h self) as [e'|g] eqn:Hg.
  - intros [= <-]. split; [done|]. by apply Hnext.
  - destruct (prime h self states) as [e'|rest]; [|done].
    intros [= <-]. destruct (IH eq_refl) as (_ & ? & ? & ?). done.
Qed.

(** Post-processing raises nothing but what a Map or Then callback
    raised. *)
Lemma gather_then_raises then_callback completions : ∀ w e w',
  gather_then then_callback completions w = (inl e, w') →
  ∃ u, e = CallbackError u.
Proof.
  induction completions as [|c cs IH]; intros w e w'; simpl; [done|].
  destruct (then_callback c w) as [new w1].
  specialize (IH w1). destruct (gather_then then_callback cs w1) as [news w2].
  destruct new as [u|new].
  - intros [= <- _]. by exists u.
  - destruct news as [e'|news]; [|done]. intros [= <- _]. by eapply IH.
Qed.

Lemma for_then_callbacks_raises cbs : ∀ completions w e w',
  for_then_callbacks cbs completions w = (inl e, w') →
  ∃ u, e = CallbackError u.
Proof.
  induction cbs as [|cb cbs IH]; intros completions w e w'; simpl; [done|].
  pose proof (gather_then_raises cb completions w) as Hg.
  destruct (gather_then cb completions w) as [[e'|news] w1].
  - intros [= <- _]. by eapply Hg.
  - apply IH.
Qed.

Lemma for_map_callbacks_raises cbs : ∀ completions w e w',
  for_map_callbacks cbs completions w = (inl e, w') →
  ∃ u, e = CallbackError u.
Proof.
  induction cbs as [|cb cbs IH]; intros completions w e w'; simpl; [done|].
  destruct (cb completions w) as [[u|cs] w1].
  - intros [= <- _]. by exists u.
  - apply IH.
Qed.

Lemma post_run_raises h self completions w e w' :
  _post_run h self completions w = (inl e, w') →
  (∃ u, e = CallbackError u) ∧
  (map_list h (p_map_callbacks self) ≠ [] ∨
   then_list h (p_then_callbacks self) ≠ []).
Proof.
  unfold _post_run.
  pose proof (for_map_callbacks_raises (map_list h (p_map_callbacks self))
                completions w) as Hm.
  destruct (for_map_callbacks (map_list h (p_map_callbacks self)) completions w)
    as [[e'|cs] w1] eqn:Emap.
  - intros [= <- _]. split; [by eapply Hm|]. left. intros Hnil.
    by rewrite Hnil in Emap.
  - intros Hthen. split; [by eapply for_then_callbacks_raises|].
    right. intros Hnil. by rewrite Hnil in Hthen.
Qed.

Lemma rounds_cut_short ids tr texts params answer sends :
  rounds ids tr → Forall is_send sends →
  cut_short ids (tr ++ EvGenerate texts params answer :: sends).
Proof. intros. by exists tr, texts, params, answer, sends. Qed.

(** What [execute] leaves, round by round. *)
Lemma execute_events h self request skip_failed include_failed init fuel w res :
  (∀ s s', s_text s = s_text s' → request s = request s') →
  fresh_states init →
  execute fuel h self request skip_failed include_failed init w = Some res →
  match res with
  | (inl e, tr, w') =>
      sends_in_turn h self tr ∧
      ((e = UnboundLocalError "generated" ∧ tr = [] ∧ w' = w ∧ init ≠ [] ∧
        until_list h (p_until_callbacks self) ≠ [] ∧
        (lowest_max_rounds (until_list h (p_until_callbacks self)) ≤ 0)%Z) ∨
       raised_in_rounds h self skip_failed include_failed e tr w')
  | (inr result, tr, w') =>
      sends_in_turn h self tr ∧ rounds (watch_ids h self) tr
  end.
Proof.
  intros Hreq Hfresh. unfold execute.
  destruct (prime h self init) as [e|states] eqn:Hprime.
  { intros [= <-]. split; [apply sends_in_turn_nil|]. left.
    apply prime_raises in Hprime as (? & ? & ? & ?). done. }
  assert (Hhead : loop_head h self init states (seq 0 (length states)) []).
  { apply prime_spec in Hprime as [[-> ->]|(g & Hg & ->)].
    - apply loop_head_nil.
    - by apply loop_head_primed. }
  destruct (while_pending fuel h self request skip_failed include_failed
              states (seq 0 (length states)) [] w) as [[[r tr] w1]|] eqn:Hloop;
    [|done].
  pose proof (while_pending_ind
    (λ states pending tr,
       trace_ok h self skip_failed include_failed (map request init) tr ∧
       loop_head h self init states pending tr ∧
       sends_in_turn h self tr ∧ rounds (watch_ids h self) tr)
    (λ e tr w',
       sends_in_turn h self tr ∧
       ((cut_short (watch_ids h self) tr ∧
         (backend_failed self e tr w' ∨
          (skip_failed = false ∧ include_failed = false ∧
           exhausted_at h self e tr) ∨
          validator_raised e tr)) ∨
        watch_raised (watch_ids h self) e tr))
    h self request skip_failed include_failed) as Hind.
  simpl in Hind.
  eapply Hind in Hloop.
  - destruct r as [e|states1].
    + intros [= <-]. destruct Hloop as [Hturn Hend]. split; [done|]. right.
      destruct Hend as [?|?]; [by left|right; by left].
    + unfold collect.
      destruct (_post_run _ _ _ _) as [[e|result] w2] eqn:Hpost.
      * intros [= <-]. destruct Hloop as (_ & _ & Hturn & Hrounds).
        split; [done|]. right. right. right. split; [done|].
        destruct (post_run_raises _ _ _ _ _ _ Hpost) as [[u ->] _].
        by eexists _, _, u.
      * intros [= <-]. by destruct Hloop as (_ & _ & ? & ?).
  - clear -Hreq. intros states pending tr w _ (Htr & Hhead & Hturn & Hrounds).
    pose proof (one_round_spec h self request skip_failed include_failed init
                  states pending tr w Hreq Htr Hhead) as Hspec.
    pose proof (one_round_events h self request skip_failed include_failed init
                  states pending tr w Hreq Htr Hhead Hturn) as Hev.
    simpl in Hev.
    destruct (one_round h self request skip_failed include_failed
                states pending tr w) as [[[e|[states' pending']] tr'] w'].
    + destruct Hev as [Hturn' Hend]. split; [done|].
      destruct Hend as [(answer & sends & Hsends & -> & Hwhy)
                       |(round & u & Hround & -> & ->)].
      * left. split; [by apply rounds_cut_short|done].
      * right. by eexists tr, _, _, round, u.
    + destruct Hspec as [? ?]. destruct Hev as [Hturn' (round & Hround & ->)].
      split; [done|]. split; [done|]. split; [done|].
      by econstructor.
  - split; [apply trace_ok_nil|]. split; [done|].
    split; [apply sends_in_turn_nil|constructor].
Qed.

End Exec.

Section RunsEvents.
Context `{External}.
Implicit Types (h : gmap loc Obj) (self : CompletionPipeline) (w : World).

(** What the events of an execution of [run_many] or [run_batch] look
    like, and how it can end. *)
Lemma runs_events fuel h self skip_failed include_failed w res tr w' :
  runs fuel h self skip_failed include_failed w (res, tr, w') →
  sends_in_turn h self tr ∧
  match res with
  | inl e =>
      (∃ what, e = ValueError what ∧ tr = [] ∧ w' = w) ∨
      (e = UnboundLocalError "generated" ∧ tr = [] ∧ w' = w ∧
       until_list h (p_until_callbacks self) ≠ [] ∧
       (lowest_max_rounds (until_list h (p_until_callbacks self)) ≤ 0)%Z) ∨
      raised_in_rounds h self skip_failed include_failed e tr w'
  | inr _ => rounds (watch_ids h self) tr
  end.
Proof.
  assert (Hex : ∀ request init,
    (∀ s s', s_text s = s_text s' → request s = request s') →
    fresh_states init →
    execute fuel h self request skip_failed include_failed init w
      = Some (res, tr, w') →
    sends_in_turn h self tr ∧
    match res with
    | inl e =>
        (∃ what, e = ValueError what ∧ tr = [] ∧ w' = w) ∨
        (e = UnboundLocalError "generated" ∧ tr = [] ∧ w' = w ∧
         until_list h (p_until_callbacks self) ≠ [] ∧
         (lowest_max_rounds (until_list h (p_until_callbacks self)) ≤ 0)%Z) ∨
        raised_in_rounds h self skip_failed include_failed e tr w'
    | inr _ => rounds (watch_ids h self) tr
    end).
  { intros request init Hreq Hfresh Hrun.
    apply execute_events in Hrun; [|done..].
    destruct res as [e|result]; [|done].
    destruct Hrun as [Hturn [(? & ? & ? & _ & ? & ?)|?]].
    - split; [done|]. right. left. done.
    - split; [done|]. right. right. done. }
  intros [(many & params & Hrun)|(count & params & Hrun)].
  - apply run_batch_cases in Hrun as [[what Hr]|(fitted & Hfit & Hlen & Hrun)].
    + simplify_eq. split; [apply sends_in_turn_nil|]. left. by exists what.
    + apply (Hex (λ s, p_text self +:+ s_text s) (batch_states many fitted));
        [|apply batch_states_fresh|done].
      intros s s' Hs. by rewrite Hs.
  - apply run_many_cases in Hrun as [[what Hr]|(fitted & Hfit & Hlen & Hrun)].
    + simplify_eq. split; [apply sends_in_turn_nil|]. left. by exists what.
    + apply (Hex s_text (many_states self fitted));
        [done|apply many_states_fresh|done].
Qed.

(** What a waiting processor does with its next chunk. *)
Lemma send_waiting h self n chunk w :
  match (_process_send h self (waiting h self n) chunk w).1 with
  | Yield g =>
      (Z.of_nat (S n) < lowest_max_rounds (until_list h (p_until_callbacks self)))%Z ∧
      g = waiting h self (S n)
  | Raise e =>
      ((lowest_max_rounds (until_list h (p_until_callbacks self)) ≤ Z.of_nat (S n))%Z ∧
       e = CompletionExhaustedMaxRoundsError
             (lowest_max_rounds (until_list h (p_until_callbacks self))) chunk) ∨
      ∃ u, e = CallbackError u
  | StopIteration v => v = Some chunk
  end.
Proof.
  unfold waiting.
  destruct (until_list h (p_until_callbacks self)) as [|c cbs] eqn:Hcbs; [done|].
  set (lo := lowest_max_rounds (c :: cbs)). clearbody lo.
  simpl. rewrite Hcbs.
  pose proof (for_until_callbacks_raises h self chunk (c :: cbs) true w) as Hraise.
  destruct (for_until_callbacks h self chunk (c :: cbs) true w) as [[e|retry] w1].
  { simpl. right. by apply Hraise. }
  destruct retry; simpl; [|done].
  destruct (Z.of_nat n + 1 <? lo)%Z eqn:Hlt; simpl.
  - apply Z.ltb_lt in Hlt. split; [lia|]. f_equal. lia.
  - apply Z.ltb_ge in Hlt. left. split; [lia|done].
Qed.

End RunsEvents.

Section Calls.
Context `{External}.
Implicit Types (h : gmap loc Obj) (self : CompletionPipeline) (w : World).

Lemma generate_calls_sends sends : Forall is_send sends → generate_calls sends = [].
Proof. induction 1 as [|ev sends Hev _ IH]; [done|]. by destruct ev. Qed.

(** One turn of the loop makes one backend call, and it is its first
    event. *)
Lemma one_round_shape h self request skip_failed include_failed
    states pending tr w :
  let texts := map request (omap (λ i, states !! i) pending) in
  let params := map s_params (omap (λ i, states !! i) pending) in
  ∃ answer rest,
    generate_calls rest = [] ∧
    (one_round h self request skip_failed include_failed states pending tr w).1.2
      = tr ++ EvGenerate texts params answer :: rest.
Proof.
  intros texts params. unfold one_round. fold texts. fold params.
  destruct (generate_texts (p_generator self) texts params w) as [[be|inbounds] w1].
  { by exists (inl be), []. }
  destruct (route_shape h self skip_failed include_failed (zip inbounds pending)
              states (tr ++ [EvGenerate texts params (inr inbounds)]) w1)
    as (sends & Hall & Htr).
  destruct (route h self skip_failed include_failed (zip inbounds pending)
              states (tr ++ [EvGenerate texts params (inr inbounds)]) w1)
    as [[[e|states'] tr2] w2]; simpl in Htr; subst tr2.
  { exists (inr inbounds), sends. split; [by apply generate_calls_sends|].
    simpl. by rewrite <- app_assoc. }
  fold (newly_finished states').
  pose proof (gather_watch_spec (watch_list h (p_watch_callbacks self))
                (map snd (newly_finished states')) w2) as Hcalls.
  unfold _watch_callback.
  destruct (gather_watch (watch_list h (p_watch_callbacks self))
              (map snd (newly_finished states')) w2) as [[raised calls] w3].
  destruct Hcalls as (Hcalls & _).
  destruct (quiet_calls calls Hcalls) as (_ & _ & Egen & _).
  exists (inr inbounds), (sends ++ EvWatch (newly_finished states') :: calls).
  split.
  { rewrite generate_calls_app, (generate_calls_sends sends) by done.
    simpl. done. }
  destruct raised; simpl; by rewrite <- !app_assoc.
Qed.

(** Under the contract of the backend, every state that is pending has
    taken part in every backend call so far. *)
Lemma execute_calls h self request skip_failed include_failed init fuel w
    res tr w' :
  answers_every_request →
  (∀ s s', s_text s = s_text s' → request s = request s') →
  fresh_states init →
  execute fuel h self request skip_failed include_failed init w
    = Some (res, tr, w') →
  length (generate_calls tr) ≤ round_budget h self.
Proof.
  intros Hcontract Hreq Hfresh. unfold execute.
  destruct (prime h self init) as [e|states] eqn:Hprime.
  { intros [= <- <- <-]. simpl. lia. }
  assert (Hhead : loop_head h self init states (seq 0 (length states)) []).
  { apply prime_spec in Hprime as [[-> ->]|(g & Hg & ->)].
    - apply loop_head_nil.
    - by apply loop_head_primed. }
  destruct (while_pending fuel h self request skip_failed include_failed
              states (seq 0 (length states)) [] w) as [[[r tr0] w1]|] eqn:Hloop;
    [|done].
  pose proof (while_pending_ind
    (λ states pending tr,
       trace_ok h self skip_failed include_failed (map request init) tr ∧
       loop_head h self init states pending tr ∧
       (∀ i, i ∈ pending → length (generate_calls tr) ≤ length (sent i tr)) ∧
       length (generate_calls tr) ≤ round_budget h self)
    (λ e tr w', length (generate_calls tr) ≤ round_budget h self)
    h self request skip_failed include_failed) as Hind.
  simpl in Hind.
  eapply Hind in Hloop.
  - destruct r as [e|states1].
    + by intros [= <- <- <-].
    + unfold collect. destruct (_post_run _ _ _ _) as [result w2].
      intros [= <- <- <-]. by destruct Hloop as (_ & _ & _ & ?).
  - clear -Hreq Hcontract.
    intros states pending tr w Hne (Htr & Hhead & Hcalls & Hle).
    pose proof (one_round_spec h self request skip_failed include_failed init
                  states pending tr w Hreq Htr Hhead) as Hspec.
    pose proof (one_round_sends h self request skip_failed include_failed init
                  states pending tr w) as Hsends.
    destruct (one_round_shape h self request skip_failed include_failed
                states pending tr w) as (answer & rest & Hrest & Hshape).
    assert (Hnext : S (length (generate_calls tr)) ≤ round_budget h self).
    { destruct pending as [|i pending]; [done|].
      destruct Hhead as (_ & Hok & _ & _ & Hpend).
      destruct (proj1 (Hpend i)) as (s & Hs & Hnone); [apply elem_of_cons; by left|].
      destruct (Hok i s Hs) as [_ Hst]. rewrite Hnone in Hst.
      destruct Hst as (_ & _ & _ & Hlive).
      destruct (send_live h self _ _ ""%string w Hlive) as [Hbound _].
      specialize (Hcalls i (list_elem_of_here _ _)).
      unfold round_budget. lia. }
    assert (Hlen : length (generate_calls
              (tr ++ EvGenerate
                       (map request (omap (λ i, states !! i) pending))
                       (map s_params (omap (λ i, states !! i) pending))
                       answer :: rest))
            = S (length (generate_calls tr))).
    { rewrite generate_calls_app. simpl. rewrite Hrest, length_app. simpl. lia. }
    destruct (one_round h self request skip_failed include_failed
                states pending tr w) as [[[e|[states' pending']] tr'] w'];
      simpl in Hshape; subst tr'; rewrite Hlen.
    + done.
    + destruct Hspec as [Htr' Hhead'].
      split; [done|]. split; [done|]. split; [|done].
      intros i Hi.
      destruct (Hsends _ _ _ _ Hcontract Hhead eq_refl i Hi) as [Hip Hlt].
      specialize (Hcalls i Hip). lia.
  - split; [apply trace_ok_nil|]. split; [done|]. simpl. split; intros; lia.
Qed.

End Calls.

Section CallsExtras.
Context `{External}.
Implicit Types (h : gmap loc Obj) (self : CompletionPipeline) (w : World).

(** X5.  When the backend gives as many answers as it is asked, an
    execution of [run_many] or [run_batch] calls it at most as many
    times as the round budget allows (the lowest [max_rounds], or once
    without validators), however many requests there are and however
    the execution ends. *)
Theorem X5_backend_calls_within_budget fuel h self skip_failed include_failed
    w res tr w' :
  answers_every_request →
  runs fuel h self skip_failed include_failed w (res, tr, w') →
  length (generate_calls tr) ≤ round_budget h self.
Proof.
  intros Hcontract [(many & params & Hrun)|(count & params & Hrun)].
  - apply run_batch_cases in Hrun as [[what Hr]|(fitted & Hfit & Hlen & Hrun)].
    + simplify_eq. simpl. lia.
    + eapply (execute_calls h self (λ s, p_text self +:+ s_text s));
        [done| |apply batch_states_fresh|done].
      intros s s' Hs. by rewrite Hs.
  - apply run_many_cases in Hrun as [[what Hr]|(fitted & Hfit & Hlen & Hrun)].
    + simplify_eq. simpl. lia.
    + by eapply (execute_calls h self s_text);
        [done|done|apply many_states_fresh|].
Qed.

End CallsExtras.

Section Unfinished.
Context `{External}.
Implicit Types (h : gmap loc Obj) (self : CompletionPipeline) (w : World).

(** A sublist of a segment of the numbers is the selection of its
    members. *)
Lemma sublist_seq_filter (P : nat → bool) n : ∀ a l,
  l `sublist_of` seq a n →
  (∀ i, a ≤ i < a + n → (i ∈ l ↔ P i = true)) →
  l = List.filter P (seq a n).
Proof.
  induction n as [|n IH]; intros a l Hsub HP; simpl.
  - by apply sublist_nil_r in Hsub.
  - assert (Hge : ∀ l', l' `sublist_of` seq (S a) n → a ∉ l').
    { intros l' Hl' Ha. eapply elem_of_sublist in Ha; [|done].
      apply elem_of_seq in Ha. lia. }
    apply sublist_cons_r in Hsub as [Hsub|(l' & -> & Hsub)].
    + assert (Hnot : P a = false).
      { destruct (P a) eqn:HPa; [|done]. exfalso.
        apply (Hge l Hsub). apply HP; [lia|done]. }
      rewrite Hnot. apply IH; [done|].
      intros i Hi. apply HP. lia.
    + assert (Hyes : P a = true).
      { apply HP; [lia|]. apply elem_of_cons. by left. }
      rewrite Hyes. f_equal. apply IH; [done|].
      intros i Hi. rewrite <- HP by lia. rewrite elem_of_cons.
      split; [by right|]. intros [->|?]; [lia|done].
Qed.

Lemma unfinished_nil {A} tr (items : list A) :
  assigned tr = [] → unfinished tr items = items.
Proof.
  intros Hnil. unfold unfinished, no_record. rewrite Hnil. simpl.
  apply omap_lookup_seq.
Qed.

(** The pending states at the head of the loop are the states without
    a record. *)
Lemma pending_unfinished {B} h self init states pending tr (f : RunState → B) :
  (∀ s s0, s_text s = s_text s0 → s_params s = s_params s0 → f s = f s0) →
  loop_head h self init states pending tr →
  map f (omap (λ i, states !! i) pending) = unfinished tr (map f init).
Proof.
  intros Hf (Hlen & Hok & _ & Hsub & Hpend).
  assert (Hsel : pending = List.filter (no_record tr) (seq 0 (length states))).
  { apply sublist_seq_filter; [done|].
    intros i [_ Hi]. simpl in Hi. rewrite Hpend.
    destruct (lookup_lt_is_Some_2 _ _ Hi) as [s Hs].
    destruct (Hok i s Hs) as [_ Hst]. unfold no_record.
    split.
    - intros (s' & Hs' & Hnone). simplify_eq. rewrite Hnone in Hst.
      destruct Hst as (_ & -> & _). done.
    - intros Hno. exists s. split; [done|].
      destruct (s_completion s); [|done].
      destruct Hst as (_ & Hrec & _). by rewrite Hrec in Hno. }
  unfold unfinished. rewrite length_map, <- Hlen, Hsel.
  assert (Hall : ∀ i, i ∈ seq 0 (length states) → i < length states).
  { intros i Hi. apply elem_of_seq in Hi. lia. }
  revert Hall. generalize (seq 0 (length states)) as l.
  induction l as [|i l IH]; intros Hall; simpl; [done|].
  assert (Hi : i < length states) by (apply Hall, elem_of_cons; by left).
  destruct (lookup_lt_is_Some_2 _ _ Hi) as [s Hs].
  destruct (Hok i s Hs) as [(s0 & Hs0 & Ht & Hp) _].
  assert (IH' := IH (λ j Hj, Hall j (proj2 (elem_of_cons _ _ _) (or_intror Hj)))).
  destruct (no_record tr i); simpl.
  - rewrite Hs, list_lookup_fmap, Hs0. simpl. rewrite (Hf s s0 Ht Hp).
    f_equal. done.
  - done.
Qed.

Lemma generate_split tr texts params answer rest tr1 texts' params' answer' tr2 :
  generate_calls rest = [] →
  tr ++ EvGenerate texts params answer :: rest
    = tr1 ++ EvGenerate texts' params' answer' :: tr2 →
  (tr1 = tr ∧ texts' = texts ∧ params' = params) ∨
  (∃ tr2', tr = tr1 ++ EvGenerate texts' params' answer' :: tr2').
Proof.
  intros Hrest Heq.
  apply app_eq_app in Heq as [l [[-> Heq]|[-> Heq]]].
  - destruct l as [|ev l]; simpl in Heq.
    + simplify_eq. left. by rewrite app_nil_r.
    + simplify_eq. right. by exists l.
  - destruct l as [|ev l]; simpl in Heq.
    + simplify_eq. left. by rewrite app_nil_r.
    + simplify_eq. rewrite generate_calls_app in Hrest. simpl in Hrest.
      by destruct (generate_calls l).
Qed.

(** Every backend call of [execute] carries the requests and the
    parameters of the states that have no record at that time. *)
Lemma execute_unfinished h self request skip_failed include_failed init fuel w
    res tr w' :
  (∀ s s', s_text s = s_text s' → request s = request s') →
  fresh_states init →
  execute fuel h self request skip_failed include_failed init w
    = Some (res, tr, w') →
  ∀ tr1 texts params answer tr2,
    tr = tr1 ++ EvGenerate texts params answer :: tr2 →
    texts = unfinished tr1 (map request init) ∧
    params = unfinished tr1 (map s_params init).
Proof.
  intros Hreq Hfresh. unfold execute.
  destruct (prime h self init) as [e|states] eqn:Hprime.
  { intros [= <- <- <-] tr1 ????. by destruct tr1. }
  assert (Hhead : loop_head h self init states (seq 0 (length states)) []).
  { apply prime_spec in Hprime as [[-> ->]|(g & Hg & ->)].
    - apply loop_head_nil.
    - by apply loop_head_primed. }
  destruct (while_pending fuel h self request skip_failed include_failed
              states (seq 0 (length states)) [] w) as [[[r tr0] w1]|] eqn:Hloop;
    [|done].
  set (Q := λ tr : list Event, ∀ tr1 texts params answer tr2,
    tr = tr1 ++ EvGenerate texts params answer :: tr2 →
    texts = unfinished tr1 (map request init) ∧
    params = unfinished tr1 (map s_params init)).
  pose proof (while_pending_ind
    (λ states pending tr,
       trace_ok h self skip_failed include_failed (map request init) tr ∧
       loop_head h self init states pending tr ∧ Q tr)
    (λ e tr w', Q tr)
    h self request skip_failed include_failed) as Hind.
  simpl in Hind.
  eapply Hind in Hloop.
  - destruct r as [e|states1].
    + by intros [= <- <- <-].
    + unfold collect. destruct (_post_run _ _ _ _) as [result w2].
      intros [= <- <- <-]. by destruct Hloop as (_ & _ & ?).
  - clear -Hreq.
    intros states pending tr w Hne (Htr & Hhead & HQ).
    pose proof (one_round_spec h self request skip_failed include_failed init
                  states pending tr w Hreq Htr Hhead) as Hspec.
    destruct (one_round_shape h self request skip_failed include_failed
                states pending tr w) as (answer & rest & Hrest & Hshape).
    pose proof (pending_unfinished h self init states pending tr request
                  (λ s s0 Ht _, Hreq s s0 Ht) Hhead) as Ht.
    pose proof (pending_unfinished h self init states pending tr s_params
                  (λ s s0 _ Hp, Hp) Hhead) as Hp.
    assert (Hstep : ∀ answer0 rest0, generate_calls rest0 = [] →
      Q (tr ++ EvGenerate (unfinished tr (map request init))
                 (unfinished tr (map s_params init)) answer0 :: rest0)).
    { intros answer0 rest0 Hrest0 tr1 texts params answer' tr2 Heq.
      apply generate_split in Heq as [(-> & -> & ->)|[tr2' ->]]; [done| |done].
      by eapply HQ. }
    rewrite Ht, Hp in Hshape.
    destruct (one_round h self request skip_failed include_failed
                states pending tr w) as [[[e|[states' pending']] tr'] w'];
      simpl in Hshape; subst tr'.
    + by apply Hstep.
    + destruct Hspec as [? ?]. split; [done|]. split; [done|]. by apply Hstep.
  - split; [apply trace_ok_nil|]. split; [done|].
    intros tr1 ?????. by destruct tr1.
Qed.

End Unfinished.

Section CallsExtras2.
Context `{External}.
Implicit Types (h : gmap loc Obj) (self : CompletionPipeline) (w : World).

Lemma batch_states_params many fitted :
  length fitted = length many →
  map s_params (batch_states many fitted) = fitted.
Proof.
  unfold batch_states. revert fitted.
  induction many as [|m many IH]; intros [|p fitted]; simpl; try done.
  intros [= Hlen]. f_equal. by apply IH.
Qed.

Lemma many_states_requests self fitted :
  map s_text (many_states self fitted) = replicate (length fitted) (p_text self).
Proof. unfold many_states. induction fitted; simpl; [done|]. by f_equal. Qed.

Lemma many_states_params self fitted :
  map s_params (many_states self fitted) = fitted.
Proof. unfold many_states. induction fitted; simpl; [done|]. by f_equal. Qed.

(** X6.  Every backend call of [run_batch] carries, in the order of the
    inputs, the seed text followed by the input text of each request
    that has no record yet at that time, with the fitted parameters of
    these same requests; so the first call carries all of them, and a
    request is asked again exactly as long as it has neither finished
    nor failed. *)
Theorem X6_run_batch_asks_for_the_unfinished fuel h self many params
    skip_failed include_failed w res tr w' tr1 texts ps answer tr2 :
  run_batch fuel h self many params skip_failed include_failed w
    = Some (res, tr, w') →
  tr = tr1 ++ EvGenerate texts ps answer :: tr2 →
  ∃ fitted,
    _fit_params self (Z.of_nat (length many)) params = inr fitted ∧
    texts = unfinished tr1 (map (λ m, p_text self +:+ m) many) ∧
    ps = unfinished tr1 fitted ∧
    (tr1 = [] → texts = map (λ m, p_text self +:+ m) many ∧ ps = fitted).
Proof.
  intros Hrun Htr.
  apply run_batch_cases in Hrun as [[what Hr]|(fitted & Hfit & Hlen & Hrun)].
  { simplify_eq. by destruct tr1. }
  exists fitted. split; [done|].
  eapply execute_unfinished in Hrun as [Ht Hp];
    [|intros s s' Hs; by rewrite Hs|apply batch_states_fresh|exact Htr].
  rewrite batch_states_requests in Ht by done.
  rewrite batch_states_params in Hp by done.
  split; [done|]. split; [done|].
  intros ->. subst texts ps. by rewrite !unfinished_nil.
Qed.

(** X7.  Every backend call of [run_many] carries one copy of the
    pipeline's text for each of the [count] requests that has no record
    yet, with the fitted parameters of these requests; and when it
    returns, without [skip_failed] and on a pipeline without Map
    callbacks, it returns [count] records. *)
Theorem X7_run_many_asks_count_times fuel h self count params
    skip_failed include_failed w res tr w' :
  run_many fuel h self count params skip_failed include_failed w
    = Some (res, tr, w') →
  (∀ tr1 texts ps answer tr2,
     tr = tr1 ++ EvGenerate texts ps answer :: tr2 →
     ∃ fitted,
       _fit_params self count params = inr fitted ∧
       texts = unfinished tr1 (replicate (Z.to_nat count) (p_text self)) ∧
       ps = unfinished tr1 fitted ∧
       (tr1 = [] →
        texts = replicate (Z.to_nat count) (p_text self) ∧ ps = fitted)) ∧
  (∀ result, res = inr result → skip_failed = false →
     map_list h (p_map_callbacks self) = [] →
     Z.of_nat (length result) = count).
Proof.
  intros Hrun.
  apply run_many_cases in Hrun as [[what Hr]|(fitted & Hfit & Hlen & Hrun)].
  { simplify_eq. split; [|done]. intros tr1 ?????. by destruct tr1. }
  assert (Hn : length fitted = Z.to_nat count) by lia.
  split.
  - intros tr1 texts ps answer tr2 Htr. exists fitted. split; [done|].
    eapply execute_unfinished in Hrun as [Ht Hp];
      [|done|apply many_states_fresh|exact Htr].
    rewrite many_states_requests, Hn in Ht. rewrite many_states_params in Hp.
    split; [done|]. split; [done|].
    intros ->. subst texts ps. by rewrite !unfinished_nil.
  - intros result -> -> Hmap.
    apply execute_spec in Hrun; [|done|apply many_states_fresh].
    destruct Hrun as (_ & raw & w0 & Hraw & _ & Hpost).
    rewrite post_run_no_map in Hpost by done.
    apply for_then_callbacks_length in Hpost. rewrite Hpost, Hraw.
    unfold many_states. rewrite length_map. done.
Qed.

End CallsExtras2.

Section Deliveries.
Context `{External}.
Implicit Types (h : gmap loc Obj) (self : CompletionPipeline) (w : World).

Lemma watch_calls_app tr1 tr2 :
  watch_calls (tr1 ++ tr2) = watch_calls tr1 ++ watch_calls tr2.
Proof. apply omap_app. Qed.

Lemma deliveries_app tr1 tr2 :
  deliveries (tr1 ++ tr2) = deliveries tr1 ++ deliveries tr2.
Proof. apply omap_app. Qed.

Lemma sends_quiet sends :
  Forall is_send sends →
  delivered sends = [] ∧ deliveries sends = [] ∧ watch_calls sends = [].
Proof. induction 1 as [|ev sends Hev _ IH]; [done|]. by destruct ev. Qed.

Lemma calls_quiet calls :
  Forall is_watch_call calls → deliveries calls = [].
Proof. induction 1 as [|ev calls Hev _ IH]; [done|]. by destruct ev. Qed.

(** In a whole round the records that are assigned are the records that
    are delivered, and the Watch callbacks are called once each, in
    order, with these records. *)
Lemma whole_round_facts ids texts params raised round :
  whole_round ids texts params raised round →
  (∀ x, x ∈ assigned round ↔ x ∈ delivered round) ∧
  watch_calls round = deliveries round ≫= (λ d, map (λ id, (id, d.*2)) ids).
Proof.
  intros (inbounds & sends & d & calls & -> & Hsends & Hd & Hcalls & Hids & _).
  destruct (quiet_calls calls Hcalls) as (Eas & Ede & _).
  destruct (sends_quiet sends Hsends) as (Sde & Sdl & Swc).
  assert (Has : assigned (EvGenerate texts params (inr inbounds)
                            :: sends ++ EvWatch d :: calls) = assigned sends).
  { change (assigned (sends ++ EvWatch d :: calls) = assigned sends).
    rewrite assigned_app. simpl.
    change (assigned sends ++ assigned calls = assigned sends).
    by rewrite Eas, app_nil_r. }
  assert (Hde : delivered (EvGenerate texts params (inr inbounds)
                             :: sends ++ EvWatch d :: calls) = d).
  { change (delivered (sends ++ EvWatch d :: calls) = d).
    rewrite delivered_app, Sde. simpl.
    change (d ++ delivered calls = d). by rewrite Ede, app_nil_r. }
  assert (Hdl : deliveries (EvGenerate texts params (inr inbounds)
                              :: sends ++ EvWatch d :: calls) = [d]).
  { change (deliveries (sends ++ EvWatch d :: calls) = [d]).
    rewrite deliveries_app, Sdl. simpl.
    change (d :: deliveries calls = [d]). by rewrite (calls_quiet calls). }
  assert (Hwc : watch_calls (EvGenerate texts params (inr inbounds)
                               :: sends ++ EvWatch d :: calls)
                = watch_calls calls).
  { change (watch_calls (sends ++ EvWatch d :: calls) = watch_calls calls).
    by rewrite watch_calls_app, Swc. }
  rewrite Has, Hde, Hdl, Hwc, Hids. split; [by symmetry|].
  simpl. by rewrite app_nil_r.
Qed.

Lemma rounds_facts ids tr :
  rounds ids tr →
  (∀ x, x ∈ assigned tr ↔ x ∈ delivered tr) ∧
  watch_calls tr = deliveries tr ≫= (λ d, map (λ id, (id, d.*2)) ids).
Proof.
  induction 1 as [|tr texts params round _ [IHa IHw] Hround]; [done|].
  destruct (whole_round_facts _ _ _ _ _ Hround) as [Ha Hw].
  split.
  - intros x. rewrite assigned_app, delivered_app, !elem_of_app, IHa, Ha. done.
  - by rewrite watch_calls_app, deliveries_app, bind_app, IHw, Hw.
Qed.

(** The events of every execution: a part in which every record that
    is assigned is delivered, and, when an exception cut a round short,
    the backend call and the sends of that round. *)
Lemma runs_delivered fuel h self skip_failed include_failed w res tr w' :
  runs fuel h self skip_failed include_failed w (res, tr, w') →
  ∃ tr0 last,
    tr = tr0 ++ last ∧
    (∀ x, x ∈ assigned tr0 ↔ x ∈ delivered tr0) ∧
    watch_calls tr0
      = deliveries tr0 ≫= (λ d, map (λ id, (id, d.*2)) (watch_ids h self)) ∧
    (last = [] ∨
     (∃ e, res = inl e) ∧
     ∃ texts params answer sends,
       Forall is_send sends ∧ last = EvGenerate texts params answer :: sends).
Proof.
  intros Hruns. apply runs_events in Hruns as [_ Hend].
  assert (Hwhole : rounds (watch_ids h self) tr →
    ∃ tr0 last, tr = tr0 ++ last ∧
      (∀ x, x ∈ assigned tr0 ↔ x ∈ delivered tr0) ∧
      watch_calls tr0
        = deliveries tr0 ≫= (λ d, map (λ id, (id, d.*2)) (watch_ids h self)) ∧
      (last = [] ∨
       (∃ e, res = inl e) ∧
       ∃ texts params answer sends,
         Forall is_send sends ∧ last = EvGenerate texts params answer :: sends)).
  { intros Hrounds. apply rounds_facts in Hrounds as [? ?].
    exists tr, []. rewrite app_nil_r. split; [done|]. split; [done|].
    split; [done|]. by left. }
  destruct res as [e|result]; [|by apply Hwhole].
  destruct Hend as [(what & _ & -> & _)|[(_ & -> & _)|Hend]].
  - apply Hwhole. constructor.
  - apply Hwhole. constructor.
  - destruct Hend as [[Hcut _]|[Hwatch|[Hrounds _]]].
    + destruct Hcut as (tr0 & texts & params & answer & sends & Hrounds & Hsends & ->).
      apply rounds_facts in Hrounds as [? ?].
      exists tr0, (EvGenerate texts params answer :: sends).
      split; [done|]. split; [done|]. split; [done|]. right.
      split; [by eexists|]. by exists texts, params, answer, sends.
    + destruct Hwatch as (tr0 & texts & params & round & u & Hrounds & Hround & _ & ->).
      apply rounds_facts in Hrounds as [Ha Hw].
      destruct (whole_round_facts _ _ _ _ _ Hround) as [Ha' Hw'].
      exists (tr0 ++ round), []. rewrite app_nil_r. split; [done|]. split.
      { intros x.
        rewrite assigned_app, delivered_app, !elem_of_app, Ha, Ha'. done. }
      split; [|by left].
      by rewrite watch_calls_app, deliveries_app, bind_app, Hw, Hw'.
    + by apply Hwhole.
Qed.

End Deliveries.

Section DeliveryClaims.
Context `{External}.
Implicit Types (h : gmap loc Obj) (self : CompletionPipeline) (w : World).

(** C4 (amended).  In every execution of [run_many] or [run_batch] no
    record is delivered to the Watch callbacks twice and only assigned
    records are delivered; every delivery is one call of each Watch
    callback registered on the pipeline, in order, with the delivered
    records, and the callbacks are called for nothing else.  When the
    execution returns, every record that was assigned to a state
    (finalized, or failed by exhaustion) has been delivered exactly
    once.  When it raises, this still holds of every record but those
    of the round that the exception cut short, if any: the events of
    that round are its backend call and its sends, and the records
    these sends assigned are not delivered. *)
Theorem C4_watch_once_per_finished_round fuel h self skip_failed include_failed
    w res tr w' :
  runs fuel h self skip_failed include_failed w (res, tr, w') →
  NoDup (delivered tr).*1 ∧
  (∀ d, d ∈ delivered tr → d ∈ assigned tr) ∧
  watch_calls tr =
    deliveries tr ≫=
      (λ d, map (λ callback, (watch_id callback, d.*2))
              (watch_list h (p_watch_callbacks self))) ∧
  (∀ result, res = inr result → watched_once tr) ∧
  (∀ e, res = inl e →
     ∃ tr0 last,
       tr = tr0 ++ last ∧
       (∀ i c, (i, c) ∈ assigned tr0 → records_at i (delivered tr) = [c]) ∧
       (∀ i c, (i, c) ∈ assigned last → records_at i (delivered tr) = []) ∧
       (last = [] ∨
        ∃ texts params answer sends,
          Forall is_send sends ∧
          last = EvGenerate texts params answer :: sends)).
Proof.
  intros Hruns.
  destruct (runs_trace_ok _ _ _ _ _ _ _ _ _ Hruns)
    as (requests & _ & _ & Hnda & Hnd & Hsub & _).
  destruct (runs_delivered _ _ _ _ _ _ _ _ _ Hruns)
    as (tr0 & last & -> & Hdel & Hcalls & Hlast).
  assert (Hquiet : delivered last = [] ∧ deliveries last = [] ∧
                   watch_calls last = []).
  { destruct Hlast as [->|(_ & texts & params & answer & sends & Hsends & ->)];
      [done|].
    by apply sends_quiet in Hsends. }
  destruct Hquiet as (Ede & Edl & Ewc).
  assert (Hdelivered : delivered (tr0 ++ last) = delivered tr0).
  { by rewrite delivered_app, Ede, app_nil_r. }
  assert (Hold : ∀ i c, (i, c) ∈ assigned tr0 →
            records_at i (delivered (tr0 ++ last)) = [c]).
  { intros i c Hin. apply records_at_present; [done|].
    rewrite Hdelivered. by apply Hdel. }
  split; [done|]. split; [done|]. split.
  { rewrite watch_calls_app, deliveries_app, Edl, Ewc, !app_nil_r, Hcalls.
    unfold watch_ids. apply list_bind_ext; [|done]. intros d. by rewrite map_map. }
  split.
  { intros result ->. intros i c Hin.
    destruct Hlast as [->|[[e He] _]]; [|done].
    rewrite app_nil_r in *. by apply Hold. }
  intros e ->. exists tr0, last. split; [done|]. split; [done|]. split.
  - intros i c Hin. apply records_at_absent. rewrite Hdelivered.
    intros Hi. apply list_elem_of_fmap in Hi as ([j c'] & -> & Hin').
    apply Hdel in Hin'. rewrite assigned_app, fmap_app in Hnda.
    apply NoDup_app in Hnda as (_ & Hdisj & _).
    apply (Hdisj j); apply list_elem_of_fmap; by eexists (j, _).
  - destruct Hlast as [->|(_ & Hcut)]; [by left|by right].
Qed.

End DeliveryClaims.

Section FirstCall.
Context `{External}.
Implicit Types (h : gmap loc Obj) (self : CompletionPipeline) (w : World).





End FirstCall.

Section BatchClaims.
Context `{External}.
Implicit Types (h : gmap loc Obj) (self : CompletionPipeline) (w : World).


End BatchClaims.

Section EngineExtras.
Context `{External}.
Implicit Types (h : gmap loc Obj) (self : CompletionPipeline) (w : World).

(** X1.  An execution of [run_many] or [run_batch] raises nothing but:
    [ValueError], before anything happened; [UnboundLocalError], before
    anything happened, when validators are registered and the lowest
    [max_rounds] is not positive; what the backend raised, right after
    that call; the exhaustion error, only when neither [skip_failed]
    nor [include_failed] is set, right after the send that used up the
    budget, with the lowest [max_rounds] and the last chunk in it; what
    an Until validator raised, right after the send in which it was
    called; what a Watch callback raised, at the end of the round, once
    every Watch callback has been called; or what a Map or Then
    callback raised, after whole rounds. *)
Theorem X1_what_a_run_can_raise fuel h self skip_failed include_failed
    w e tr w' :
  runs fuel h self skip_failed include_failed w (inl e, tr, w') →
  (∃ what, e = ValueError what ∧ tr = [] ∧ w' = w) ∨
  (e = UnboundLocalError "generated" ∧ tr = [] ∧ w' = w ∧
   until_list h (p_until_callbacks self) ≠ [] ∧
   (lowest_max_rounds (until_list h (p_until_callbacks self)) ≤ 0)%Z) ∨
  (cut_short (watch_ids h self) tr ∧ backend_failed self e tr w') ∨
  (cut_short (watch_ids h self) tr ∧
   skip_failed = false ∧ include_failed = false ∧ exhausted_at h self e tr) ∨
  (cut_short (watch_ids h self) tr ∧ validator_raised e tr) ∨
  watch_raised (watch_ids h self) e tr ∨
  (rounds (watch_ids h self) tr ∧ post_run_raised h self e w').
Proof.
  intros Hruns. apply runs_events in Hruns as [_ Hend].
  destruct Hend as [?|[?|[[Hcut [?|[?|?]]]|[?|?]]]]; auto 10.
Qed.

(** X2.  The events of an execution come in rounds: a backend call, the
    sends of its answers, then one call of [_watch_callback] with
    exactly the records assigned by the sends of that round, and in it
    one call of each Watch callback of the pipeline, in order, with
    these records.  An execution that returns is made of whole rounds
    in which no Watch callback raised; one that raises is made of such
    rounds and then nothing more, or a round cut short before its Watch
    call, or a whole round in which a Watch callback raised. *)
Theorem X2_events_come_in_rounds fuel h self skip_failed include_failed
    w res tr w' :
  runs fuel h self skip_failed include_failed w (res, tr, w') →
  match res with
  | inr _ => rounds (watch_ids h self) tr
  | inl e =>
      rounds (watch_ids h self) tr ∨ cut_short (watch_ids h self) tr ∨
      watch_raised (watch_ids h self) e tr
  end.
Proof.
  intros Hruns. apply runs_events in Hruns as [_ Hend].
  destruct res as [e|result]; [|done].
  destruct Hend as [(what & _ & -> & _)|[(_ & -> & _)|Hend]].
  - left. constructor.
  - left. constructor.
  - destruct Hend as [[? _]|[?|[? _]]]; auto.
Qed.

(** X3.  In every execution each chunk is handled by the processor of
    its request in the round that the chunk opens: the chunk that comes
    after [n] others of the same request is sent to the processor that
    has taken [n] chunks.  So the processor asks for another chunk only
    strictly below the lowest [max_rounds]; when it raises, it raises
    the exhaustion error, on the chunk that reaches the lowest
    [max_rounds], or what a validator raised; and otherwise it returns
    the chunk. *)
Theorem X3_chunks_are_taken_in_turn fuel h self skip_failed include_failed
    w res tr w' tr1 i chunk r a tr2 :
  runs fuel h self skip_failed include_failed w (res, tr, w') →
  tr = tr1 ++ EvSend i chunk r a :: tr2 →
  let n := length (sent i tr1) in
  let lowest := lowest_max_rounds (until_list h (p_until_callbacks self)) in
  (∃ w0, r = (_process_send h self (waiting h self n) chunk w0).1) ∧
  (Z.of_nat (S n) ≤ lowest)%Z ∧
  match r with
  | Yield g => (Z.of_nat (S n) < lowest)%Z ∧ g = waiting h self (S n)
  | Raise e =>
      (Z.of_nat (S n) = lowest ∧
       e = CompletionExhaustedMaxRoundsError lowest chunk) ∨
      ∃ u, e = CallbackError u
  | StopIteration v => v = Some chunk
  end.
Proof.
  intros Hruns Htr n lowest.
  pose proof (runs_round_bound _ _ _ _ _ _ _ _ _ i Hruns) as Hbound.
  apply runs_events in Hruns as [Hturn _].
  destruct (Hturn _ _ _ _ _ _ Htr) as [w0 Hr]. fold n in Hr.
  assert (Hle : (Z.of_nat (S n) ≤ lowest)%Z).
  { subst tr. rewrite <- (app_nil_l tr2), app_comm_cons, app_assoc in Hbound.
    unfold sent in Hbound. rewrite omap_app, length_app in Hbound.
    fold (sent i (tr1 ++ [EvSend i chunk r a])) in Hbound.
    rewrite sent_snoc, decide_True, length_app in Hbound by done.
    fold n in Hbound. simpl in Hbound. unfold round_budget in Hbound.
    fold lowest in Hbound. lia. }
  split; [by exists w0|]. split; [done|].
  pose proof (send_waiting h self n chunk w0) as Hsend.
  rewrite <- Hr in Hsend. fold lowest in Hsend.
  destruct r as [g|v|e]; [done|done|].
  destruct Hsend as [[Hge ->]|?]; [left|by right]. split; [lia|done].
Qed.

(** X4.  On a pipeline without Until validators nothing is retried and
    nothing fails: every chunk sent to a processor is returned by it at
    once, so no request takes part in more than one round, no assigned
    record is a failed one, and an execution can only raise
    [ValueError], what the backend raised, or what a Watch, Map or Then
    callback raised. *)
Theorem X4_no_validators_no_retry fuel h self skip_failed include_failed
    w res tr w' :
  until_list h (p_until_callbacks self) = [] →
  runs fuel h self skip_failed include_failed w (res, tr, w') →
  (∀ i chunk r a, EvSend i chunk r a ∈ tr → r = StopIteration (Some chunk)) ∧
  (∀ i, length (sent i tr) ≤ 1) ∧
  (∀ i c, (i, c) ∈ assigned tr → c_failed c = false) ∧
  (∀ e, res = inl e →
     (∃ what, e = ValueError what ∧ tr = []) ∨ backend_failed self e tr w' ∨
     watch_raised (watch_ids h self) e tr ∨
     (rounds (watch_ids h self) tr ∧ post_run_raised h self e w')).
Proof.
  intros Hnil Hruns.
  pose proof (λ i, runs_round_bound _ _ _ _ _ _ _ _ _ i Hruns) as Hbound.
  destruct (runs_trace_ok _ _ _ _ _ _ _ _ _ Hruns) as (requests & Hsend & _).
  pose proof (runs_events _ _ _ _ _ _ _ _ _ Hruns) as [Hturn Hend].
  assert (Hstop : ∀ i chunk r a, EvSend i chunk r a ∈ tr →
            r = StopIteration (Some chunk)).
  { intros i chunk r a Hin.
    apply list_elem_of_split in Hin as (tr1 & tr2 & ->).
    destruct (Hturn _ _ _ _ _ _ eq_refl) as [w0 ->].
    unfold waiting. by rewrite Hnil. }
  assert (Hlast : ∀ e tr0 i chunk,
            tr = tr0 ++ [EvSend i chunk (Raise e) None] → False).
  { intros e tr0 i chunk Htr.
    specialize (Hstop i chunk (Raise e) None).
    rewrite Htr, elem_of_app, list_elem_of_singleton in Hstop.
    by specialize (Hstop (or_intror eq_refl)). }
  split; [done|]. split.
  { intros i. specialize (Hbound i). unfold round_budget in Hbound.
    rewrite Hnil in Hbound. simpl in Hbound. lia. }
  split.
  { intros i c Hin. apply assigned_elem in Hin as (chunk & r & Hev).
    pose proof (Hstop _ _ _ _ Hev) as ->.
    eapply Forall_forall in Hsend; [|done]. simpl in Hsend.
    destruct Hsend as (_ & _ & _ & _ & [[? _]|(_ & _ & m & ?)]); done. }
  intros e ->.
  destruct Hend as [(what & ? & ? & _)|[(_ & _ & _ & ? & _)|Hend]].
  - left. by exists what.
  - done.
  - destruct Hend as [[_ [?|[(_ & _ & Hex)|Hval]]]|[?|?]]; auto.
    + destruct Hex as (tr0 & i & chunk & Htr & _). by destruct (Hlast _ _ _ _ Htr).
    + destruct Hval as (tr0 & i & chunk & u & Htr & _).
      by destruct (Hlast _ _ _ _ Htr).
Qed.

End EngineExtras.

Section RunExtras.
Context `{External}.
Implicit Types (h : gmap loc Obj) (self : CompletionPipeline) (w : World).

(** [run_many] for one request without parameters is [execute] on one
    state, whose parameters are the pipeline's own or the default
    ones. *)
Lemma run_many_one fuel h self include_failed w :
  run_many fuel h self 1 None false include_failed w =
  execute fuel h self s_text false include_failed
    (many_states self
       [match p_params self with
        | Some base => merge_with base None
        | None => default_params
        end]) w.
Proof.
  unfold run_many, _fit_params. simpl. by destruct (p_params self).
Qed.

(** How [run] can end. *)
Lemma run_ends fuel h self allow_failed w res tr w' :
  run fuel h self allow_failed w = Some (res, tr, w') →
  match res with
  | inr c => rounds (watch_ids h self) tr
  | inl e =>
      (e = UnboundLocalError "generated" ∧ tr = [] ∧ w' = w ∧
       until_list h (p_until_callbacks self) ≠ [] ∧
       (lowest_max_rounds (until_list h (p_until_callbacks self)) ≤ 0)%Z) ∨
      backend_failed self e tr w' ∨
      (allow_failed = false ∧ exhausted_at h self e tr) ∨
      validator_raised e tr ∨
      watch_raised (watch_ids h self) e tr ∨
      (rounds (watch_ids h self) tr ∧ post_run_raised h self e w') ∨
      (e = IndexError ∧ map_list h (p_map_callbacks self) ≠ [] ∧
       rounds (watch_ids h self) tr)
  end.
Proof.
  unfold run. rewrite run_many_one.
  destruct (execute _ _ _ _ _ _ _ _) as [[[res0 tr0] w0]|] eqn:Hex; [|done].
  pose proof (execute_events _ _ _ _ _ _ _ _ _ (λ s s' Hs, Hs)
                (many_states_fresh _ _) Hex) as Hev.
  pose proof (execute_spec _ _ _ _ _ _ _ _ _ (λ s s' Hs, Hs)
                (many_states_fresh _ _) Hex) as Hspec.
  destruct res0 as [e0|[|c rest]]; intros [= <- <- <-].
  - destruct Hev as [_ [(? & ? & ? & _ & ? & ?)|Hend]]; [by left|].
    destruct Hend as [[_ [?|[(_ & ? & ?)|?]]]|[?|?]]; auto 10.
  - do 6 right. split; [done|]. destruct Hev as [_ Hrounds].
    split; [|done]. intros Hmap.
    destruct Hspec as (_ & raw & w1 & Hraw & _ & Hpost).
    rewrite post_run_no_map in Hpost by done.
    apply for_then_callbacks_length in Hpost. simpl in Hpost, Hraw. lia.
  - by destruct Hev.
Qed.

(** X8.  [run] raises nothing but: [UnboundLocalError], before anything
    happened, when validators are registered and the lowest
    [max_rounds] is not positive; what the backend raised; the
    exhaustion error, only without [allow_failed]; what an Until
    validator, a Watch callback, or a Map or Then callback raised; or
    [IndexError], after whole rounds, only when a Map callback is
    registered (and returned no record). *)
Theorem X8_what_run_can_raise fuel h self allow_failed w e tr w' :
  run fuel h self allow_failed w = Some (inl e, tr, w') →
  (e = UnboundLocalError "generated" ∧ tr = [] ∧ w' = w ∧
   until_list h (p_until_callbacks self) ≠ [] ∧
   (lowest_max_rounds (until_list h (p_until_callbacks self)) ≤ 0)%Z) ∨
  backend_failed self e tr w' ∨
  (allow_failed = false ∧ exhausted_at h self e tr) ∨
  validator_raised e tr ∨
  watch_raised (watch_ids h self) e tr ∨
  (rounds (watch_ids h self) tr ∧ post_run_raised h self e w') ∨
  (e = IndexError ∧ map_list h (p_map_callbacks self) ≠ [] ∧
   rounds (watch_ids h self) tr).
Proof. intros Hrun. by apply run_ends in Hrun. Qed.

(** X9.  With [allow_failed], on a pipeline without Map callbacks whose
    round budget is positive, and with a backend that gives as many
    answers as it is asked, [run] gives a result as soon as the fuel
    covers the budget, and the result is a record unless the backend
    or a callback (an Until validator, a Watch or a Then callback)
    raised: neither the exhaustion error nor [IndexError] is raised. *)
Theorem X9_run_allow_failed_returns fuel h self w :
  answers_every_request →
  map_list h (p_map_callbacks self) = [] →
  (0 < lowest_max_rounds (until_list h (p_until_callbacks self)))%Z →
  round_budget h self ≤ fuel →
  ∃ res tr w',
    run fuel h self true w = Some (res, tr, w') ∧
    match res with
    | inr c => True
    | inl e =>
        backend_failed self e tr w' ∨
        validator_raised e tr ∨
        watch_raised (watch_ids h self) e tr ∨
        (rounds (watch_ids h self) tr ∧ post_run_raised h self e w' ∧
         then_list h (p_then_callbacks self) ≠ [])
    end.
Proof.
  intros Hcontract Hmap Hpos Hfuel.
  destruct (run_many_terminates fuel h self 1 None false true w Hcontract Hfuel)
    as [[[res0 tr] w'] Hrun].
  assert (Hr : ∃ res, run fuel h self true w = Some (res, tr, w')).
  { unfold run. rewrite Hrun. destruct res0 as [e|[|c rest]]; by eexists. }
  destruct Hr as [res Hr]. exists res, tr, w'. split; [done|].
  apply run_ends in Hr. destruct res as [e|c]; [|done].
  destruct Hr as [(_ & _ & _ & _ & ?)|[?|[(? & _)|[?|[?|[[? Hpost]|(_ & ? & _)]]]]]];
    [lia|auto|done|auto|auto| |done].
  do 3 right. split; [done|]. split; [done|].
  destruct Hpost as (completions & w0 & u & Hpost & _).
  apply post_run_raises in Hpost as [_ [?|?]]; done.
Qed.

(** X10.  When validators are registered and the lowest [max_rounds] is
    zero or negative, [run], and every [run_many] or [run_batch] with
    at least one request whose flags are not both set and whose
    parameters fit, raises [UnboundLocalError] while the processors are
    started (the generator reaches its [raise] without ever having
    received a chunk): the backend is not called and no callback
    runs. *)
Theorem X10_no_round_allowed fuel h self w :
  until_list h (p_until_callbacks self) ≠ [] →
  (lowest_max_rounds (until_list h (p_until_callbacks self)) ≤ 0)%Z →
  (∀ allow_failed,
     run fuel h self allow_failed w
       = Some (inl (UnboundLocalError "generated"), [], w)) ∧
  (∀ count params skip_failed include_failed fitted,
     skip_failed && include_failed = false →
     _fit_params self count params = inr fitted → (0 < count)%Z →
     run_many fuel h self count params skip_failed include_failed w
       = Some (inl (UnboundLocalError "generated"), [], w)) ∧
  (∀ many params skip_failed include_failed fitted,
     skip_failed && include_failed = false →
     _fit_params self (Z.of_nat (length many)) params = inr fitted →
     many ≠ [] →
     run_batch fuel h self many params skip_failed include_failed w
       = Some (inl (UnboundLocalError "generated"), [], w)).
Proof.
  intros Hne Hlow.
  assert (Hnext : _process_next h self = inl (UnboundLocalError "generated")).
  { unfold _process_next.
    destruct (until_list h (p_until_callbacks self)) as [|c cbs]; [done|].
    set (lo := lowest_max_rounds (c :: cbs)) in *.
    destruct (0 <? lo)%Z eqn:Hlt; [|done]. apply Z.ltb_lt in Hlt. lia. }
  assert (Hex : ∀ request skip_failed include_failed s states,
    execute fuel h self request skip_failed include_failed (s :: states) w
      = Some (inl (UnboundLocalError "generated"), [], w)).
  { intros. unfold execute. simpl. by rewrite Hnext. }
  split; [|split].
  - intros allow_failed. unfold run. rewrite run_many_one.
    unfold many_states. simpl. by rewrite Hex.
  - intros count params skip_failed include_failed fitted Hflags Hfit Hpos.
    unfold run_many. rewrite Hflags, Hfit.
    apply fit_params_length in Hfit.
    destruct fitted as [|p fitted]; [simpl in Hfit; lia|]. simpl. apply Hex.
  - intros many params skip_failed include_failed fitted Hflags Hfit Hmany.
    unfold run_batch. rewrite Hflags, Hfit.
    apply fit_params_length in Hfit.
    destruct many as [|m many]; [done|].
    destruct fitted as [|p fitted]; [simpl in Hfit; lia|]. simpl. apply Hex.
Qed.

(** X11.  With nothing to generate ([run_many] for zero requests,
    [run_batch] over no text), when the flags are not both set and no
    parameters are given, the backend is not called and the Watch
    callbacks are not called, whatever the fuel: the call ends as
    [_post_run] ends on the empty list (the Map callbacks still run, on
    the empty list, and what they return or raise is the outcome);
    without Map callbacks it returns the empty list. *)
Theorem X11_nothing_to_generate fuel h self params skip_failed include_failed w :
  skip_failed && include_failed = false →
  params = None ∨ params = Some [] →
  run_many fuel h self 0 params skip_failed include_failed w
    = Some ((_post_run h self [] w).1, [], (_post_run h self [] w).2) ∧
  run_batch fuel h self [] params skip_failed include_failed w
    = Some ((_post_run h self [] w).1, [], (_post_run h self [] w).2) ∧
  (map_list h (p_map_callbacks self) = [] →
   _post_run h self [] w = (inr [], w)).
Proof.
  intros Hflags Hparams.
  assert (Hfit : _fit_params self 0 params = inr []).
  { unfold _fit_params. destruct Hparams as [-> | ->]; simpl;
      by destruct (p_params self). }
  assert (Hex : ∀ request,
    execute fuel h self request skip_failed include_failed [] w
      = Some ((_post_run h self [] w).1, [], (_post_run h self [] w).2)).
  { intros. unfold execute. simpl. destruct fuel; simpl.
    - unfold collect. simpl. destruct skip_failed; simpl;
        by destruct (_post_run h self [] w).
    - unfold collect. simpl. destruct skip_failed; simpl;
        by destruct (_post_run h self [] w). }
  split; [|split].
  - unfold run_many. rewrite Hflags, Hfit. apply Hex.
  - unfold run_batch. rewrite Hflags.
    change (Z.of_nat (length (@nil string))) with 0%Z. rewrite Hfit. apply Hex.
  - intros Hmap. rewrite post_run_no_map by done.
    induction (then_list h (p_then_callbacks self)) as [|cb cbs IH]; [done|].
    simpl. apply IH.
Qed.

End RunExtras.

(** ** Properties of the rest of the interface *)

Section BuilderFacts.
Context `{External} `{!Builders}.
Implicit Types (h : gmap loc Obj) (l self : loc).

(** The record that [__init__] stores. *)
Lemma init_metadata h generator text params watch_callbacks :
  let '(self, h') :=
    CompletionPipeline_init h generator text params watch_callbacks in
  ∀ p, pipeline h' self = Some p → p_metadata p = ∅.
Proof.
  unfold CompletionPipeline_init.
  destruct (alloc h (ObjUntilList [])) as [lu h1].
  destruct (alloc h1 (ObjTypeList [])) as [lt h2].
  destruct (alloc h2 (ObjThenList [])) as [lth h3].
  destruct (alloc h3 (ObjMapList [])) as [lm h4].
  destruct (match watch_callbacks with
            | Some l => match watch_list h4 l with
                        | [] => alloc h4 (ObjWatchList [])
                        | _ :: _ => (l, h4)
                        end
            | None => alloc h4 (ObjWatchList [])
            end) as [lw h5].
  unfold alloc, pipeline. rewrite lookup_insert_eq. by intros p [= <-].
Qed.

(** The fields of a clone. *)
Lemma clone_fields h self p only_text new h' q :
  pipeline h self = Some p →
  clone h self only_text = (Some new, h') →
  pipeline h' new = Some q →
  p_generator q = p_generator p ∧ p_text q = p_text p ∧
  p_params q = p_params p ∧
  p_metadata q = (if only_text then ∅ else p_metadata p).
Proof.
  intros Hp. unfold clone. rewrite Hp.
  pose proof (init_spec h (p_generator p) (p_text p) (p_params p)
                (Some (p_watch_callbacks p))) as Hinit.
  pose proof (init_metadata h (p_generator p) (p_text p) (p_params p)
                (Some (p_watch_callbacks p))) as Hmeta.
  destruct (CompletionPipeline_init h (p_generator p) (p_text p) (p_params p)
              (Some (p_watch_callbacks p))) as [new0 h0].
  destruct Hinit as (q0 & Hq0 & Hg & Ht & Hps & _).
  specialize (Hmeta q0 Hq0).
  destruct only_text.
  - intros [= <- <-] Hq. by simplify_eq.
  - rewrite Hq0.
    destruct (alloc h0 _) as [lu h1]. destruct (alloc h1 _) as [lt h2].
    destruct (alloc h2 _) as [lth h3]. destruct (alloc h3 _) as [lm h4].
    intros [= <- <-]. unfold pipeline. rewrite lookup_insert_eq.
    intros [= <-]. done.
Qed.

Lemma well_formed_update h self q q' :
  well_formed h self q →
  p_until_callbacks q' = p_until_callbacks q →
  p_until_types q' = p_until_types q →
  p_then_callbacks q' = p_then_callbacks q →
  p_map_callbacks q' = p_map_callbacks q →
  p_watch_callbacks q' = p_watch_callbacks q →
  well_formed (<[self := ObjPipeline q']> h) self q'.
Proof.
  intros Hwf Eu Et Eth Em Ew.
  pose proof (well_formed_ne _ _ _ Hwf) as (Nu & Nt & Nth & Nm & Nw).
  destruct Hwf as (Hp & Hu & Ht & Hth & Hm & Hw & Hnd).
  split; [unfold pipeline; by rewrite lookup_insert_eq|].
  rewrite Eu, Et, Eth, Em, Ew.
  repeat split; try done; by rewrite lookup_insert_ne.
Qed.

(** A clone whose record is then rewritten, keeping its lists. *)
Lemma clone_update h self p (f : CompletionPipeline → CompletionPipeline) :
  well_formed h self p →
  (∀ q, p_until_callbacks (f q) = p_until_callbacks q ∧
        p_until_types (f q) = p_until_types q ∧
        p_then_callbacks (f q) = p_then_callbacks q ∧
        p_map_callbacks (f q) = p_map_callbacks q ∧
        p_watch_callbacks (f q) = p_watch_callbacks q) →
  ∃ new h1 q1,
    clone h self false = (Some new, h1) ∧
    pipeline h1 new = Some q1 ∧
    pipeline h1 self = Some p ∧
    p_generator q1 = p_generator p ∧ p_text q1 = p_text p ∧
    p_params q1 = p_params p ∧ p_metadata q1 = p_metadata p ∧
    h !! new = None ∧
    let h' := <[new := ObjPipeline (f q1)]> h1 in
    (∀ l x, h !! l = Some x → h' !! l = Some x) ∧
    well_formed h' new (f q1) ∧
    cloned_lists h h' p (f q1).
Proof.
  intros Hwf Hf.
  destruct (clone_spec h self p Hwf)
    as (new & h1 & q1 & Hc & Hwfq & Hold & Fnew & Fu & Ft & Fth & Fm
        & Eu & Et & Eth & Em & Hwatch).
  pose proof Hwf as (Hp & _ & _ & _ & _ & Hw & _).
  pose proof Hwfq as (Hq1 & _).
  destruct (clone_fields h self p false new h1 q1 Hp Hc Hq1) as (Hg & Htx & Hps & Hmd).
  destruct (Hf q1) as (Gu & Gt & Gth & Gm & Gw).
  pose proof (well_formed_ne _ _ _ Hwfq) as (Nu & Nt & Nth & Nm & Nw).
  exists new, h1, q1. split; [done|]. split; [done|].
  split. { unfold pipeline in *. destruct (h !! self) as [x|] eqn:Hx; [|done].
           by rewrite (Hold _ _ Hx). }
  split; [done|]. split; [done|]. split; [done|]. split; [done|]. split; [done|].
  intros h'. split; [|split].
  - intros l x Hx. unfold h'. rewrite lookup_insert_ne; [by apply Hold|].
    intros <-. congruence.
  - by apply (well_formed_update h1 new q1).
  - unfold cloned_lists, h'. rewrite Gu, Gt, Gth, Gm, Gw.
    unfold until_list, type_list, then_list, map_list, watch_list.
    rewrite !lookup_insert_ne by done.
    fold (until_list h1 (p_until_callbacks q1)).
    fold (type_list h1 (p_until_types q1)).
    fold (then_list h1 (p_then_callbacks q1)).
    fold (map_list h1 (p_map_callbacks q1)).
    fold (watch_list h1 (p_watch_callbacks q1)).
    fold (watch_list h (p_watch_callbacks p)).
    repeat (split; [done|]).
    destruct (watch_list h (p_watch_callbacks p)) as [|c cs] eqn:Ew.
    + by destruct Hwatch.
    + split; [|done]. rewrite Hwatch, <- Ew. destruct Hw as [x Hx].
      unfold watch_list. by rewrite (Hold _ _ Hx), Hx.
Qed.

End BuilderFacts.

Section WatchListFacts.
Context `{External}.
Implicit Types (h : gmap loc Obj) (l self : loc).
Implicit Types (cur callbacks : list WatchCompletionCallback).

Lemma watch_mem_spec cb cur :
  watch_mem cb cur = true ↔ watch_id cb ∈ watch_id <$> cur.
Proof.
  unfold watch_mem. rewrite existsb_exists, list_elem_of_fmap. split.
  - intros (c & Hin & Heq). apply Nat.eqb_eq in Heq.
    exists c. split; [done|]. by apply list_elem_of_In.
  - intros (c & Heq & Hin). exists c. split; [by apply list_elem_of_In|].
    by apply Nat.eqb_eq.
Qed.

(** [watch] computes [watch_added] on the Watch list of the pipeline. *)
Lemma watch_list_watch h self q callbacks allow_duplicates :
  well_formed h self q →
  watch_list (watch h self callbacks allow_duplicates) (p_watch_callbacks q) =
  watch_added (watch_list h (p_watch_callbacks q)) callbacks allow_duplicates.
Proof.
  revert h. induction callbacks as [|cb rest IH]; intros h Hwf; simpl; [done|].
  pose proof Hwf as (Hp & _). rewrite Hp.
  pose proof (well_formed_ne _ _ _ Hwf) as (_ & _ & _ & _ & Hne).
  destruct (allow_duplicates ||
            negb (watch_mem cb (watch_list h (p_watch_callbacks q)))).
  - rewrite IH by (by apply well_formed_insert).
    unfold watch_list at 1. by rewrite lookup_insert_eq.
  - by apply IH.
Qed.

Lemma watch_added_prefix callbacks allow_duplicates : ∀ cur,
  cur `prefix_of` watch_added cur callbacks allow_duplicates.
Proof.
  induction callbacks as [|cb rest IH]; intros cur; simpl; [done|].
  destruct (allow_duplicates || negb (watch_mem cb cur)); [|apply IH].
  etrans; [|apply IH]. by apply prefix_app_r.
Qed.

Lemma watch_added_elem callbacks allow_duplicates : ∀ cur cb,
  cb ∈ watch_added cur callbacks allow_duplicates → cb ∈ cur ∨ cb ∈ callbacks.
Proof.
  induction callbacks as [|c rest IH]; intros cur cb; simpl; [by left|].
  intros Hin. apply IH in Hin as [Hin|Hin].
  - destruct (allow_duplicates || negb (watch_mem c cur)); [|by left].
    apply elem_of_app in Hin as [?|Hin]; [by left|].
    apply list_elem_of_singleton in Hin as ->. right. by left.
  - right. by right.
Qed.

Lemma watch_added_mem callbacks allow_duplicates : ∀ cur cb,
  cb ∈ callbacks →
  watch_mem cb (watch_added cur callbacks allow_duplicates) = true.
Proof.
  induction callbacks as [|c rest IH]; intros cur cb Hin; simpl.
  - by apply elem_of_nil in Hin.
  - apply elem_of_cons in Hin as [->|Hin]; [|by apply IH].
    apply watch_mem_spec.
    assert (Hc : watch_id c ∈ watch_id <$>
              (if allow_duplicates || negb (watch_mem c cur)
               then cur ++ [c] else cur)).
    { destruct (watch_mem c cur) eqn:Hm.
      - apply watch_mem_spec in Hm.
        destruct allow_duplicates; simpl; [|done].
        rewrite fmap_app. apply elem_of_app. by left.
      - rewrite orb_true_r, fmap_app. apply elem_of_app. right. by left. }
    destruct (watch_added_prefix rest allow_duplicates
                (if allow_duplicates || negb (watch_mem c cur)
                 then cur ++ [c] else cur)) as [k ->].
    rewrite fmap_app. apply elem_of_app. by left.
Qed.

Lemma watch_added_NoDup callbacks : ∀ cur,
  NoDup (watch_id <$> cur) →
  NoDup (watch_id <$> watch_added cur callbacks false).
Proof.
  induction callbacks as [|c rest IH]; intros cur Hnd; simpl; [done|].
  destruct (watch_mem c cur) eqn:Hm; simpl; [by apply IH|].
  apply IH. rewrite fmap_app. apply NoDup_app. split; [done|]. split.
  - intros x Hx Hx'. simpl in Hx'. apply list_elem_of_singleton in Hx' as ->.
    apply watch_mem_spec in Hx. congruence.
  - apply NoDup_singleton.
Qed.

Lemma watch_added_known callbacks : ∀ cur,
  (∀ cb, cb ∈ callbacks → watch_mem cb cur = true) →
  watch_added cur callbacks false = cur.
Proof.
  induction callbacks as [|c rest IH]; intros cur Hall; simpl; [done|].
  rewrite (Hall c) by (by left). simpl. apply IH.
  intros cb Hin. apply Hall. by right.
Qed.

Lemma watch_added_all callbacks : ∀ cur,
  watch_added cur callbacks true = cur ++ callbacks.
Proof.
  induction callbacks as [|c rest IH]; intros cur; simpl.
  - by rewrite app_nil_r.
  - by rewrite IH, <- app_assoc.
Qed.

End WatchListFacts.

Section BudgetFacts.
Context `{External}.

Lemma foldl_min_le (l : list UntilEntry) : ∀ a,
  (foldl (λ m c, Z.min m c.2) a l ≤ a)%Z ∧
  (∀ e, e ∈ l → (foldl (λ m c, Z.min m c.2) a l ≤ e.2)%Z) ∧
  (foldl (λ m c, Z.min m c.2) a l = a ∨
   ∃ e, e ∈ l ∧ foldl (λ m c, Z.min m c.2) a l = e.2).
Proof.
  induction l as [|c l IH]; intros a; simpl.
  - split; [lia|]. split; [|by left]. intros e He. by apply elem_of_nil in He.
  - destruct (IH (Z.min a c.2)) as (Hle & Hall & Hatt).
    split; [lia|]. split.
    + intros e He. apply elem_of_cons in He as [->|He]; [lia|by apply Hall].
    + destruct Hatt as [Heq|(e & He & Heq)].
      * destruct (Z.min_spec a c.2) as [[_ Hm]|[_ Hm]].
        -- left. by rewrite Heq.
        -- right. exists c. split; [by left|]. by rewrite Heq.
      * right. exists e. split; [by right|done].
Qed.

(** The lowest [max_rounds] is one of the registered ones and is below
    all of them. *)
Lemma lowest_max_rounds_min (cbs : list UntilEntry) :
  (∀ e, e ∈ cbs → (lowest_max_rounds cbs ≤ e.2)%Z) ∧
  (cbs ≠ [] → ∃ e, e ∈ cbs ∧ lowest_max_rounds cbs = e.2).
Proof.
  destruct cbs as [|c cbs]; simpl.
  - split; [|done]. intros e He. by apply elem_of_nil in He.
  - destruct (foldl_min_le cbs c.2) as (Hle & Hall & Hatt). split.
    + intros e He. apply elem_of_cons in He as [->|He]; [done|by apply Hall].
    + intros _. destruct Hatt as [Heq|(e & He & Heq)].
      * exists c. split; [by left|done].
      * exists e. split; [by right|done].
Qed.

Lemma lowest_max_rounds_snoc (cbs : list UntilEntry) e :
  lowest_max_rounds (cbs ++ [e]) =
  match cbs with [] => e.2 | _ :: _ => Z.min (lowest_max_rounds cbs) e.2 end.
Proof. destruct cbs as [|c cbs]; simpl; [done|]. by rewrite foldl_app. Qed.

End BudgetFacts.

Section BuilderExtras.
Context `{External} `{!Builders}.
Implicit Types (h : gmap loc Obj) (l self : loc).

(** X12.  [watch] without [allow_duplicates] keeps the callbacks that
    were registered, in place, adds only callbacks it was given, leaves
    each given callback registered, and never registers a callback
    twice: a Watch list without repetition stays so, and calling
    [watch] again with the same callbacks changes nothing.  With
    [allow_duplicates] all the given callbacks are appended. *)
Theorem X12_watch_keeps_one_of_each h self q callbacks :
  well_formed h self q →
  let before := watch_list h (p_watch_callbacks q) in
  let h' := watch h self callbacks false in
  let after := watch_list h' (p_watch_callbacks q) in
  before `prefix_of` after ∧
  (∀ cb, cb ∈ after → cb ∈ before ∨ cb ∈ callbacks) ∧
  (∀ cb, cb ∈ callbacks → watch_id cb ∈ watch_id <$> after) ∧
  (NoDup (watch_id <$> before) → NoDup (watch_id <$> after)) ∧
  watch_list (watch h' self callbacks false) (p_watch_callbacks q) = after ∧
  watch_list (watch h self callbacks true) (p_watch_callbacks q)
    = before ++ callbacks.
Proof.
  intros Hwf before h' after.
  assert (Hwf' : well_formed h' self q) by (by apply watch_spec).
  assert (Hafter : after = watch_added before callbacks false)
    by (by apply watch_list_watch).
  split; [rewrite Hafter; apply watch_added_prefix|].
  split; [rewrite Hafter; apply watch_added_elem|].
  split.
  { intros cb Hcb. rewrite Hafter. apply watch_mem_spec.
    by apply watch_added_mem. }
  split; [rewrite Hafter; apply watch_added_NoDup|].
  split.
  - rewrite (watch_list_watch h' self q) by done. fold after.
    apply watch_added_known. intros cb Hcb. rewrite Hafter.
    by apply watch_added_mem.
  - rewrite (watch_list_watch h self q) by done. apply watch_added_all.
Qed.

(** X13.  [fork(text)] on a pipeline leaves every object that existed
    as it was and returns a new pipeline: same generator, parameters
    and metadata, the text with [text] appended, and lists that are
    clones of the pipeline's lists. *)
Theorem X13_fork_leaves_the_source h self p text :
  well_formed h self p →
  ∃ new h' q,
    fork h self text = (Some new, h') ∧
    h !! new = None ∧
    (∀ l x, h !! l = Some x → h' !! l = Some x) ∧
    well_formed h' new q ∧
    p_text q = p_text p +:+ text ∧
    p_generator q = p_generator p ∧ p_params q = p_params p ∧
    p_metadata q = p_metadata p ∧
    cloned_lists h h' p q.
Proof.
  intros Hwf.
  destruct (clone_update h self p (λ q, set_text (p_text q +:+ text) q) Hwf)
    as (new & h1 & q1 & Hc & Hq1 & _ & Hg & Ht & Hps & Hmd & Hnew & Hold & Hwf' & Hl).
  { done. }
  exists new, (<[new := ObjPipeline (set_text (p_text q1 +:+ text) q1)]> h1),
    (set_text (p_text q1 +:+ text) q1).
  split. { unfold fork. rewrite Hc. unfold add. by rewrite Hq1. }
  split; [done|]. split; [exact Hold|]. split; [exact Hwf'|].
  split; [simpl; by rewrite Ht|].
  repeat (split; [done|]). exact Hl.
Qed.

(** X14.  [apply] leaves every object that existed as it was, the text
    of the pipeline included, and returns a new pipeline whose text is
    the template substitution of the pipeline's text; the rest is as
    for a clone. *)
Theorem X14_apply_leaves_the_source h self p kwargs :
  well_formed h self p →
  ∃ new h' q,
    apply_ h self kwargs = (Some new, h') ∧
    h !! new = None ∧
    (∀ l x, h !! l = Some x → h' !! l = Some x) ∧
    pipeline h' self = Some p ∧
    well_formed h' new q ∧
    p_text q = safe_substitute (p_text p) kwargs ∧
    p_generator q = p_generator p ∧ p_params q = p_params p ∧
    p_metadata q = p_metadata p ∧
    cloned_lists h h' p q.
Proof.
  intros Hwf.
  destruct (clone_update h self p
              (λ q, set_text (safe_substitute (p_text p) kwargs) q) Hwf)
    as (new & h1 & q1 & Hc & Hq1 & Hp1 & Hg & Ht & Hps & Hmd & Hnew & Hold & Hwf' & Hl).
  { done. }
  exists new, (<[new := ObjPipeline (set_text (safe_substitute (p_text p) kwargs) q1)]> h1),
    (set_text (safe_substitute (p_text p) kwargs) q1).
  split. { unfold apply_. by rewrite Hc, Hp1, Hq1. }
  split; [done|]. split; [done|].
  split. { destruct Hwf as (Hp & _). unfold pipeline in *.
           destruct (h !! self) as [x|] eqn:Hx; [|done]. by rewrite (Hold _ _ Hx). }
  done.
Qed.

(** X15.  [clone(only_text=True)] leaves every object that existed as
    it was and returns a new pipeline with the text, the generator and
    the parameters of the pipeline, and nothing else of it but its
    Watch callbacks: no validator, no type to parse, no Then or Map
    callback, no metadata. *)
Theorem X15_clone_only_text h self p :
  well_formed h self p →
  ∃ new h' q,
    clone h self true = (Some new, h') ∧
    h !! new = None ∧
    (∀ l x, h !! l = Some x → h' !! l = Some x) ∧
    well_formed h' new q ∧
    p_text q = p_text p ∧ p_generator q = p_generator p ∧
    p_params q = p_params p ∧ p_metadata q = ∅ ∧
    until_list h' (p_until_callbacks q) = [] ∧
    type_list h' (p_until_types q) = [] ∧
    then_list h' (p_then_callbacks q) = [] ∧
    map_list h' (p_map_callbacks q) = [] ∧
    watch_list h' (p_watch_callbacks q) = watch_list h (p_watch_callbacks p) ∧
    (watch_list h (p_watch_callbacks p) ≠ [] →
     p_watch_callbacks q = p_watch_callbacks p).
Proof.
  intros Hwf. pose proof Hwf as (Hp & _ & _ & _ & _ & Hw & _).
  pose proof (clone_fields h self p true) as Hfields.
  unfold clone in *. rewrite Hp in *.
  pose proof (init_spec h (p_generator p) (p_text p) (p_params p)
                (Some (p_watch_callbacks p))) as Hinit.
  pose proof (init_well_formed h (p_generator p) (p_text p) (p_params p)
                (Some (p_watch_callbacks p))) as Hinit'.
  destruct (CompletionPipeline_init h (p_generator p) (p_text p) (p_params p)
              (Some (p_watch_callbacks p))) as [new h'].
  destruct Hinit as (q & Hq & _ & _ & _ & Hnew & _ & _ & _ & _ & _ & _ & _ & _
                     & _ & Hold & _ & Hwatch).
  destruct Hinit' as (q' & Hwf' & Hu & Ht & Hth & Hm).
  assert (q' = q) as -> by (destruct Hwf' as (Hq' & _); congruence).
  destruct (Hfields new h' q eq_refl eq_refl Hq) as (Hg & Htx & Hps & Hmd).
  exists new, h', q. repeat (split; [done|]).
  destruct (watch_list h (p_watch_callbacks p)) as [|c cs] eqn:Ew.
  - destruct Hwatch as [_ Hnone]. split; [|done].
    unfold watch_list. by rewrite Hnone.
  - split; [|done]. rewrite Hwatch, <- Ew. destruct Hw as [x Hx].
    unfold watch_list. by rewrite (Hold _ _ Hx), Hx.
Qed.

(** X16.  [with_] raises, leaving everything as it was, when it is
    given no parameters and the keyword arguments are refused.  On a
    pipeline without parameters it stores the overlay in the pipeline
    and returns the pipeline itself.  On a pipeline that has parameters
    it leaves every object that existed as it was and returns a clone
    whose parameters are the pipeline's merged with the overlay. *)
Theorem X16_with_sets_or_clones h self p params kwargs :
  well_formed h self p →
  match match params with Some ps => Some ps | None => params_of_kwargs kwargs end with
  | None => with_ h self params kwargs = (inl ValidationError, h)
  | Some overlay =>
      match p_params p with
      | None =>
          with_ h self params kwargs =
          (inr self, <[self := ObjPipeline (set_params (Some overlay) p)]> h)
      | Some base =>
          ∃ new h' q,
            with_ h self params kwargs = (inr new, h') ∧
            h !! new = None ∧
            (∀ l x, h !! l = Some x → h' !! l = Some x) ∧
            well_formed h' new q ∧
            p_params q = Some (merge_with base (Some overlay)) ∧
            p_text q = p_text p ∧ p_generator q = p_generator p ∧
            p_metadata q = p_metadata p ∧
            cloned_lists h h' p q
      end
  end.
Proof.
  intros Hwf. pose proof Hwf as (Hp & _). unfold with_.
  destruct (match params with Some ps => Some ps | None => params_of_kwargs kwargs end)
    as [overlay|]; [|done].
  rewrite Hp. destruct (p_params p) as [base|] eqn:Hbase; [|done].
  destruct (clone_update h self p
              (set_params (Some (merge_with base (Some overlay)))) Hwf)
    as (new & h1 & q1 & Hc & Hq1 & _ & Hg & Ht & Hps & Hmd & Hnew & Hold & Hwf' & Hl).
  { done. }
  do 3 eexists. split; [by rewrite Hc, Hq1|]. done.
Qed.

(** X17.  [until] appends its entry to the validators of the pipeline
    and changes nothing else of it.  The lowest [max_rounds] is below
    every registered [max_rounds]; on a pipeline without validators it
    becomes the [max_rounds] given, and otherwise the smaller of the
    two, so that one more validator never raises the round budget of a
    pipeline that has validators. *)
Theorem X17_until_lowers_the_budget h self p callback use_all_text max_rounds :
  well_formed h self p →
  let h' := until h self callback use_all_text max_rounds in
  let before := until_list h (p_until_callbacks p) in
  let after := until_list h' (p_until_callbacks p) in
  pipeline h' self = Some p ∧
  after = before ++ [(callback, use_all_text, max_rounds)] ∧
  lowest_max_rounds after =
    match before with
    | [] => max_rounds
    | _ :: _ => Z.min (lowest_max_rounds before) max_rounds
    end ∧
  (∀ e, e ∈ after → (lowest_max_rounds after ≤ e.2)%Z) ∧
  (before ≠ [] → round_budget h' p ≤ round_budget h p).
Proof.
  intros Hwf h' before after.
  pose proof Hwf as (Hp & _).
  pose proof (well_formed_ne _ _ _ Hwf) as (Nu & _).
  assert (Hafter : after = before ++ [(callback, use_all_text, max_rounds)]).
  { unfold after, h', until. rewrite Hp. apply until_list_insert_eq. }
  split. { unfold h', until. rewrite Hp. by rewrite pipeline_insert_ne. }
  split; [done|].
  assert (Hlow : lowest_max_rounds after =
            match before with
            | [] => max_rounds
            | _ :: _ => Z.min (lowest_max_rounds before) max_rounds
            end).
  { rewrite Hafter. apply lowest_max_rounds_snoc. }
  split; [done|]. split; [apply lowest_max_rounds_min|].
  intros Hne. unfold round_budget. fold after. fold before. rewrite Hlow.
  destruct before; [done|]. lia.
Qed.

End BuilderExtras.

Section MoreExtras.
Context `{External} `{!Builders}.
Implicit Types (h : gmap loc Obj) (l self : loc).

(** X19.  [_fit_params] raises [ValueError] exactly when the number of
    parameter overlays it is given (or [count] times none, which is no
    overlay at all for a negative [count]) is not [count]; so it never
    returns for a negative [count].  Otherwise it returns one set of
    parameters for each overlay, in order: the pipeline's parameters
    merged with the overlay when the pipeline has parameters, and else
    the overlay itself, or the default parameters where there is
    none. *)
Theorem X19_fit_params_fits (self : CompletionPipeline) count params :
  let given :=
    match params with
    | Some ps => ps
    | None => replicate (Z.to_nat count) None
    end in
  match _fit_params self count params with
  | inl e =>
      e = ValueError (ParamsCount count) ∧ Z.of_nat (length given) ≠ count
  | inr fitted =>
      (0 ≤ count)%Z ∧ Z.of_nat (length fitted) = count ∧
      fitted =
        map (λ overlay,
               match p_params self with
               | Some base => merge_with base overlay
               | None => default default_params overlay
               end) given
  end.
Proof.
  intros given. unfold _fit_params. fold given.
  case_bool_decide as Hlen; [|done].
  split; [lia|]. split.
  - rewrite length_map. destruct (p_params self); [by rewrite length_map|done].
  - destruct (p_params self) as [base|]; [|done].
    rewrite map_map. done.
Qed.

(** X20.  [meta] on a pipeline updates its metadata with the keyword
    arguments, and every record that a later execution of that
    pipeline assigns carries the updated metadata: the given keys with
    the given values, the other keys as they were. *)
Theorem X20_metadata_reaches_the_records h l p kwargs fuel
    skip_failed include_failed (w : World) res tr w' :
  pipeline h l = Some p →
  let h' := meta h l kwargs in
  let p' := set_metadata (kwargs ∪ p_metadata p) p in
  runs fuel h' p' skip_failed include_failed w (res, tr, w') →
  pipeline h' l = Some p' ∧
  ∀ i c, (i, c) ∈ assigned tr →
    c_metadata c = kwargs ∪ p_metadata p ∧
    (∀ k v, kwargs !! k = Some v → c_metadata c !! k = Some v) ∧
    (∀ k, kwargs !! k = None → c_metadata c !! k = p_metadata p !! k).
Proof.
  intros Hp h' p' Hruns.
  split. { unfold h', meta, pipeline in *. rewrite Hp. by rewrite lookup_insert_eq. }
  destruct (runs_trace_ok _ _ _ _ _ _ _ _ _ Hruns) as (requests & Hsend & _).
  intros i c Hin. apply assigned_elem in Hin as (chunk & r & Hev).
  eapply Forall_forall in Hsend; [|done]. simpl in Hsend.
  destruct Hsend as (_ & _ & _ & Hmeta & _). rewrite Hmeta.
  split; [done|]. split.
  - intros k v Hk. by apply lookup_union_Some_l.
  - intros k Hk. by apply lookup_union_r.
Qed.

(** X21.  A record that an execution assigned to a request can always
    be restarted: it holds the generator of the pipeline, so [restart]
    without a generator does not raise and calls [complete] on that
    generator, with the generated text of the record, or with the
    pipeline's text followed by it under [include_all], and with the
    parameters of the record; a generator that is given is used
    instead; and [continue_] appends its text to the pipeline that
    [complete] returns for the pipeline's text followed by the
    generated text. *)
Theorem X21_records_can_be_restarted fuel h (self : CompletionPipeline)
    skip_failed include_failed
    (w : World) res tr w' i c hc :
  runs fuel h self skip_failed include_failed w (res, tr, w') →
  (i, c) ∈ assigned tr →
  (∀ include_all,
     restart hc c None include_all =
     let '(l, hc') :=
       complete (p_generator self)
         (if include_all then p_text self +:+ c_generated c else c_generated c)
         (c_params c) hc in
     (inr l, hc')) ∧
  (∀ generator include_all,
     restart hc c (Some generator) include_all =
     let '(l, hc') :=
       complete generator
         (if include_all then p_text self +:+ c_generated c else c_generated c)
         (c_params c) hc in
     (inr l, hc')) ∧
  (∀ text,
     continue_ hc c text =
     let '(l, hc') :=
       complete (p_generator self) (p_text self +:+ c_generated c)
         (c_params c) hc in
     (inr l, add hc' l text)).
Proof.
  intros Hruns Hin.
  destruct (runs_trace_ok _ _ _ _ _ _ _ _ _ Hruns) as (requests & Hsend & _).
  apply assigned_elem in Hin as (chunk & r & Hev).
  eapply Forall_forall in Hsend; [|done]. simpl in Hsend.
  destruct Hsend as (Ht & _ & Hg & _).
  split; [|split].
  - intros include_all. unfold restart, Completion_all. by rewrite Hg, Ht.
  - intros generator include_all. unfold restart, Completion_all. by rewrite Ht.
  - intros text. unfold continue_, Completion_fork, restart, Completion_all.
    rewrite Hg, Ht.
    by destruct (complete (p_generator self) (p_text self +:+ c_generated c)
                   (c_params c) hc).
Qed.

End MoreExtras.

(** ** The further properties on the concrete world *)

Section MoreEvaluations.
Import Demo DemoBuilders.
Local Open Scope string_scope.

(** The backend of the concrete world keeps the contract. *)
Lemma demo_answers_every_request : answers_every_request.
Proof.
  intros generator texts params w inbounds w' [= <- _]. apply length_map.
Qed.

(** Well-formedness of a pipeline of the concrete world, by looking
    its objects up. *)
Ltac well_formed_by_evaluation :=
  split; [vm_compute; reflexivity|];
  repeat (split; [vm_compute; by eexists|]);
  apply NoDup_ListNoDup; vm_compute;
  repeat (constructor; [simpl; intuition discriminate|]); constructor.

(** C4 does not hold of an execution that raises: [run_batch] over
    [ok] and [bad] on [watched_one_chance] without flags.  The first
    state is finalized and gets its record, then the second raises the
    exhaustion error out of the loop: the Watch callback of the
    pipeline is never called, and the record is never delivered. *)
Lemma C4_raise_leaves_record_unwatched :
  ∃ self e tr w' c,
    pipeline watched_one_chance.2 watched_one_chance.1 = Some self ∧
    map watch_id (watch_list watched_one_chance.2 (p_watch_callbacks self)) = [1] ∧
    run_batch 3 watched_one_chance.2 self ["ok"; "bad"] None false false 0
      = Some (inl e, tr, w') ∧
    runs 3 watched_one_chance.2 self false false 0 (inl e, tr, w') ∧
    (0, c) ∈ assigned tr ∧ c_generated c = "ok" ∧ c_failed c = false ∧
    watch_calls tr = [] ∧ delivered tr = [] ∧
    ¬ watched_once tr.
Proof.
  eexists _, _, _, _, _. split; [vm_compute; reflexivity|].
  split; [vm_compute; reflexivity|].
  split; [vm_compute; reflexivity|]. split.
  { left. exists ["ok"; "bad"], None. vm_compute. reflexivity. }
  split; [apply list_elem_of_here|].
  split; [reflexivity|]. split; [reflexivity|].
  split; [reflexivity|]. split; [reflexivity|].
  intros Hw. specialize (Hw 0 _ (list_elem_of_here _ _)). discriminate Hw.
Qed.

(** C4 (amended) on [watched_two_chances], [run_batch] over [ok] and
    [bad] with [include_failed]: the Watch callback is called at the
    end of the first round with the record of [ok], and at the end of
    the second with the failed record of [bad]. *)
Lemma C4_watch_once_witness :
  ∃ res tr w',
    pipeline watched_two_chances.2 watched_two_chances.1
      = Some (first_pipeline "") ∧
    runs 3 watched_two_chances.2 (first_pipeline "") false true 0 (res, tr, w') ∧
    map (λ call, (call.1, map c_generated call.2, map c_failed call.2))
      (watch_calls tr) = [(1, ["ok"], [false]); (1, ["bad"], [true])] ∧
    NoDup (delivered tr).*1 ∧
    (∀ d, d ∈ delivered tr → d ∈ assigned tr) ∧
    watch_calls tr =
      deliveries tr ≫=
        (λ d, map (λ callback, (watch_id callback, d.*2))
                (watch_list watched_two_chances.2
                   (p_watch_callbacks (first_pipeline "")))) ∧
    (∀ result, res = inr result → watched_once tr) ∧
    (∀ e, res = inl e →
       ∃ tr0 last,
         tr = (tr0 ++ last)%list ∧
         (∀ i c, (i, c) ∈ assigned tr0 → records_at i (delivered tr) = [c]) ∧
         (∀ i c, (i, c) ∈ assigned last → records_at i (delivered tr) = []) ∧
         (last = [] ∨
          ∃ texts params answer sends,
            Forall is_send sends ∧
            last = EvGenerate texts params answer :: sends)).
Proof.
  eexists _, _, _. split; [vm_compute; reflexivity|].
  split; [left; exists ["ok"; "bad"], None; vm_compute; reflexivity|].
  split; [reflexivity|].
  eapply (C4_watch_once_per_finished_round 3 watched_two_chances.2
            (first_pipeline "") false true 0).
  left. exists ["ok"; "bad"], None. vm_compute. reflexivity.
Defined.

(** C9.  [until_parsed_as] on a clone of a pipeline that has the
    structured-parse validator.  The clone has copied the entry of the
    source, whose validator is bound to the source; the test
    [c[0] == self._until_parse_callback] compares with the validator
    bound to the clone and finds nothing, so a second structured-parse
    entry is appended.  The first parses against the types of the
    source, the second against the types of the clone. *)
Theorem C9_clone_gets_second_parse_entry :
  let '(p, c, h) := parsed_on_clone in
  ∃ cl source clone,
    c = Some cl ∧ cl ≠ p ∧
    pipeline h p = Some source ∧ pipeline h cl = Some clone ∧
    map (λ e, e.1.1) (until_list h (p_until_callbacks source))
      = [UntilParseMethod p] ∧
    map (λ e, e.1.1) (until_list h (p_until_callbacks clone))
      = [UntilParseMethod p; UntilParseMethod cl] ∧
    length (List.filter is_parse_method
              (until_list h (p_until_callbacks clone))) = 2 ∧
    type_list h (p_until_types source) = ["A"] ∧
    type_list h (p_until_types clone) = ["A"; "B"] ∧
    call_until h (UntilParseMethod p) "A" 0 = (inr false, 0) ∧
    call_until h (UntilParseMethod cl) "A" 0 = (inr true, 0).
Proof.
  vm_compute. do 3 eexists. repeat split; try reflexivity. discriminate.
Qed.



(** X1 on [validator_fails], [run_batch] over [ok] and [bad] without
    flags: the validator raises on the second request. *)
Lemma X1_witness :
  ∃ e tr w',
    runs 3 validator_fails.2 (first_pipeline "") false false 0 (inl e, tr, w') ∧
    e = CallbackError "bad text" ∧
    ((∃ what, e = ValueError what ∧ tr = [] ∧ w' = 0) ∨
     (e = UnboundLocalError "generated" ∧ tr = [] ∧ w' = 0 ∧
      until_list validator_fails.2 (p_until_callbacks (first_pipeline "")) ≠ [] ∧
      (lowest_max_rounds
         (until_list validator_fails.2 (p_until_callbacks (first_pipeline "")))
       ≤ 0)%Z) ∨
     (cut_short (watch_ids validator_fails.2 (first_pipeline "")) tr ∧
      backend_failed (first_pipeline "") e tr w') ∨
     (cut_short (watch_ids validator_fails.2 (first_pipeline "")) tr ∧
      false = false ∧ false = false ∧
      exhausted_at validator_fails.2 (first_pipeline "") e tr) ∨
     (cut_short (watch_ids validator_fails.2 (first_pipeline "")) tr ∧
      validator_raised e tr) ∨
     watch_raised (watch_ids validator_fails.2 (first_pipeline "")) e tr ∨
     (rounds (watch_ids validator_fails.2 (first_pipeline "")) tr ∧
      post_run_raised validator_fails.2 (first_pipeline "") e w')).
Proof.
  eexists _, _, _.
  split; [left; exists ["ok"; "bad"], None; vm_compute; reflexivity|].
  split; [reflexivity|].
  eapply (X1_what_a_run_can_raise 3 validator_fails.2 (first_pipeline "")
            false false 0).
  left. exists ["ok"; "bad"], None. vm_compute. reflexivity.
Defined.

(** X2 on [watched_two_chances], [run_batch] over [ok] and [bad] with
    [include_failed]: two whole rounds. *)
Lemma X2_witness :
  ∃ result tr w',
    runs 3 watched_two_chances.2 (first_pipeline "") false true 0
      (inr result, tr, w') ∧
    generate_calls tr = [["ok"; "bad"]; ["bad"]] ∧
    watch_ids watched_two_chances.2 (first_pipeline "") = [1] ∧
    rounds (watch_ids watched_two_chances.2 (first_pipeline "")) tr.
Proof.
  eexists _, _, _.
  split; [left; exists ["ok"; "bad"], None; vm_compute; reflexivity|].
  split; [reflexivity|]. split; [vm_compute; reflexivity|].
  eapply (X2_events_come_in_rounds 3 watched_two_chances.2 (first_pipeline "")
            false true 0 (inr _)).
  left. exists ["ok"; "bad"], None. vm_compute. reflexivity.
Defined.

(** X3 on [one_chance], [run_batch] over [ok] and [bad] with
    [include_failed], at the send of the second request. *)
Lemma X3_witness :
  ∃ res tr w',
    runs 3 one_chance.2 (first_pipeline "") false true 0 (res, tr, w') ∧
    ∃ tr1 i chunk r a tr2,
      tr = (tr1 ++ EvSend i chunk r a :: tr2)%list ∧
      i = 1 ∧ chunk = "bad" ∧
      (∃ w0, r = (_process_send one_chance.2 (first_pipeline "")
                    (waiting one_chance.2 (first_pipeline "")
                       (length (sent i tr1))) chunk w0).1) ∧
      (Z.of_nat (S (length (sent i tr1))) ≤
       lowest_max_rounds
         (until_list one_chance.2 (p_until_callbacks (first_pipeline ""))))%Z ∧
      match r with
      | Yield g =>
          (Z.of_nat (S (length (sent i tr1))) <
           lowest_max_rounds
             (until_list one_chance.2 (p_until_callbacks (first_pipeline ""))))%Z ∧
          g = waiting one_chance.2 (first_pipeline "") (S (length (sent i tr1)))
      | Raise e =>
          (Z.of_nat (S (length (sent i tr1))) =
           lowest_max_rounds
             (until_list one_chance.2 (p_until_callbacks (first_pipeline ""))) ∧
           e = CompletionExhaustedMaxRoundsError
                 (lowest_max_rounds
                    (until_list one_chance.2 (p_until_callbacks (first_pipeline ""))))
                 chunk) ∨
          ∃ u, e = CallbackError u
      | StopIteration v => v = Some chunk
      end.
Proof.
  eexists _, _, _.
  split; [left; exists ["ok"; "bad"], None; vm_compute; reflexivity|].
  eexists [_; _], _, _, _, _, _.
  split; [reflexivity|]. split; [reflexivity|]. split; [reflexivity|].
  eapply (X3_chunks_are_taken_in_turn 3 one_chance.2 (first_pipeline "")
            false true 0).
  - left. exists ["ok"; "bad"], None. vm_compute. reflexivity.
  - reflexivity.
Defined.

(** X4 on [watch_fails], which has no validator, [run_batch] over [a]
    and [b]: the first Watch callback raises. *)
Lemma X4_witness :
  until_list watch_fails.2 (p_until_callbacks (first_pipeline "Q")) = [] ∧
  ∃ res tr w',
    runs 3 watch_fails.2 (first_pipeline "Q") false false 0 (res, tr, w') ∧
    res = inl (CallbackError "watch failed") ∧
    (∀ i chunk r a, EvSend i chunk r a ∈ tr → r = StopIteration (Some chunk)) ∧
    (∀ i, (length (sent i tr) ≤ 1)%nat) ∧
    (∀ i c, (i, c) ∈ assigned tr → c_failed c = false) ∧
    (∀ e, res = inl e →
       (∃ what, e = ValueError what ∧ tr = []) ∨
       backend_failed (first_pipeline "Q") e tr w' ∨
       watch_raised (watch_ids watch_fails.2 (first_pipeline "Q")) e tr ∨
       (rounds (watch_ids watch_fails.2 (first_pipeline "Q")) tr ∧
        post_run_raised watch_fails.2 (first_pipeline "Q") e w')).
Proof.
  split; [vm_compute; reflexivity|].
  eexists _, _, _.
  split; [left; exists ["a"; "b"], None; vm_compute; reflexivity|].
  split; [reflexivity|].
  eapply (X4_no_validators_no_retry 3 watch_fails.2 (first_pipeline "Q")
            false false 0).
  - vm_compute. reflexivity.
  - left. exists ["a"; "b"], None. vm_compute. reflexivity.
Defined.

(** X5 on [two_chances], [run_batch] over [ok] and [bad] with
    [include_failed]. *)
Lemma X5_witness :
  answers_every_request ∧
  ∃ res tr w',
    runs 3 two_chances.2 (first_pipeline "") false true 0 (res, tr, w') ∧
    (length (generate_calls tr)
       ≤ round_budget two_chances.2 (first_pipeline ""))%nat.
Proof.
  split; [exact demo_answers_every_request|].
  eexists _, _, _.
  split; [left; exists ["ok"; "bad"], None; vm_compute; reflexivity|].
  eapply (X5_backend_calls_within_budget 3 two_chances.2 (first_pipeline "")
            false true 0).
  - exact demo_answers_every_request.
  - left. exists ["ok"; "bad"], None. vm_compute. reflexivity.
Defined.

(** X6 on [two_chances], [run_batch] over [ok] and [bad] with
    [include_failed], at the second backend call: only [bad] is asked
    again. *)
Lemma X6_witness :
  ∃ res tr w' tr1 texts ps answer tr2,
    run_batch 3 two_chances.2 (first_pipeline "") ["ok"; "bad"] None
      false true 0 = Some (res, tr, w') ∧
    tr = (tr1 ++ EvGenerate texts ps answer :: tr2)%list ∧
    texts = ["bad"] ∧
    ∃ fitted,
      _fit_params (first_pipeline "") (Z.of_nat (length ["ok"; "bad"])) None
        = inr fitted ∧
      texts = unfinished tr1
                (map (λ m, p_text (first_pipeline "") +:+ m) ["ok"; "bad"]) ∧
      ps = unfinished tr1 fitted ∧
      (tr1 = [] →
       texts = map (λ m, p_text (first_pipeline "") +:+ m) ["ok"; "bad"] ∧
       ps = fitted).
Proof.
  eexists _, _, _, [_; _; _; _], _, _, _, _.
  split; [vm_compute; reflexivity|].
  split; [reflexivity|]. split; [reflexivity|].
  eapply (X6_run_batch_asks_for_the_unfinished 3 two_chances.2
            (first_pipeline "") ["ok"; "bad"] None false true 0).
  - vm_compute. reflexivity.
  - reflexivity.
Defined.

(** X7 on [two_chances], [run_many] for two requests. *)
Lemma X7_witness :
  ∃ res tr w',
    run_many 3 two_chances.2 (first_pipeline "") 2 None false false 0
      = Some (res, tr, w') ∧
    generate_calls tr = [[""; ""]] ∧
    (∀ tr1 texts ps answer tr2,
       tr = (tr1 ++ EvGenerate texts ps answer :: tr2)%list →
       ∃ fitted,
         _fit_params (first_pipeline "") 2 None = inr fitted ∧
         texts = unfinished tr1
                   (replicate (Z.to_nat 2) (p_text (first_pipeline ""))) ∧
         ps = unfinished tr1 fitted ∧
         (tr1 = [] →
          texts = replicate (Z.to_nat 2) (p_text (first_pipeline "")) ∧
          ps = fitted)) ∧
    (∀ result, res = inr result → false = false →
       map_list two_chances.2 (p_map_callbacks (first_pipeline "")) = [] →
       Z.of_nat (length result) = 2%Z).
Proof.
  eexists _, _, _.
  split; [vm_compute; reflexivity|]. split; [reflexivity|].
  eapply (X7_run_many_asks_count_times 3 two_chances.2 (first_pipeline "")
            2 None false false 0).
  vm_compute. reflexivity.
Defined.

(** X8 on [never_satisfied]: [run] without [allow_failed] ends with the
    exhaustion error after two backend calls. *)
Lemma X8_witness :
  ∃ e tr w',
    run 3 never_satisfied.2 (first_pipeline "Q") false 0
      = Some (inl e, tr, w') ∧
    generate_calls tr = [["Q"]; ["Q"]] ∧
    ((e = UnboundLocalError "generated" ∧ tr = [] ∧ w' = 0 ∧
      until_list never_satisfied.2 (p_until_callbacks (first_pipeline "Q")) ≠ [] ∧
      (lowest_max_rounds
         (until_list never_satisfied.2 (p_until_callbacks (first_pipeline "Q")))
       ≤ 0)%Z) ∨
     backend_failed (first_pipeline "Q") e tr w' ∨
     (false = false ∧
      exhausted_at never_satisfied.2 (first_pipeline "Q") e tr) ∨
     validator_raised e tr ∨
     watch_raised (watch_ids never_satisfied.2 (first_pipeline "Q")) e tr ∨
     (rounds (watch_ids never_satisfied.2 (first_pipeline "Q")) tr ∧
      post_run_raised never_satisfied.2 (first_pipeline "Q") e w') ∨
     (e = IndexError ∧
      map_list never_satisfied.2 (p_map_callbacks (first_pipeline "Q")) ≠ [] ∧
      rounds (watch_ids never_satisfied.2 (first_pipeline "Q")) tr)).
Proof.
  eexists _, _, _.
  split; [vm_compute; reflexivity|]. split; [reflexivity|].
  eapply (X8_what_run_can_raise 3 never_satisfied.2 (first_pipeline "Q")
            false 0).
  vm_compute. reflexivity.
Defined.

(** X9 on [then_fails], whose Then callback raises. *)
Lemma X9_witness :
  answers_every_request ∧
  map_list then_fails.2 (p_map_callbacks (first_pipeline "Q")) = [] ∧
  (0 < lowest_max_rounds
         (until_list then_fails.2 (p_until_callbacks (first_pipeline "Q"))))%Z ∧
  (round_budget then_fails.2 (first_pipeline "Q") ≤ 1)%nat ∧
  (∃ tr, run 1 then_fails.2 (first_pipeline "Q") true 0
           = Some (inl (CallbackError "then failed"), tr, 1)) ∧
  ∃ res tr w',
    run 1 then_fails.2 (first_pipeline "Q") true 0 = Some (res, tr, w') ∧
    match res with
    | inr c => True
    | inl e =>
        backend_failed (first_pipeline "Q") e tr w' ∨
        validator_raised e tr ∨
        watch_raised (watch_ids then_fails.2 (first_pipeline "Q")) e tr ∨
        (rounds (watch_ids then_fails.2 (first_pipeline "Q")) tr ∧
         post_run_raised then_fails.2 (first_pipeline "Q") e w' ∧
         then_list then_fails.2 (p_then_callbacks (first_pipeline "Q")) ≠ [])
    end.
Proof.
  split; [exact demo_answers_every_request|].
  split; [vm_compute; reflexivity|].
  split; [vm_compute; reflexivity|].
  split; [vm_compute; lia|].
  split; [eexists; vm_compute; reflexivity|].
  apply (X9_run_allow_failed_returns 1 then_fails.2 (first_pipeline "Q") 0).
  - exact demo_answers_every_request.
  - vm_compute. reflexivity.
  - vm_compute. reflexivity.
  - vm_compute. lia.
Defined.

(** X10 on [retry_then_accept 0], whose validators allow no round. *)
Lemma X10_witness :
  until_list (retry_then_accept 0).2 (p_until_callbacks (first_pipeline "Q")) ≠ [] ∧
  (lowest_max_rounds
     (until_list (retry_then_accept 0).2
        (p_until_callbacks (first_pipeline "Q"))) ≤ 0)%Z ∧
  (∀ allow_failed,
     run 3 (retry_then_accept 0).2 (first_pipeline "Q") allow_failed 0
       = Some (inl (UnboundLocalError "generated"), [], 0)) ∧
  (∀ count params skip_failed include_failed fitted,
     skip_failed && include_failed = false →
     _fit_params (first_pipeline "Q") count params = inr fitted →
     (0 < count)%Z →
     run_many 3 (retry_then_accept 0).2 (first_pipeline "Q") count params
       skip_failed include_failed 0
       = Some (inl (UnboundLocalError "generated"), [], 0)) ∧
  (∀ many params skip_failed include_failed fitted,
     skip_failed && include_failed = false →
     _fit_params (first_pipeline "Q") (Z.of_nat (length many)) params
       = inr fitted →
     many ≠ [] →
     run_batch 3 (retry_then_accept 0).2 (first_pipeline "Q") many params
       skip_failed include_failed 0
       = Some (inl (UnboundLocalError "generated"), [], 0)).
Proof.
  split; [by vm_compute|]. split; [by vm_compute|].
  apply (X10_no_round_allowed 3 (retry_then_accept 0).2 (first_pipeline "Q") 0).
  - by vm_compute.
  - by vm_compute.
Defined.

(** X11 on [one_chance], without any fuel. *)
Lemma X11_witness :
  false && false = false ∧
  (@None (list (option GenerateParams)) = None ∨
   @None (list (option GenerateParams)) = Some []) ∧
  run_many 0 one_chance.2 (first_pipeline "") 0 None false false 0
    = Some ((_post_run one_chance.2 (first_pipeline "") [] 0).1, [],
            (_post_run one_chance.2 (first_pipeline "") [] 0).2) ∧
  run_batch 0 one_chance.2 (first_pipeline "") [] None false false 0
    = Some ((_post_run one_chance.2 (first_pipeline "") [] 0).1, [],
            (_post_run one_chance.2 (first_pipeline "") [] 0).2) ∧
  (map_list one_chance.2 (p_map_callbacks (first_pipeline "")) = [] →
   _post_run one_chance.2 (first_pipeline "") [] 0 = (inr [], 0)).
Proof.
  split; [reflexivity|]. split; [by left|].
  apply (X11_nothing_to_generate 0 one_chance.2 (first_pipeline "") None
           false false 0).
  - reflexivity.
  - by left.
Defined.

(** X12 on [watched]: the callback that is registered and a new one,
    given twice. *)
Lemma X12_witness :
  well_formed watched.2 watched.1 (first_pipeline "Q") ∧
  map watch_id
    (watch_list (watch watched.2 watched.1 [watcher 1; watcher 2; watcher 2] false)
       (p_watch_callbacks (first_pipeline "Q"))) = [1; 2] ∧
  let before := watch_list watched.2 (p_watch_callbacks (first_pipeline "Q")) in
  let h' := watch watched.2 watched.1 [watcher 1; watcher 2; watcher 2] false in
  let after := watch_list h' (p_watch_callbacks (first_pipeline "Q")) in
  before `prefix_of` after ∧
  (∀ cb, cb ∈ after → cb ∈ before ∨ cb ∈ [watcher 1; watcher 2; watcher 2]) ∧
  (∀ cb, cb ∈ [watcher 1; watcher 2; watcher 2] →
     watch_id cb ∈ watch_id <$> after) ∧
  (NoDup (watch_id <$> before) → NoDup (watch_id <$> after)) ∧
  watch_list (watch h' watched.1 [watcher 1; watcher 2; watcher 2] false)
    (p_watch_callbacks (first_pipeline "Q")) = after ∧
  watch_list (watch watched.2 watched.1 [watcher 1; watcher 2; watcher 2] true)
    (p_watch_callbacks (first_pipeline "Q"))
    = (before ++ [watcher 1; watcher 2; watcher 2])%list.
Proof.
  split; [well_formed_by_evaluation|]. split; [vm_compute; reflexivity|].
  apply (X12_watch_keeps_one_of_each watched.2 watched.1 (first_pipeline "Q")
           [watcher 1; watcher 2; watcher 2]).
  well_formed_by_evaluation.
Defined.

(** X13 on [one_chance]. *)
Lemma X13_witness :
  well_formed one_chance.2 one_chance.1 (first_pipeline "") ∧
  ∃ new h' q,
    fork one_chance.2 one_chance.1 "!" = (Some new, h') ∧
    one_chance.2 !! new = None ∧
    (∀ l x, one_chance.2 !! l = Some x → h' !! l = Some x) ∧
    well_formed h' new q ∧
    p_text q = p_text (first_pipeline "") +:+ "!" ∧
    p_generator q = p_generator (first_pipeline "") ∧
    p_params q = p_params (first_pipeline "") ∧
    p_metadata q = p_metadata (first_pipeline "") ∧
    cloned_lists one_chance.2 h' (first_pipeline "") q.
Proof.
  split; [well_formed_by_evaluation|].
  apply (X13_fork_leaves_the_source one_chance.2 one_chance.1
           (first_pipeline "") "!").
  well_formed_by_evaluation.
Defined.

(** X14 on [one_chance], whose text is empty, with a value for the
    empty text. *)
Lemma X14_witness :
  well_formed one_chance.2 one_chance.1 (first_pipeline "") ∧
  safe_substitute "" {[ "" := "T" ]} = "T" ∧
  ∃ new h' q,
    apply_ one_chance.2 one_chance.1 {[ "" := "T" ]} = (Some new, h') ∧
    one_chance.2 !! new = None ∧
    (∀ l x, one_chance.2 !! l = Some x → h' !! l = Some x) ∧
    pipeline h' one_chance.1 = Some (first_pipeline "") ∧
    well_formed h' new q ∧
    p_text q = safe_substitute (p_text (first_pipeline "")) {[ "" := "T" ]} ∧
    p_generator q = p_generator (first_pipeline "") ∧
    p_params q = p_params (first_pipeline "") ∧
    p_metadata q = p_metadata (first_pipeline "") ∧
    cloned_lists one_chance.2 h' (first_pipeline "") q.
Proof.
  split; [well_formed_by_evaluation|]. split; [vm_compute; reflexivity|].
  apply (X14_apply_leaves_the_source one_chance.2 one_chance.1
           (first_pipeline "") {[ "" := "T" ]}).
  well_formed_by_evaluation.
Defined.

(** X15 on [watched]. *)
Lemma X15_witness :
  well_formed watched.2 watched.1 (first_pipeline "Q") ∧
  ∃ new h' q,
    clone watched.2 watched.1 true = (Some new, h') ∧
    watched.2 !! new = None ∧
    (∀ l x, watched.2 !! l = Some x → h' !! l = Some x) ∧
    well_formed h' new q ∧
    p_text q = p_text (first_pipeline "Q") ∧
    p_generator q = p_generator (first_pipeline "Q") ∧
    p_params q = p_params (first_pipeline "Q") ∧ p_metadata q = ∅ ∧
    until_list h' (p_until_callbacks q) = [] ∧
    type_list h' (p_until_types q) = [] ∧
    then_list h' (p_then_callbacks q) = [] ∧
    map_list h' (p_map_callbacks q) = [] ∧
    watch_list h' (p_watch_callbacks q)
      = watch_list watched.2 (p_watch_callbacks (first_pipeline "Q")) ∧
    (watch_list watched.2 (p_watch_callbacks (first_pipeline "Q")) ≠ [] →
     p_watch_callbacks q = p_watch_callbacks (first_pipeline "Q")).
Proof.
  split; [well_formed_by_evaluation|].
  apply (X15_clone_only_text watched.2 watched.1 (first_pipeline "Q")).
  well_formed_by_evaluation.
Defined.

(** X16 on [with_params], which has parameters, with no keyword
    argument. *)
Lemma X16_witness :
  well_formed with_params.2 with_params.1 params_pipeline ∧
  match match @None GenerateParams with
        | Some ps => Some ps
        | None => params_of_kwargs ∅
        end with
  | None => with_ with_params.2 with_params.1 None ∅
            = (inl ValidationError, with_params.2)
  | Some overlay =>
      match p_params params_pipeline with
      | None =>
          with_ with_params.2 with_params.1 None ∅ =
          (inr with_params.1,
           <[with_params.1 :=
               ObjPipeline (set_params (Some overlay) params_pipeline)]>
             with_params.2)
      | Some base =>
          ∃ new h' q,
            with_ with_params.2 with_params.1 None ∅ = (inr new, h') ∧
            with_params.2 !! new = None ∧
            (∀ l x, with_params.2 !! l = Some x → h' !! l = Some x) ∧
            well_formed h' new q ∧
            p_params q = Some (merge_with base (Some overlay)) ∧
            p_text q = p_text params_pipeline ∧
            p_generator q = p_generator params_pipeline ∧
            p_metadata q = p_metadata params_pipeline ∧
            cloned_lists with_params.2 h' params_pipeline q
      end
  end.
Proof.
  split; [well_formed_by_evaluation|].
  apply (X16_with_sets_or_clones with_params.2 with_params.1 params_pipeline
           None ∅).
  well_formed_by_evaluation.
Defined.

(** X17 on [one_chance], with a second validator. *)
Lemma X17_witness :
  well_formed one_chance.2 one_chance.1 (first_pipeline "") ∧
  let h' := until one_chance.2 one_chance.1 always_accept false 3 in
  let before := until_list one_chance.2 (p_until_callbacks (first_pipeline "")) in
  let after := until_list h' (p_until_callbacks (first_pipeline "")) in
  pipeline h' one_chance.1 = Some (first_pipeline "") ∧
  after = (before ++ [(always_accept, false, 3%Z)])%list ∧
  lowest_max_rounds after =
    match before with
    | [] => 3%Z
    | _ :: _ => Z.min (lowest_max_rounds before) 3
    end ∧
  (∀ e, e ∈ after → (lowest_max_rounds after ≤ e.2)%Z) ∧
  (before ≠ [] →
   (round_budget h' (first_pipeline "")
      ≤ round_budget one_chance.2 (first_pipeline ""))%nat).
Proof.
  split; [well_formed_by_evaluation|].
  apply (X17_until_lowers_the_budget one_chance.2 one_chance.1
           (first_pipeline "") always_accept false 3).
  well_formed_by_evaluation.
Defined.

(** X20 on [one_chance] with the metadata key [k], [run_batch] over
    [ok]. *)
Lemma X20_witness :
  pipeline one_chance.2 one_chance.1 = Some (first_pipeline "") ∧
  ∃ res tr w',
    runs 3 (meta one_chance.2 one_chance.1 {[ "k" := 1 ]})
      (set_metadata ({[ "k" := 1 ]} ∪ p_metadata (first_pipeline ""))
         (first_pipeline ""))
      false false 0 (res, tr, w') ∧
    length (assigned tr) = 1 ∧
    pipeline (meta one_chance.2 one_chance.1 {[ "k" := 1 ]}) one_chance.1
      = Some (set_metadata ({[ "k" := 1 ]} ∪ p_metadata (first_pipeline ""))
                (first_pipeline "")) ∧
    ∀ i c, (i, c) ∈ assigned tr →
      c_metadata c = {[ "k" := 1 ]} ∪ p_metadata (first_pipeline "") ∧
      (∀ k v, ({[ "k" := 1 ]} : gmap string nat) !! k = Some v →
              c_metadata c !! k = Some v) ∧
      (∀ k, ({[ "k" := 1 ]} : gmap string nat) !! k = None →
            c_metadata c !! k = p_metadata (first_pipeline "") !! k).
Proof.
  split; [vm_compute; reflexivity|].
  eexists _, _, _.
  split; [left; exists ["ok"], None; vm_compute; reflexivity|].
  split; [reflexivity|].
  eapply (X20_metadata_reaches_the_records one_chance.2 one_chance.1
            (first_pipeline "") {[ "k" := 1 ]} 3 false false 0).
  - vm_compute. reflexivity.
  - left. exists ["ok"], None. vm_compute. reflexivity.
Defined.

(** X21 on [one_chance], [run_batch] over [ok], restarting its record
    in the empty heap. *)
Lemma X21_witness :
  ∃ res tr w' i c,
    runs 3 one_chance.2 (first_pipeline "") false false 0 (res, tr, w') ∧
    (i, c) ∈ assigned tr ∧
    c_generated c = "ok" ∧
    (∀ include_all,
       restart ∅ c None include_all =
       let '(l, hc') :=
         complete (p_generator (first_pipeline ""))
           (if include_all then p_text (first_pipeline "") +:+ c_generated c
            else c_generated c)
           (c_params c) ∅ in
       (inr l, hc')) ∧
    (∀ generator include_all,
       restart ∅ c (Some generator) include_all =
       let '(l, hc') :=
         complete generator
           (if include_all then p_text (first_pipeline "") +:+ c_generated c
            else c_generated c)
           (c_params c) ∅ in
       (inr l, hc')) ∧
    (∀ text,
       continue_ ∅ c text =
       let '(l, hc') :=
         complete (p_generator (first_pipeline ""))
           (p_text (first_pipeline "") +:+ c_generated c) (c_params c) ∅ in
       (inr l, add hc' l text)).
Proof.
  eexists _, _, _, _, _.
  split; [left; exists ["ok"], None; vm_compute; reflexivity|].
  split; [apply list_elem_of_here|]. split; [reflexivity|].
  eapply (X21_records_can_be_restarted 3 one_chance.2 (first_pipeline "")
            false false 0).
  - left. exists ["ok"], None. vm_compute. reflexivity.
  - apply list_elem_of_here.
Defined.

End MoreEvaluations.
